(** * tgif-brain: need routing, learned tool weights, conversation hub, SSE delivery

    A shallow embedding of the stateful core of the repository:

    - [PySort]          the stable sort behind Python's [sorted] / [list.sort]
    - [Binary64]        the order of IEEE 754 doubles away from NaN
    - [SessionState]    src/session_state.py  (SQLite tables as finite maps)
    - [Preflight]       src/preflight.py      (keyword and trigger-word scoring)
    - [ConversationHub] src/backend_8825/conversation_hub_client.py
    - [SseServer]       src/jh_brain_sse_server.py (the [event_stream] generator
                        and the JSON-RPC tools)
    - [Server]          src/server.py         (the [/query], [/log], [/stats]
                        and [/health] endpoints)
    - [McpTools]        src/jh_brain_sse_server.py (the [log_use] and
                        [rank_tools] tools)
    - [MaestraBackend]  src/backend_8825/server.py ([/api/maestra/core] and
                        [/metrics])

    Conventions.  A SQLite [INTEGER] is a [Z]; a SQLite [REAL] / Python
    [float] is an element of a type with the operations the code uses, read
    either as an exact rational ([Q], compared with [==]), where the decimal
    constants of the source are exact, or as an IEEE 754 double; what the
    code sorts and compares is the double, and the statements about order
    are made on doubles.  A text is a [string] of ASCII characters.  A
    conversation id is a file name in the hub's directory.  Wall-clock reads
    ([datetime.now()]) and fresh identifiers ([uuid4()]) are arguments of
    the operations. *)

From Stdlib Require Import QArith Qminmax Lqa ZArith List String Ascii Bool Lia.
From Stdlib Require Import PrimFloat Uint63.
From Stdlib Require SpecFloat FloatAxioms FloatOps.
From Stdlib Require Import Sorting.Sorted Sorting.Permutation.
From stdpp Require Import gmap strings list.

Local Open Scope Z_scope.

(* ====================================================================== *)
(** ** Python's stable sort *)
(* ====================================================================== *)

Module PySort.

Section Defs.
Context {A K : Type}.
(** [ltb] is the [<] of the key type: the only comparison [list.sort] uses. *)
Variable ltb : K -> K -> bool.
Variable key : A -> K.

(** Put [x] in front of an already sorted [l], walking past the elements
    whose key is strictly smaller: [x] stays ahead of every element with an
    equivalent key, which is what stability asks of an element that came
    first in the input. *)
Fixpoint insert_stable (x : A) (l : list A) : list A :=
  match l with
  | [] => [x]
  | y :: l' => if ltb (key y) (key x) then y :: insert_stable x l'
               else x :: y :: l'
  end.

(** [sorted(l, key=key)]: ascending, stable. *)
Definition sorted (l : list A) : list A := foldr insert_stable [] l.

End Defs.

(** [sorted(l, key=key, reverse=True)]: descending, and still stable
    (elements with equal keys keep their original order). *)
Definition sorted_reverse {A K : Type} (ltb : K -> K -> bool) (key : A -> K)
  (l : list A) : list A :=
  sorted (fun a b => ltb b a) key l.

(** A strict weak order, as a boolean [<]. *)
Record strict_weak (K : Type) (ltb : K -> K -> bool) : Prop := {
  sw_asym : forall a b, ltb a b = true -> ltb b a = false;
  sw_cotrans : forall a b c, ltb a c = true -> ltb a b = true \/ ltb b c = true
}.

(** Keys neither of which is below the other. *)
Definition equiv_key {K : Type} (ltb : K -> K -> bool) (a b : K) : bool :=
  negb (ltb a b) && negb (ltb b a).

Section Facts.
Context {A K : Type}.
Variable ltb : K -> K -> bool.
Variable key : A -> K.
Hypothesis SW : strict_weak K ltb.

(** No element is followed (anywhere later) by one with a smaller key. *)
Definition ascending (l : list A) : Prop :=
  StronglySorted (fun a b => ltb (key b) (key a) = false) l.

Lemma insert_stable_perm x l : Permutation (insert_stable ltb key x l) (x :: l).
Proof.
  induction l as [|y l IH]; simpl; [reflexivity|].
  destruct (ltb (key y) (key x)); [|reflexivity].
  rewrite IH. apply perm_swap.
Qed.

Lemma sorted_perm l : Permutation (sorted ltb key l) l.
Proof.
  induction l as [|x l IH]; simpl; [reflexivity|].
  rewrite insert_stable_perm. now constructor.
Qed.

Lemma not_lt_trans a b c :
  ltb b a = false -> ltb c b = false -> ltb c a = false.
Proof.
  intros Hba Hcb. destruct (ltb c a) eqn:E; [|reflexivity].
  destruct (sw_cotrans _ _ SW c b a E) as [H|H]; congruence.
Qed.

Lemma insert_stable_ascending x l :
  ascending l -> ascending (insert_stable ltb key x l).
Proof.
  unfold ascending. induction l as [|y l IH]; intros Hs; simpl.
  - repeat constructor.
  - inversion Hs as [|? ? Hl Hy]; subst.
    destruct (ltb (key y) (key x)) eqn:E.
    + constructor; [now apply IH|].
      apply Forall_forall. intros z Hz.
      rewrite (insert_stable_perm x l) in Hz.
      apply elem_of_cons in Hz as [->|Hz].
      * now apply (sw_asym _ _ SW).
      * rewrite Forall_forall in Hy. now apply Hy.
    + constructor; [assumption|].
      constructor; [assumption|].
      rewrite Forall_forall in Hy |- *. intros z Hz.
      apply not_lt_trans with (b := key y); [assumption|now apply Hy].
Qed.

Lemma sorted_ascending l : ascending (sorted ltb key l).
Proof.
  induction l as [|x l IH]; simpl.
  - constructor.
  - now apply insert_stable_ascending.
Qed.

(** Stability: the elements whose key is equivalent to [k] come out in the
    order in which they went in. *)
Lemma insert_stable_filter k x l :
  List.filter (fun a => equiv_key ltb (key a) k) (insert_stable ltb key x l)
  = List.filter (fun a => equiv_key ltb (key a) k) (x :: l).
Proof.
  induction l as [|y l IH]; [reflexivity|].
  cbn [insert_stable]. destruct (ltb (key y) (key x)) eqn:E; [|reflexivity].
  cbn [List.filter] in *. rewrite IH.
  destruct (equiv_key ltb (key x) k) eqn:Ex;
    destruct (equiv_key ltb (key y) k) eqn:Ey; try reflexivity.
  exfalso. unfold equiv_key in Ex, Ey.
  apply andb_prop in Ex as [Ex1 Ex2]. apply andb_prop in Ey as [Ey1 Ey2].
  apply negb_true_iff in Ex1, Ex2, Ey1, Ey2.
  destruct (sw_cotrans _ _ SW _ k _ E) as [H|H]; congruence.
Qed.

Lemma sorted_stable k l :
  List.filter (fun a => equiv_key ltb (key a) k) (sorted ltb key l)
  = List.filter (fun a => equiv_key ltb (key a) k) l.
Proof.
  induction l as [|x l IH]; [reflexivity|].
  cbn [sorted foldr]. rewrite insert_stable_filter.
  cbn [List.filter]. unfold sorted in IH. now rewrite IH.
Qed.

End Facts.

(** The same facts when [ltb] is a strict weak order only on the keys that
    satisfy [P] (the doubles without NaN), for lists whose keys do. *)
Record strict_weak_on (K : Type) (P : K -> Prop) (ltb : K -> K -> bool) : Prop := {
  swo_asym : forall a b, P a -> P b -> ltb a b = true -> ltb b a = false;
  swo_cotrans : forall a b c, P a -> P b -> P c ->
                              ltb a c = true -> ltb a b = true \/ ltb b c = true
}.

Section FactsOn.
Context {A K : Type}.
Variable P : K -> Prop.
Variable ltb : K -> K -> bool.
Variable key : A -> K.
Hypothesis SW : strict_weak_on K P ltb.

Lemma insert_stable_ascending_on x l :
  P (key x) -> Forall (fun a => P (key a)) l ->
  ascending ltb key l -> ascending ltb key (insert_stable ltb key x l).
Proof.
  unfold ascending. intros Px. induction l as [|y l IH]; intros HP Hs; simpl.
  - repeat constructor.
  - apply Forall_cons_1 in HP as [Py HP].
    inversion Hs as [|? ? Hl Hy]; subst.
    destruct (ltb (key y) (key x)) eqn:E.
    + constructor; [now apply IH|].
      apply Forall_forall. intros z Hz.
      rewrite (insert_stable_perm ltb key x l) in Hz.
      apply elem_of_cons in Hz as [->|Hz].
      * now apply (swo_asym _ _ _ SW).
      * rewrite Forall_forall in Hy. now apply Hy.
    + constructor; [assumption|].
      constructor; [assumption|].
      rewrite Forall_forall in Hy, HP |- *. intros z Hz.
      destruct (ltb (key z) (key x)) eqn:Ezx; [|reflexivity].
      destruct (swo_cotrans _ _ _ SW (key z) (key y) (key x)) as [H|H];
        [now apply HP|assumption|assumption|assumption| |congruence].
      rewrite (Hy z Hz) in H. discriminate.
Qed.

Lemma sorted_ascending_on l :
  Forall (fun a => P (key a)) l -> ascending ltb key (sorted ltb key l).
Proof.
  induction l as [|x l IH]; intros HP; simpl.
  - constructor.
  - apply Forall_cons_1 in HP as [Px HP].
    apply insert_stable_ascending_on; [assumption| |now apply IH].
    apply Forall_forall. intros a Ha. rewrite (sorted_perm ltb key l) in Ha.
    rewrite Forall_forall in HP. now apply HP.
Qed.

Lemma insert_stable_filter_on k x l :
  P k -> P (key x) -> Forall (fun a => P (key a)) l ->
  List.filter (fun a => equiv_key ltb (key a) k) (insert_stable ltb key x l)
  = List.filter (fun a => equiv_key ltb (key a) k) (x :: l).
Proof.
  intros Pk Px. induction l as [|y l IH]; intros HP; [reflexivity|].
  apply Forall_cons_1 in HP as [Py HP].
  cbn [insert_stable]. destruct (ltb (key y) (key x)) eqn:E; [|reflexivity].
  cbn [List.filter] in *. rewrite (IH HP).
  destruct (equiv_key ltb (key x) k) eqn:Ex;
    destruct (equiv_key ltb (key y) k) eqn:Ey; try reflexivity.
  exfalso. unfold equiv_key in Ex, Ey.
  apply andb_prop in Ex as [Ex1 Ex2]. apply andb_prop in Ey as [Ey1 Ey2].
  apply negb_true_iff in Ex1, Ex2, Ey1, Ey2.
  destruct (swo_cotrans _ _ _ SW (key y) k (key x)) as [H|H];
    [assumption..|congruence|congruence].
Qed.

Lemma sorted_stable_on k l :
  P k -> Forall (fun a => P (key a)) l ->
  List.filter (fun a => equiv_key ltb (key a) k) (sorted ltb key l)
  = List.filter (fun a => equiv_key ltb (key a) k) l.
Proof.
  intros Pk. induction l as [|x l IH]; intros HP; [reflexivity|].
  apply Forall_cons_1 in HP as [Px HP].
  cbn [sorted foldr]. rewrite insert_stable_filter_on; [|assumption..|].
  - cbn [List.filter]. unfold sorted in IH. now rewrite (IH HP).
  - apply Forall_forall. intros a Ha.
    change (foldr (insert_stable ltb key) [] l) with (sorted ltb key l) in Ha.
    rewrite (sorted_perm ltb key l) in Ha.
    rewrite Forall_forall in HP. now apply HP.
Qed.

End FactsOn.

Lemma strict_weak_on_flip {K : Type} (P : K -> Prop) (ltb : K -> K -> bool) :
  strict_weak_on K P ltb -> strict_weak_on K P (fun a b => ltb b a).
Proof.
  intros [Ha Hc]. split.
  - intros a b Pa Pb H. now apply Ha.
  - intros a b c Pa Pb Pc H. destruct (Hc c b a Pc Pb Pa H); auto.
Qed.


Lemma strict_weak_flip {K : Type} (ltb : K -> K -> bool) :
  strict_weak K ltb -> strict_weak K (fun a b => ltb b a).
Proof.
  intros [Ha Hc]. split.
  - intros a b H. now apply Ha.
  - intros a b c H. destruct (Hc _ b _ H); auto.
Qed.


(** [<] on [str]: lexicographic on the character codes. *)
Lemma string_compare_lt_trans (a b c : string) :
  String.compare a b = Lt -> String.compare b c = Lt -> String.compare a c = Lt.
Proof.
  revert b c. induction a as [|x a IH]; intros [|y b] [|z c]; cbn;
    try congruence.
  unfold Ascii.compare.
  destruct (N.compare_spec (N_of_ascii x) (N_of_ascii y)) as [Exy|Hxy|Hxy];
    destruct (N.compare_spec (N_of_ascii y) (N_of_ascii z)) as [Eyz|Hyz|Hyz];
    try congruence.
  - rewrite Exy, Eyz, N.compare_refl. apply IH.
  - intros _ _. rewrite Exy. now apply N.compare_lt_iff in Hyz as ->.
  - intros _ _. rewrite <- Eyz. now apply N.compare_lt_iff in Hxy as ->.
  - intros _ _. assert (H : (N_of_ascii x < N_of_ascii z)%N) by lia.
    now apply N.compare_lt_iff in H as ->.
Qed.

Lemma strict_weak_string : strict_weak string String.ltb.
Proof.
  split.
  - intros a b. unfold String.ltb. rewrite (String.compare_antisym a b).
    now destruct (String.compare b a).
  - intros a b c. unfold String.ltb.
    destruct (String.compare a c) eqn:Eac; try discriminate. intros _.
    destruct (String.compare a b) eqn:Eab; [|now left|].
    + apply String.compare_eq_iff in Eab as <-. right. now rewrite Eac.
    + right. pose proof (String.compare_antisym b a) as Eba.
      rewrite Eab in Eba. cbn in Eba.
      now rewrite (string_compare_lt_trans b a c).
Qed.

End PySort.

(* ====================================================================== *)
(** ** IEEE 754 doubles: comparisons *)
(* ====================================================================== *)

Module Binary64.

Import SpecFloat.

(** *** The order of the doubles

    [PrimFloat.ltb], [leb] and [eqb] are specified by [SFcompare] on the
    decoded doubles.  Away from NaN that comparison is the lexicographic
    order of a key: the class of the number (negative infinity, negative,
    zero, positive, positive infinity), then exponent and mantissa. *)

Definition SFkey (x : spec_float) : Z * Z * Z :=
  match x with
  | S754_zero _ => (0, 0, 0)
  | S754_infinity true => (-2, 0, 0)
  | S754_infinity false => (2, 0, 0)
  | S754_nan => (0, 0, 0)
  | S754_finite true m e => (-1, - e, Zneg m)
  | S754_finite false m e => (1, e, Zpos m)
  end.

Definition key_compare (a b : Z * Z * Z) : comparison :=
  match fst (fst a) ?= fst (fst b) with
  | Eq => match snd (fst a) ?= snd (fst b) with
          | Eq => snd a ?= snd b
          | c => c
          end
  | c => c
  end.

Definition key_lt (a b : Z * Z * Z) : Prop :=
  fst (fst a) < fst (fst b)
  \/ (fst (fst a) = fst (fst b)
      /\ (snd (fst a) < snd (fst b)
          \/ (snd (fst a) = snd (fst b) /\ snd a < snd b))).

Lemma SFcompare_key (x y : spec_float) :
  x <> S754_nan -> y <> S754_nan ->
  SFcompare x y = Some (key_compare (SFkey x) (SFkey y)).
Proof.
  intros Hx Hy.
  destruct x as [sx|sx| |sx mx ex]; [| |congruence|];
    (destruct y as [sy|sy| |sy my ey]; [| |congruence|]);
    try destruct sx; try destruct sy; try reflexivity;
    unfold SFcompare, SFkey, key_compare; cbn [fst snd].
  change (Z.neg 1 ?= Z.neg 1) with Eq.
  rewrite Z.compare_opp, (Z.compare_antisym ex ey).
  destruct (ex ?= ey); cbn [CompOpp]; reflexivity.
Qed.

Lemma key_compare_Lt a b : key_compare a b = Lt <-> key_lt a b.
Proof.
  unfold key_compare, key_lt.
  destruct (Z.compare_spec (fst (fst a)) (fst (fst b)));
    destruct (Z.compare_spec (snd (fst a)) (snd (fst b)));
    destruct (Z.compare_spec (snd a) (snd b));
    split; intros; try discriminate; try reflexivity; lia.
Qed.

Lemma key_compare_Gt a b : key_compare a b = Gt <-> key_lt b a.
Proof.
  unfold key_compare, key_lt.
  destruct (Z.compare_spec (fst (fst a)) (fst (fst b)));
    destruct (Z.compare_spec (snd (fst a)) (snd (fst b)));
    destruct (Z.compare_spec (snd a) (snd b));
    split; intros; try discriminate; try reflexivity; lia.
Qed.

Lemma key_compare_Eq a b : key_compare a b = Eq <-> ~ key_lt a b /\ ~ key_lt b a.
Proof.
  unfold key_compare, key_lt.
  destruct (Z.compare_spec (fst (fst a)) (fst (fst b)));
    destruct (Z.compare_spec (snd (fst a)) (snd (fst b)));
    destruct (Z.compare_spec (snd a) (snd b));
    split; intros; try discriminate; try reflexivity; lia.
Qed.

(** A double that is not NaN. *)
Definition number (f : float) : Prop := is_nan f = false.

Lemma number_decoded f : number f <-> FloatOps.Prim2SF f <> S754_nan.
Proof.
  unfold number, is_nan. rewrite FloatAxioms.eqb_spec. unfold SFeqb.
  destruct (FloatOps.Prim2SF f) as [s|s| |s m e] eqn:E.
  all: try (rewrite SFcompare_key by discriminate;
            assert (Hk : forall k, key_compare k k = Eq)
              by (intros k; apply key_compare_Eq; unfold key_lt; lia);
            rewrite Hk; cbn; split; [discriminate|reflexivity]).
  cbn. split; [discriminate|congruence].
Qed.

Lemma ltb_key a b :
  number a -> number b ->
  (PrimFloat.ltb a b = true
   <-> key_lt (SFkey (FloatOps.Prim2SF a)) (SFkey (FloatOps.Prim2SF b))).
Proof.
  intros Ha Hb. apply number_decoded in Ha, Hb.
  rewrite FloatAxioms.ltb_spec. unfold SFltb.
  rewrite SFcompare_key by assumption. rewrite <- key_compare_Lt.
  destruct (key_compare _ _); split; congruence.
Qed.

Lemma leb_key a b :
  number a -> number b ->
  (PrimFloat.leb a b = true
   <-> ~ key_lt (SFkey (FloatOps.Prim2SF b)) (SFkey (FloatOps.Prim2SF a))).
Proof.
  intros Ha Hb. apply number_decoded in Ha, Hb.
  rewrite FloatAxioms.leb_spec. unfold SFleb.
  rewrite SFcompare_key by assumption. rewrite <- key_compare_Gt.
  destruct (key_compare _ _); split; congruence.
Qed.

Lemma eqb_key a b :
  number a -> number b ->
  (PrimFloat.eqb a b = true
   <-> ~ key_lt (SFkey (FloatOps.Prim2SF a)) (SFkey (FloatOps.Prim2SF b))
       /\ ~ key_lt (SFkey (FloatOps.Prim2SF b)) (SFkey (FloatOps.Prim2SF a))).
Proof.
  intros Ha Hb. apply number_decoded in Ha, Hb.
  rewrite FloatAxioms.eqb_spec. unfold SFeqb.
  rewrite SFcompare_key by assumption. rewrite <- key_compare_Eq.
  destruct (key_compare _ _); split; congruence.
Qed.

Lemma eqb_nan_r a q : is_nan q = true -> PrimFloat.eqb a q = false.
Proof.
  intros Hq. rewrite FloatAxioms.eqb_spec.
  assert (E : FloatOps.Prim2SF q = S754_nan).
  { destruct (FloatOps.Prim2SF q) eqn:E; try reflexivity;
      exfalso; assert (Hn : number q) by (apply number_decoded; rewrite E; discriminate);
      unfold number in Hn; congruence. }
  rewrite E. unfold SFeqb, SFcompare. now destruct (FloatOps.Prim2SF a).
Qed.

Lemma ltb_asym a b :
  number a -> number b -> PrimFloat.ltb a b = true -> PrimFloat.ltb b a = false.
Proof.
  intros Ha Hb Hab. apply (ltb_key a b Ha Hb) in Hab.
  apply not_true_is_false. intros Hba. apply (ltb_key b a Hb Ha) in Hba.
  unfold key_lt in *. lia.
Qed.

Lemma ltb_cotrans a b c :
  number a -> number b -> number c ->
  PrimFloat.ltb a b = true ->
  PrimFloat.ltb a c = true \/ PrimFloat.ltb c b = true.
Proof.
  intros Ha Hb Hc Hab. apply (ltb_key a b Ha Hb) in Hab.
  rewrite (ltb_key a c Ha Hc), (ltb_key c b Hc Hb).
  unfold key_lt in *. lia.
Qed.

Lemma ltb_false_leb a b :
  number a -> number b -> PrimFloat.ltb a b = false -> PrimFloat.leb b a = true.
Proof.
  intros Ha Hb Hab. apply (leb_key b a Hb Ha). intros Hk.
  apply (ltb_key a b Ha Hb) in Hk. congruence.
Qed.

Lemma unordered_eqb a b :
  number a -> number b ->
  negb (PrimFloat.ltb a b) && negb (PrimFloat.ltb b a) = PrimFloat.eqb a b.
Proof.
  intros Ha Hb.
  pose proof (ltb_key a b Ha Hb) as H1. pose proof (ltb_key b a Hb Ha) as H2.
  pose proof (eqb_key a b Ha Hb) as H3.
  destruct (PrimFloat.ltb a b), (PrimFloat.ltb b a), (PrimFloat.eqb a b);
    cbn; try reflexivity; exfalso; intuition congruence.
Qed.

Lemma strict_weak_on_ltb : PySort.strict_weak_on float number PrimFloat.ltb.
Proof.
  split.
  - exact ltb_asym.
  - intros a b c Pa Pb Pc H. exact (ltb_cotrans a c b Pa Pc Pb H).
Qed.

End Binary64.

(* ====================================================================== *)
(** ** src/session_state.py: sessions, usage log, learning weights *)
(* ====================================================================== *)

Module SessionState.

(** *** [REAL] arithmetic

    The weight column is a SQLite [REAL] and the success rate a Python
    [float].  The operations the module performs on them are collected in a
    class with two instances: [exact], the rationals, in which the decimal
    constants of the source mean what they say, and [binary64], the IEEE 754
    doubles both SQLite and Python compute with.  The two differ after
    rounding (three successes give 1.3 in [exact] and the double above it in
    [binary64]), so whatever depends on comparing computed values (the
    ranking, the recommended tool, the direction of an adjustment) is stated
    on [binary64]. *)

Class Real (R : Type) := mk_real {
  lit_0_1 : R;                  (* 0.1 *)
  lit_0_5 : R;                  (* 0.5 *)
  lit_1_0 : R;                  (* 1.0 *)
  lit_2_0 : R;                  (* 2.0 *)
  r_add : R -> R -> R;
  r_sub : R -> R -> R;
  r_mul : R -> R -> R;
  r_div_int : Z -> Z -> R;      (* int / int, true division *)
  r_leb : R -> R -> bool;
  r_ltb : R -> R -> bool
}.

Definition Qltb (x y : Q) : bool := negb (Qle_bool y x).

#[export] Instance exact : Real Q :=
  mk_real Q 0.1%Q 0.5%Q 1.0%Q 2.0%Q Qplus Qminus Qmult
          (fun a b => (inject_Z a / inject_Z b)%Q) Qle_bool Qltb.

(** The double nearest to 0.1 is [0x1.999999999999ap-4]; 0.5, 1.0 and 2.0
    are doubles.  Counters are converted through 63-bit integers. *)
#[export] Instance binary64 : Real float :=
  mk_real float 0x1.999999999999ap-4%float 0.5%float 1%float 2%float
          PrimFloat.add PrimFloat.sub PrimFloat.mul
          (fun a b => PrimFloat.div (PrimFloat.of_uint63 (Uint63.of_Z a))
                                    (PrimFloat.of_uint63 (Uint63.of_Z b)))
          PrimFloat.leb PrimFloat.ltb.

(** *** The three tables of [init_db] *)

(** [sessions(id PRIMARY KEY, started_at, ended_at, tool_calls, successes, failures)] *)
Record session_row := mk_session {
  started_at : string;
  ended_at : option string;
  tool_calls : Z;
  session_successes : Z;
  failures : Z
}.

(** [tool_usage(id AUTOINCREMENT, session_id, tool_id, need, timestamp, success, notes)];
    the row id is the position in the list. *)
Record usage_row := mk_usage {
  usage_session_id : string;
  usage_tool_id : string;
  usage_need : string;
  usage_success : Z;
  usage_notes : string;
  usage_timestamp : string
}.

(** One usage report, as [log_tool_use] receives it. *)
Record report := mk_report {
  rp_session : string;
  rp_tool : string;
  rp_need : string;
  rp_success : bool;
  rp_notes : string;
  rp_now : string
}.

(** [1 if success else 0] *)
Definition int_of_bool (b : bool) : Z := if b then 1 else 0.

Section Tables.
Context {R : Type} `{Real R}.

(** [tool_weights(tool_id PRIMARY KEY, weight REAL, total_uses, successes, last_used)] *)
Record weight_row := mk_weight {
  weight : R;
  total_uses : Z;
  successes : Z;
  last_used : string
}.

Record db := mk_db {
  sessions : gmap string session_row;
  tool_usage : list usage_row;
  tool_weights : gmap string weight_row
}.

Definition empty_db : db := mk_db ∅ [] ∅.

(** SQLite's two-argument scalar [MIN] and [MAX]. *)
Definition MIN (x y : R) : R := if r_leb x y then x else y.
Definition MAX (x y : R) : R := if r_leb x y then y else x.

(** [update_tool_weight]: the upsert
[[
  INSERT INTO tool_weights (tool_id, weight, total_uses, successes, last_used)
  VALUES (?, 1.0, 1, ?, ?)
  ON CONFLICT(tool_id) DO UPDATE SET
      total_uses = total_uses + 1,
      successes = successes + excluded.successes,
      last_used = excluded.last_used,
      weight = CASE WHEN excluded.successes > 0 THEN MIN(weight + 0.1, 2.0)
                    ELSE MAX(weight - 0.1, 0.1) END
]]
    [excluded] is the row the INSERT proposed; the right-hand sides read the
    existing row. *)
Definition update_tool_weight (tool_id : string) (success : bool) (now : string)
  (d : db) : db :=
  let excluded := mk_weight lit_1_0 1 (int_of_bool success) now in
  let row :=
    match tool_weights d !! tool_id with
    | None => excluded
    | Some old =>
        mk_weight
          (if 0 <? successes excluded
           then MIN (r_add (weight old) lit_0_1) lit_2_0
           else MAX (r_sub (weight old) lit_0_1) lit_0_1)
          (total_uses old + 1)
          (successes old + successes excluded)
          (last_used excluded)
    end in
  mk_db (sessions d) (tool_usage d) (<[tool_id := row]> (tool_weights d)).

(** [start_session], with the clock reads as arguments ([session_id] is the
    time formatted to the second, [now] the ISO time).  The plain [INSERT]
    on the primary key raises [IntegrityError] ([None]) when the id is
    taken; the other columns take their defaults. *)
Definition start_session (session_id now : string) (d : db) : option (string * db) :=
  match sessions d !! session_id with
  | Some _ => None
  | None =>
      Some (session_id,
            mk_db (<[session_id := mk_session now None 0 0 0]> (sessions d))
                  (tool_usage d) (tool_weights d))
  end.

(** [log_tool_use]: append the usage row, bump the counters of the session
    when it exists ([UPDATE ... WHERE id = ?]), then update the learning
    weight.  The optional Memory Core mirror writes nothing to these tables
    and swallows its own failures. *)
Definition log_tool_use (session_id tool_id need : string) (success : bool)
  (notes now : string) (d : db) : db :=
  let usage := mk_usage session_id tool_id need (int_of_bool success) notes now in
  let bump (s : session_row) :=
    if success
    then mk_session (started_at s) (ended_at s) (tool_calls s + 1)
                    (session_successes s + 1) (failures s)
    else mk_session (started_at s) (ended_at s) (tool_calls s + 1)
                    (session_successes s) (failures s + 1) in
  let d1 := mk_db (alter bump session_id (sessions d))
                  (tool_usage d ++ [usage]) (tool_weights d) in
  update_tool_weight tool_id success now d1.

(** [get_tool_weight]: [row[0] if row else 1.0] *)
Definition get_tool_weight (tool_id : string) (d : db) : R :=
  match tool_weights d !! tool_id with
  | Some r => weight r
  | None => lit_1_0
  end.

Definition log_report (d : db) (r : report) : db :=
  log_tool_use (rp_session r) (rp_tool r) (rp_need r) (rp_success r)
               (rp_notes r) (rp_now r) d.

(** A finite sequence of reports, processed in order. *)
Definition log_reports (rs : list report) (d : db) : db :=
  fold_left log_report rs d.

(** The dictionaries [get_weighted_tool_ranking] returns. *)
Record ranked := mk_ranked {
  r_tool_id : string;
  r_weight : R;
  r_uses : Z;
  r_success_rate : R
}.

(** The body of the [for tool_id in tool_ids] loop. *)
Definition rank_row (d : db) (tool_id : string) : ranked :=
  match tool_weights d !! tool_id with
  | Some row =>
      let success_rate :=
        if 0 <? total_uses row
        then r_div_int (successes row) (total_uses row)
        else lit_0_5 in
      mk_ranked tool_id (weight row) (total_uses row) success_rate
  | None => mk_ranked tool_id lit_1_0 0 lit_0_5
  end.

(** [lambda x: x["weight"] * x["success_rate"]] *)
Definition compound_score (x : ranked) : R := r_mul (r_weight x) (r_success_rate x).

(** [ranked.sort(key=..., reverse=True); return ranked] *)
Definition get_weighted_tool_ranking (tool_ids : list string) (d : db)
  : list ranked :=
  PySort.sorted_reverse r_ltb compound_score (map (rank_row d) tool_ids).

(** What one more report does to an existing row. *)
Definition next_row (row : weight_row) (r : report) : weight_row :=
  mk_weight
    (if rp_success r then MIN (r_add (weight row) lit_0_1) lit_2_0
     else MAX (r_sub (weight row) lit_0_1) lit_0_1)
    (total_uses row + 1)
    (successes row + int_of_bool (rp_success r))
    (rp_now r).

(** *** Facts that do not depend on the arithmetic *)

Lemma log_tool_use_weights session_id tool_id need success notes now d :
  tool_weights (log_tool_use session_id tool_id need success notes now d)
  = tool_weights (update_tool_weight tool_id success now d).
Proof. reflexivity. Qed.

Lemma update_tool_weight_other tool_id success now d other :
  tool_id <> other ->
  tool_weights (update_tool_weight tool_id success now d) !! other
  = tool_weights d !! other.
Proof.
  intros Hne. unfold update_tool_weight; cbn [tool_weights].
  now rewrite lookup_insert_ne.
Qed.

Lemma update_tool_weight_fresh tool_id success now d :
  tool_weights d !! tool_id = None ->
  tool_weights (update_tool_weight tool_id success now d) !! tool_id
  = Some (mk_weight lit_1_0 1 (int_of_bool success) now).
Proof.
  intros Hnone. unfold update_tool_weight; cbn [tool_weights].
  now rewrite Hnone, lookup_insert_eq.
Qed.

Lemma update_tool_weight_existing tool_id success now d old :
  tool_weights d !! tool_id = Some old ->
  tool_weights (update_tool_weight tool_id success now d) !! tool_id
  = Some (mk_weight
            (if success then MIN (r_add (weight old) lit_0_1) lit_2_0
             else MAX (r_sub (weight old) lit_0_1) lit_0_1)
            (total_uses old + 1)
            (successes old + int_of_bool success)
            now).
Proof.
  intros Hold. unfold update_tool_weight; cbn [tool_weights].
  rewrite Hold, lookup_insert_eq. now destruct success.
Qed.

Lemma log_report_existing d r old :
  tool_weights d !! rp_tool r = Some old ->
  tool_weights (log_report d r) !! rp_tool r = Some (next_row old r).
Proof.
  intros Hold. unfold log_report. rewrite log_tool_use_weights.
  now apply update_tool_weight_existing.
Qed.

Lemma log_report_fresh d r :
  tool_weights d !! rp_tool r = None ->
  tool_weights (log_report d r) !! rp_tool r
  = Some (mk_weight lit_1_0 1 (int_of_bool (rp_success r)) (rp_now r)).
Proof.
  intros Hnone. unfold log_report. rewrite log_tool_use_weights.
  now apply update_tool_weight_fresh.
Qed.

Lemma log_reports_existing tool_id rs : forall d old,
  Forall (fun r => rp_tool r = tool_id) rs ->
  tool_weights d !! tool_id = Some old ->
  tool_weights (log_reports rs d) !! tool_id = Some (fold_left next_row rs old).
Proof.
  unfold log_reports.
  induction rs as [|r rs IH]; intros d old Hall Hold; cbn [fold_left].
  - exact Hold.
  - apply Forall_cons_1 in Hall as [<- Hall].
    apply IH; [exact Hall|]. now apply log_report_existing.
Qed.

Lemma log_reports_fresh tool_id r rs d :
  Forall (fun r => rp_tool r = tool_id) (r :: rs) ->
  tool_weights d !! tool_id = None ->
  tool_weights (log_reports (r :: rs) d) !! tool_id
  = Some (fold_left next_row rs
            (mk_weight lit_1_0 1 (int_of_bool (rp_success r)) (rp_now r))).
Proof.
  intros Hall Hnone. apply Forall_cons_1 in Hall as [<- Hall].
  change (log_reports (r :: rs) d) with (log_reports rs (log_report d r)).
  apply log_reports_existing; [exact Hall|]. now apply log_report_fresh.
Qed.

(** An invariant of the stored weights that every report preserves is an
    invariant of every sequence of reports. *)
Lemma weights_invariant (P : R -> Prop) :
  P lit_1_0 ->
  (forall w, P w -> P (MIN (r_add w lit_0_1) lit_2_0)) ->
  (forall w, P w -> P (MAX (r_sub w lit_0_1) lit_0_1)) ->
  forall rs d,
    (forall tool_id row, tool_weights d !! tool_id = Some row -> P (weight row)) ->
    forall tool_id row,
      tool_weights (log_reports rs d) !! tool_id = Some row -> P (weight row).
Proof.
  intros Hone Hup Hdown. unfold log_reports.
  induction rs as [|r rs IH]; intros d Hd; cbn [fold_left]; [exact Hd|].
  apply IH. intros tid row.
  destruct (decide (rp_tool r = tid)) as [<-|Hne].
  - destruct (tool_weights d !! rp_tool r) as [old|] eqn:Hold.
    + rewrite (log_report_existing d r old Hold). intros [= <-].
      unfold next_row; cbn [weight]. specialize (Hd _ _ Hold).
      destruct (rp_success r); auto.
    + rewrite (log_report_fresh d r Hold). now intros [= <-].
  - unfold log_report. rewrite log_tool_use_weights.
    rewrite update_tool_weight_other by assumption. apply Hd.
Qed.

Lemma rank_row_tool_id d tool_id : r_tool_id (rank_row d tool_id) = tool_id.
Proof. unfold rank_row. now destruct (tool_weights d !! tool_id). Qed.

Lemma map_filter_rank_row (P : ranked -> bool) d tool_ids :
  map r_tool_id (List.filter P (map (rank_row d) tool_ids))
  = List.filter (fun tool_id => P (rank_row d tool_id)) tool_ids.
Proof.
  induction tool_ids as [|t ts IH]; [reflexivity|].
  cbn [map List.filter]. destruct (P (rank_row d t)); cbn [map]; rewrite IH.
  - now rewrite rank_row_tool_id.
  - reflexivity.
Qed.

(** Only [weight], [total_uses] and [successes] of a row reach the ranking. *)
Definition ranking_view (d : db) (tool_id : string) : option (R * Z * Z) :=
  match tool_weights d !! tool_id with
  | Some row => Some (weight row, total_uses row, successes row)
  | None => None
  end.

Lemma rank_row_view d d' tool_id :
  ranking_view d tool_id = ranking_view d' tool_id ->
  rank_row d tool_id = rank_row d' tool_id.
Proof.
  unfold ranking_view, rank_row.
  destruct (tool_weights d !! tool_id) as [r|], (tool_weights d' !! tool_id) as [r'|];
    try discriminate; [|reflexivity].
  destruct r, r'; cbn. now intros [= -> -> ->].
Qed.

End Tables.

Arguments weight_row R : clear implicits.
Arguments db R : clear implicits.
Arguments ranked R : clear implicits.

(** Reports used as examples: two tools, and three successes followed by a
    failure for the tool ["T1"]. *)
Definition sample_reports : list report :=
  [ mk_report "s1" "T1" "export docx" true "" "2025-01-01T10:00:00";
    mk_report "s1" "T2" "deep dive" false "timeout" "2025-01-01T10:01:00";
    mk_report "s1" "T2" "deep dive" false "timeout" "2025-01-01T10:02:00";
    mk_report "s1" "T1" "export docx" true "" "2025-01-01T10:03:00" ].

Definition t1_reports : list report :=
  [ mk_report "s1" "T1" "please export this as docx" true "" "2025-01-01T10:00:00";
    mk_report "s1" "T1" "please export this as docx" true "" "2025-01-01T10:01:00";
    mk_report "s1" "T1" "please export this as docx" true "" "2025-01-01T10:02:00";
    mk_report "s1" "T1" "please export this as docx" false "" "2025-01-01T10:03:00" ].

(** *** Exact arithmetic *)

Definition in_range (q : Q) : Prop := (0.1 <= q)%Q /\ (q <= 2.0)%Q.

(** Every stored weight lies in [0.1, 2.0]. *)
Definition weights_bounded (d : db Q) : Prop :=
  forall tool_id row, tool_weights d !! tool_id = Some row -> in_range (weight row).

Lemma MIN_spec (x y : Q) :
  (MIN x y <= y)%Q /\ (MIN x y <= x)%Q /\ ((MIN x y == x)%Q \/ (MIN x y == y)%Q).
Proof.
  unfold MIN; cbn [r_leb exact]. destruct (Qle_bool x y) eqn:E.
  - apply Qle_bool_iff in E. repeat split; lra.
  - assert (~ (x <= y)%Q) by (rewrite <- Qle_bool_iff; congruence).
    repeat split; lra.
Qed.

Lemma MAX_spec (x y : Q) :
  (y <= MAX x y)%Q /\ (x <= MAX x y)%Q /\ ((MAX x y == x)%Q \/ (MAX x y == y)%Q).
Proof.
  unfold MAX; cbn [r_leb exact]. destruct (Qle_bool x y) eqn:E.
  - apply Qle_bool_iff in E. repeat split; lra.
  - assert (~ (x <= y)%Q) by (rewrite <- Qle_bool_iff; congruence).
    repeat split; lra.
Qed.

Lemma success_keeps_range (w : Q) : in_range w -> in_range (MIN (w + 0.1)%Q 2.0%Q).
Proof.
  unfold in_range. intros [Hlo Hhi].
  pose proof (MIN_spec (w + 0.1) 2.0) as (? & ? & [E|E]); lra.
Qed.

Lemma failure_keeps_range (w : Q) : in_range w -> in_range (MAX (w - 0.1)%Q 0.1%Q).
Proof.
  unfold in_range. intros [Hlo Hhi].
  pose proof (MAX_spec (w - 0.1) 0.1) as (? & ? & [E|E]); lra.
Qed.

(** ** C2.  Whatever reports arrive, for whatever tools and in whatever
    order, every weight stored afterwards lies in the closed interval
    [0.1, 2.0], provided the table was within bounds before (the empty
    table is). *)
Theorem weight_bounded_after_reports (rs : list report) (d : db Q) :
  weights_bounded d -> weights_bounded (log_reports rs d).
Proof.
  intros Hd.
  refine (weights_invariant in_range _ success_keeps_range failure_keeps_range
            rs d Hd).
  unfold in_range; cbn. lra.
Qed.

Lemma empty_db_bounded : weights_bounded empty_db.
Proof. intros tid row Hrow. cbn in Hrow. now rewrite lookup_empty in Hrow. Qed.

Lemma weight_bounded_after_reports_witness :
  weights_bounded (log_reports sample_reports empty_db).
Proof.
  apply (weight_bounded_after_reports sample_reports empty_db).
  exact empty_db_bounded.
Defined.

(** ** C10.  The report that creates a row stores weight 1.0, one use and
    the success flag as the success count; no +0.1 / -0.1 is applied to it. *)
Theorem first_report_creates_neutral_row
  (session_id tool_id need notes now : string) (success : bool) (d : db Q) :
  tool_weights d !! tool_id = None ->
  tool_weights (update_tool_weight tool_id success now d) !! tool_id
    = Some (mk_weight 1.0%Q 1 (if success then 1 else 0) now)
  /\ tool_weights (log_tool_use session_id tool_id need success notes now d) !! tool_id
    = Some (mk_weight 1.0%Q 1 (if success then 1 else 0) now).
Proof.
  intros Hnone. rewrite log_tool_use_weights.
  now rewrite (update_tool_weight_fresh tool_id success now d Hnone).
Qed.

Lemma first_report_creates_neutral_row_witness :
  tool_weights (update_tool_weight "T1" false "t0" (empty_db (R := Q))) !! "T1"
    = Some (mk_weight 1.0%Q 1 0 "t0")
  /\ tool_weights (log_tool_use "s1" "T1" "export" false "" "t0" (empty_db (R := Q)))
       !! "T1"
    = Some (mk_weight 1.0%Q 1 0 "t0").
Proof.
  apply (first_report_creates_neutral_row "s1" "T1" "export" "" "t0" false empty_db).
  reflexivity.
Defined.

(** ** C1, as stated, fails: the stored weight is not 1.2. *)
Lemma three_successes_one_failure_not_1_2 :
  ~ (exists row : weight_row Q,
        tool_weights (log_reports t1_reports empty_db) !! "T1" = Some row
        /\ (weight row == 1.2)%Q
        /\ (r_success_rate (rank_row (log_reports t1_reports empty_db) "T1") == 0.75)%Q).
Proof.
  intros (row & Hrow & Hw & _).
  unfold t1_reports in Hrow.
  rewrite (log_reports_fresh "T1") in Hrow; [|repeat constructor|reflexivity].
  injection Hrow as <-.
  vm_compute in Hw. discriminate Hw.
Qed.

(** ** C1, amended.  For a tool without a weight row, three successes
    followed by one failure leave weight 1.0 + 0.1 + 0.1 - 0.1 = 1.1 (the
    creating report adjusts nothing), four uses, three successes, hence a
    success rate of 0.75. *)
Theorem three_successes_one_failure (r1 r2 r3 r4 : report) (tool_id : string)
  (d : db Q) :
  tool_weights d !! tool_id = None ->
  Forall (fun r => rp_tool r = tool_id) [r1; r2; r3; r4] ->
  map rp_success [r1; r2; r3; r4] = [true; true; true; false] ->
  let d' := log_reports [r1; r2; r3; r4] d in
  exists row,
    tool_weights d' !! tool_id = Some row
    /\ (weight row == 1.1)%Q
    /\ total_uses row = 4
    /\ successes row = 3
    /\ (r_weight (rank_row d' tool_id) == 1.1)%Q
    /\ (r_success_rate (rank_row d' tool_id) == 0.75)%Q.
Proof.
  intros Hnone Htool Hflags d'.
  cbn [map] in Hflags. injection Hflags as F1 F2 F3 F4.
  pose proof (log_reports_fresh tool_id r1 [r2; r3; r4] d Htool Hnone) as Hrow.
  fold d' in Hrow. cbn [fold_left] in Hrow. unfold next_row in Hrow.
  cbn [weight total_uses successes] in Hrow.
  rewrite F1, F2, F3, F4 in Hrow.
  eexists. split; [exact Hrow|].
  unfold rank_row. rewrite Hrow.
  cbn [weight total_uses successes r_weight r_success_rate].
  repeat split; reflexivity.
Qed.

Lemma three_successes_one_failure_witness :
  exists row : weight_row Q,
    tool_weights (log_reports t1_reports empty_db) !! "T1" = Some row
    /\ (weight row == 1.1)%Q
    /\ total_uses row = 4
    /\ successes row = 3
    /\ (r_weight (rank_row (log_reports t1_reports empty_db) "T1") == 1.1)%Q
    /\ (r_success_rate (rank_row (log_reports t1_reports empty_db) "T1") == 0.75)%Q.
Proof.
  apply (three_successes_one_failure
           (mk_report "s1" "T1" "please export this as docx" true "" "2025-01-01T10:00:00")
           (mk_report "s1" "T1" "please export this as docx" true "" "2025-01-01T10:01:00")
           (mk_report "s1" "T1" "please export this as docx" true "" "2025-01-01T10:02:00")
           (mk_report "s1" "T1" "please export this as docx" false "" "2025-01-01T10:03:00")
           "T1" empty_db).
  - reflexivity.
  - repeat constructor.
  - reflexivity.
Defined.

(** *** Binary64 arithmetic

    The same functions on IEEE doubles.  Starting from 1.0, the two
    adjustments reach finitely many doubles; the set is computed below and
    is closed under both. *)

Definition success64 (w : float) : float := MIN (r_add w lit_0_1) lit_2_0.
Definition failure64 (w : float) : float := MAX (r_sub w lit_0_1) lit_0_1.

Definition mem64 (x : float) (l : list float) : bool :=
  existsb (PrimFloat.eqb x) l.

(** Worklist closure of [seen] under the two adjustments. *)
Fixpoint close64 (fuel : nat) (todo seen : list float) : list float :=
  match fuel, todo with
  | O, _ => seen
  | _, [] => seen
  | S fuel', w :: rest =>
      let a := success64 w in
      let todo1 := if mem64 a seen then rest else a :: rest in
      let seen1 := if mem64 a seen then seen else a :: seen in
      let b := failure64 w in
      let todo2 := if mem64 b seen1 then todo1 else b :: todo1 in
      let seen2 := if mem64 b seen1 then seen1 else b :: seen1 in
      close64 fuel' todo2 seen2
  end.

Definition reachable_weights : list float :=
  Eval vm_compute in close64 1000 [lit_1_0] [lit_1_0].

Ltac find_in_list := solve [repeat (first [left; reflexivity | right])].

Lemma reachable_closed (w : float) :
  In w reachable_weights ->
  In (success64 w) reachable_weights /\ In (failure64 w) reachable_weights
  /\ PrimFloat.leb lit_0_1 w = true /\ PrimFloat.leb w lit_2_0 = true.
Proof.
  unfold reachable_weights. cbn [In]. intros Hw.
  repeat (destruct Hw as [<-|Hw];
          [split; [vm_compute; find_in_list|];
           split; [vm_compute; find_in_list|];
           split; vm_compute; reflexivity|]).
  contradiction.
Qed.

Lemma reachable_one : In lit_1_0 reachable_weights.
Proof. vm_compute. find_in_list. Qed.

(** ** X7.  In binary64 too, every weight stored after any sequence of
    reports on an empty table lies in [0.1, 2.0]. *)
Lemma weight_bounded_after_reports_binary64 (rs : list report)
  (tool_id : string) (row : weight_row float) :
  tool_weights (log_reports rs empty_db) !! tool_id = Some row ->
  PrimFloat.leb lit_0_1 (weight row) = true
  /\ PrimFloat.leb (weight row) lit_2_0 = true.
Proof.
  intros Hrow.
  apply reachable_closed.
  refine (weights_invariant (fun w => In w reachable_weights) reachable_one _ _
            rs empty_db _ tool_id row Hrow).
  - intros w Hw. now apply (reachable_closed w).
  - intros w Hw. now apply (reachable_closed w).
  - intros tid r Hr. cbn in Hr. now rewrite lookup_empty in Hr.
Qed.

(** In binary64 the three successes and the failure end on the double
    nearest to 1.1 ([0x1.199999999999ap+0]), which is not the double nearest
    to 1.2 ([0x1.3333333333333p+0]); the success rate is the double 0.75. *)
Lemma three_successes_one_failure_binary64 :
  tool_weights (log_reports t1_reports (empty_db (R := float))) !! "T1"
  = Some (mk_weight 0x1.199999999999ap+0%float 4 3 "2025-01-01T10:03:00")
  /\ PrimFloat.eqb 0x1.199999999999ap+0%float 0x1.3333333333333p+0%float = false
  /\ r_success_rate (rank_row (log_reports t1_reports (empty_db (R := float))) "T1")
     = 0.75%float.
Proof.
  assert (Hrow : tool_weights (log_reports t1_reports (empty_db (R := float))) !! "T1"
                 = Some (mk_weight 0x1.199999999999ap+0%float 4 3 "2025-01-01T10:03:00")).
  { unfold t1_reports.
    rewrite (log_reports_fresh "T1"); [|repeat constructor|reflexivity].
    vm_compute. reflexivity. }
  split; [exact Hrow|]. split; [vm_compute; reflexivity|].
  unfold rank_row. rewrite Hrow. vm_compute. reflexivity.
Qed.

(** *** Ranking, on the doubles the code sorts

    [list.sort] compares the keys with [<] alone.  On doubles that is a
    strict weak order when no key is NaN, which is when a sort has a
    meaning; the keys are the products the code computes. *)

(** The weights a table reached by reports can hold. *)
Lemma reachable_after_reports (rs : list report) (tool_id : string)
  (row : weight_row float) :
  tool_weights (log_reports rs empty_db) !! tool_id = Some row ->
  In (weight row) reachable_weights.
Proof.
  intros Hrow.
  refine (weights_invariant (fun w => In w reachable_weights) reachable_one _ _
            rs empty_db _ tool_id row Hrow).
  - intros w Hw. now apply (reachable_closed w).
  - intros w Hw. now apply (reachable_closed w).
  - intros tid r Hr. cbn in Hr. now rewrite lookup_empty in Hr.
Qed.

(** No score of the ids asked for is NaN. *)
Definition numbers_only (tool_ids : list string) (d : db float) : Prop :=
  forall tool_id,
    tool_id ∈ tool_ids -> is_nan (compound_score (rank_row d tool_id)) = false.

Lemma numbers_only_keys tool_ids d :
  numbers_only tool_ids d ->
  Forall (fun x => Binary64.number (compound_score x)) (map (rank_row d) tool_ids).
Proof.
  intros Hn. apply Forall_forall. intros x Hx.
  apply list_elem_of_In, in_map_iff in Hx as (t & <- & Ht).
  apply Hn. now apply list_elem_of_In.
Qed.

Lemma equiv_key_ltb_flip (x q : float) :
  Binary64.number x -> Binary64.number q ->
  PySort.equiv_key (fun a b => PrimFloat.ltb b a) x q = PrimFloat.eqb x q.
Proof.
  intros Hx Hq. unfold PySort.equiv_key. rewrite andb_comm.
  now apply Binary64.unordered_eqb.
Qed.

Lemma filter_false {A : Type} (f : A -> bool) (l : list A) :
  (forall x, f x = false) -> List.filter f l = [].
Proof.
  intros Hf. induction l as [|x l IH]; [reflexivity|]. cbn. now rewrite Hf.
Qed.

Lemma filter_ext_Forall {A : Type} (P : A -> Prop) (f g : A -> bool) (l : list A) :
  Forall P l -> (forall x, P x -> f x = g x) -> List.filter f l = List.filter g l.
Proof.
  intros Hl Hfg. induction Hl as [|x l Hx _ IH]; [reflexivity|].
  cbn [List.filter]. now rewrite (Hfg x Hx), IH.
Qed.

(** ** C6.  On the doubles the code computes, and for ids none of whose
    scores is NaN: the ranking scores every id by weight times success rate,
    with weight 1.0 and success rate 0.5 for ids without a row (and success
    rate 0.5 for rows without uses), returns the ids in descending order of
    that score, keeps the input order among ids of equal score, and depends
    on the table only through the stored weights and counters. *)
Theorem ranking_descending_stable (tool_ids : list string) (d : db float) :
  numbers_only tool_ids d ->
  let score := fun x : ranked float => PrimFloat.mul (r_weight x) (r_success_rate x) in
  let out := get_weighted_tool_ranking tool_ids d in
  Permutation (map r_tool_id out) tool_ids
  /\ Forall (fun x =>
       match tool_weights d !! r_tool_id x with
       | None => r_weight x = 1%float /\ r_success_rate x = 0.5%float
       | Some row =>
           r_weight x = weight row
           /\ (0 < total_uses row ->
               r_success_rate x
               = PrimFloat.div (PrimFloat.of_uint63 (Uint63.of_Z (successes row)))
                               (PrimFloat.of_uint63 (Uint63.of_Z (total_uses row))))
           /\ (total_uses row <= 0 -> r_success_rate x = 0.5%float)
       end) out
  /\ StronglySorted (fun a b => PrimFloat.leb (score b) (score a) = true) out
  /\ (forall q : float,
        map r_tool_id (List.filter (fun x => PrimFloat.eqb (score x) q) out)
        = List.filter (fun tool_id => PrimFloat.eqb (score (rank_row d tool_id)) q)
                      tool_ids)
  /\ (forall d' : db float,
        (forall tool_id, tool_id ∈ tool_ids ->
                         ranking_view d' tool_id = ranking_view d tool_id) ->
        get_weighted_tool_ranking tool_ids d' = out).
Proof.
  intros Hnum score out.
  pose proof (numbers_only_keys tool_ids d Hnum) as Hkeys.
  assert (Hperm : Permutation out (map (rank_row d) tool_ids))
    by apply PySort.sorted_perm.
  assert (Hout : Forall (fun x => Binary64.number (compound_score x)) out).
  { apply Forall_forall. intros x Hx. rewrite Hperm in Hx.
    rewrite Forall_forall in Hkeys. now apply Hkeys. }
  split; [|split; [|split; [|split]]].
  - rewrite Hperm, map_map.
    erewrite map_ext; [now rewrite map_id|]. apply rank_row_tool_id.
  - apply Forall_forall. intros x Hx. rewrite Hperm in Hx.
    apply list_elem_of_In, in_map_iff in Hx as (t & <- & _).
    rewrite rank_row_tool_id. unfold rank_row.
    destruct (tool_weights d !! t) as [row|]; cbn; [|now split].
    split; [reflexivity|]. split; intros Hu.
    + apply Z.ltb_lt in Hu. now rewrite Hu.
    + apply Z.ltb_ge in Hu. now rewrite Hu.
  - pose proof (PySort.sorted_ascending_on Binary64.number
                  (fun a b => PrimFloat.ltb b a) compound_score
                  (PySort.strict_weak_on_flip _ _ Binary64.strict_weak_on_ltb)
                  (map (rank_row d) tool_ids) Hkeys) as Hs.
    fold (PySort.sorted_reverse PrimFloat.ltb compound_score (map (rank_row d) tool_ids))
      in Hs.
    change (PySort.sorted_reverse PrimFloat.ltb compound_score (map (rank_row d) tool_ids))
      with out in Hs.
    unfold PySort.ascending in Hs. clear Hperm.
    induction Hs as [|a l Hl IH Ha]; constructor.
    + apply IH. now apply Forall_cons_1 in Hout as [_ Hout].
    + apply Forall_cons_1 in Hout as [Pa Pl].
      rewrite Forall_forall in Ha, Pl |- *. intros b Hb.
      apply Binary64.ltb_false_leb; [exact Pa|now apply Pl|now apply Ha].
  - intros q. destruct (is_nan q) eqn:Hq.
    + rewrite !filter_false; [reflexivity| |];
        intros x; now apply Binary64.eqb_nan_r.
    + rewrite (filter_ext_Forall (fun x => Binary64.number (compound_score x))
                 (fun x => PrimFloat.eqb (score x) q)
                 (fun x => PySort.equiv_key (fun a b => PrimFloat.ltb b a)
                                            (compound_score x) q) out Hout)
        by (intros x Hx; symmetry; now apply equiv_key_ltb_flip).
      subst out. unfold get_weighted_tool_ranking, PySort.sorted_reverse.
      cbn [r_ltb binary64].
      rewrite (PySort.sorted_stable_on Binary64.number _ compound_score
                 (PySort.strict_weak_on_flip _ _ Binary64.strict_weak_on_ltb)
                 q _ Hq Hkeys).
      rewrite map_filter_rank_row.
      apply (filter_ext_Forall (fun t => t ∈ tool_ids)).
      * apply Forall_forall. auto.
      * intros t Ht. apply equiv_key_ltb_flip; [now apply Hnum|exact Hq].
  - intros d' Hsame. subst out. unfold get_weighted_tool_ranking.
    f_equal. apply map_ext_in. intros t Ht.
    apply rank_row_view, Hsame. now apply list_elem_of_In.
Qed.

(** Three successes for ["A"], then eight successes and two failures for
    ["B"].  In exact arithmetic both scores would be 1.2; the doubles are
    [0x1.3333333333334p+0] for ["A"] and [0x1.3333333333335p+0] for ["B"]. *)
Definition ab_reports : list report :=
  map (fun i => mk_report "s" "A" "n" true "" "t") (seq 0 3)
  ++ map (fun i => mk_report "s" "B" "n" true "" "t") (seq 0 8)
  ++ map (fun i => mk_report "s" "B" "n" false "" "t") (seq 0 2).

Definition ab_table : db float := log_reports ab_reports empty_db.

Example ranking_follows_the_doubles :
  map r_tool_id (get_weighted_tool_ranking ["A"; "B"] ab_table) = ["B"; "A"]
  /\ map compound_score (get_weighted_tool_ranking ["A"; "B"] ab_table)
     = [0x1.3333333333335p+0; 0x1.3333333333334p+0]%float.
Proof. vm_compute. split; reflexivity. Qed.

Lemma ab_numbers_only : numbers_only ["A"; "B"; "new_tool"] ab_table.
Proof.
  intros t Ht.
  repeat (apply elem_of_cons in Ht as [->|Ht]; [vm_compute; reflexivity|]).
  now apply elem_of_nil in Ht.
Qed.

Lemma ranking_descending_stable_witness :
  let out := get_weighted_tool_ranking ["A"; "B"; "new_tool"] ab_table in
  Permutation (map r_tool_id out) ["A"; "B"; "new_tool"]
  /\ StronglySorted
       (fun a b => PrimFloat.leb (PrimFloat.mul (r_weight b) (r_success_rate b))
                                 (PrimFloat.mul (r_weight a) (r_success_rate a)) = true)
       out.
Proof.
  destruct (ranking_descending_stable ["A"; "B"; "new_tool"] ab_table ab_numbers_only)
    as (Hperm & _ & Hsorted & _).
  split; [exact Hperm|exact Hsorted].
Defined.

(** *** The usage log and the counters derived from it *)

Section Log.
Context {R : Type} `{Real R}.

(** The row [log_tool_use] inserts into [tool_usage] for a report. *)
Definition usage_of_report (r : report) : usage_row :=
  mk_usage (rp_session r) (rp_tool r) (rp_need r) (int_of_bool (rp_success r))
           (rp_notes r) (rp_now r).

(** [SELECT COUNT( * ), SUM(success) FROM tool_usage WHERE tool_id = ?] *)
Definition rows_of_tool (tool_id : string) (log : list usage_row) : list usage_row :=
  List.filter (fun u => String.eqb (usage_tool_id u) tool_id) log.

Definition uses_in_log (tool_id : string) (log : list usage_row) : Z :=
  Z.of_nat (length (rows_of_tool tool_id log)).

Definition successes_in_log (tool_id : string) (log : list usage_row) : Z :=
  fold_right Z.add 0 (map usage_success (rows_of_tool tool_id log)).

Definition rows_of_session (session_id : string) (log : list usage_row)
  : list usage_row :=
  List.filter (fun u => String.eqb (usage_session_id u) session_id) log.

(** The weight table carries, per tool, the counts of the log. *)
Definition aggregates_match (d : db R) : Prop :=
  forall tool_id,
    match tool_weights d !! tool_id with
    | Some row =>
        total_uses row = uses_in_log tool_id (tool_usage d)
        /\ successes row = successes_in_log tool_id (tool_usage d)
        /\ 0 < total_uses row
    | None => rows_of_tool tool_id (tool_usage d) = []
    end.

Lemma log_report_usage (d : db R) r :
  tool_usage (log_report d r) = tool_usage d ++ [usage_of_report r].
Proof. reflexivity. Qed.

Lemma rows_of_tool_snoc tool_id log u :
  rows_of_tool tool_id (log ++ [u])
  = rows_of_tool tool_id log
    ++ (if String.eqb (usage_tool_id u) tool_id then [u] else []).
Proof.
  unfold rows_of_tool. rewrite List.filter_app. cbn [List.filter].
  now destruct (String.eqb (usage_tool_id u) tool_id).
Qed.

Lemma fold_add_app (l k : list Z) :
  fold_right Z.add 0 (l ++ k) = fold_right Z.add 0 l + fold_right Z.add 0 k.
Proof. induction l as [|x l IH]; cbn [app fold_right]; lia. Qed.

Lemma log_report_aggregates (d : db R) r :
  aggregates_match d -> aggregates_match (log_report d r).
Proof.
  intros Hd tool. specialize (Hd tool).
  rewrite log_report_usage. unfold uses_in_log, successes_in_log.
  rewrite rows_of_tool_snoc. cbn [usage_of_report usage_tool_id].
  destruct (String.eqb_spec (rp_tool r) tool) as [<-|Hne].
  - destruct (tool_weights d !! rp_tool r) as [old|] eqn:Hold.
    + rewrite (log_report_existing d r old Hold).
      destruct Hd as (Hu & Hs & Hpos). unfold next_row; cbn [total_uses successes].
      rewrite length_app, map_app, fold_add_app.
      cbn [length map fold_right usage_of_report usage_success].
      unfold uses_in_log, successes_in_log in Hu, Hs. lia.
    + rewrite (log_report_fresh d r Hold). cbn [total_uses successes].
      rewrite Hd. cbn. lia.
  - unfold log_report. rewrite log_tool_use_weights.
    rewrite update_tool_weight_other by assumption. rewrite app_nil_r.
    destruct (tool_weights d !! tool); [exact Hd|]. exact Hd.
Qed.

(** ** X1.  Every report appends exactly one row to the usage log, in order,
    and the counters of the weight table are the counts of the log: per tool,
    [total_uses] is the number of its rows and [successes] the number of its
    successful rows; a tool has a weight row exactly when it has a log row. *)
Theorem usage_log_replays (rs : list report) (d : db R) :
  aggregates_match d ->
  tool_usage (log_reports rs d) = tool_usage d ++ map usage_of_report rs
  /\ aggregates_match (log_reports rs d).
Proof.
  unfold log_reports. revert d.
  induction rs as [|r rs IH]; intros d Hd; cbn [fold_left map].
  - now rewrite app_nil_r.
  - destruct (IH (log_report d r) (log_report_aggregates d r Hd)) as [Hlog Hagg].
    split; [|exact Hagg].
    rewrite Hlog, log_report_usage, <- app_assoc. reflexivity.
Qed.

(** ** X6.  The row of a tool after a sequence of reports depends only on
    the reports for that tool: reports for other tools can be dropped
    without changing it. *)
Theorem reports_for_other_tools_do_not_matter (rs : list report) (d : db R)
  (tool_id : string) :
  tool_weights (log_reports rs d) !! tool_id
  = tool_weights
      (log_reports (List.filter (fun r => String.eqb (rp_tool r) tool_id) rs) d)
    !! tool_id.
Proof.
  assert (Hgen : forall rs (d1 d2 : db R),
             tool_weights d1 !! tool_id = tool_weights d2 !! tool_id ->
             tool_weights (log_reports rs d1) !! tool_id
             = tool_weights
                 (log_reports (List.filter (fun r => String.eqb (rp_tool r) tool_id) rs) d2)
               !! tool_id).
  { clear rs d. unfold log_reports.
    induction rs as [|r rs IH]; intros d1 d2 Hsame; cbn [fold_left List.filter];
      [exact Hsame|].
    destruct (String.eqb_spec (rp_tool r) tool_id) as [<-|Hne]; cbn [fold_left].
    - apply IH.
      destruct (tool_weights d1 !! rp_tool r) as [old|] eqn:H1.
      + rewrite (log_report_existing d1 r old H1).
        symmetry in Hsame. now rewrite (log_report_existing d2 r old Hsame).
      + rewrite (log_report_fresh d1 r H1).
        symmetry in Hsame. now rewrite (log_report_fresh d2 r Hsame).
    - apply IH. unfold log_report at 1. rewrite log_tool_use_weights.
      now rewrite update_tool_weight_other. }
  now apply Hgen.
Qed.

(** *** Sessions *)

(** What the process does to the database: it starts sessions and logs
    reports.  A [start_session] that raises leaves the database as it was. *)
Inductive action :=
| StartSession (session_id now : string)
| LogUse (r : report).

Definition run_action (d : db R) (a : action) : db R :=
  match a with
  | StartSession session_id now =>
      match start_session session_id now d with
      | Some (_, d') => d'
      | None => d
      end
  | LogUse r => log_report d r
  end.

(** In every session the calls split into successes and failures, and are
    not more than the rows logged under its id. *)
Definition sessions_consistent (d : db R) : Prop :=
  forall session_id s,
    sessions d !! session_id = Some s ->
    tool_calls s = session_successes s + failures s
    /\ 0 <= session_successes s /\ 0 <= failures s
    /\ tool_calls s <= Z.of_nat (length (rows_of_session session_id (tool_usage d))).

Lemma rows_of_session_snoc session_id log u :
  rows_of_session session_id (log ++ [u])
  = rows_of_session session_id log
    ++ (if String.eqb (usage_session_id u) session_id then [u] else []).
Proof.
  unfold rows_of_session. rewrite List.filter_app. cbn [List.filter].
  now destruct (String.eqb (usage_session_id u) session_id).
Qed.

Lemma log_report_sessions (d : db R) r :
  sessions (log_report d r)
  = alter (fun s =>
             if rp_success r
             then mk_session (started_at s) (ended_at s) (tool_calls s + 1)
                             (session_successes s + 1) (failures s)
             else mk_session (started_at s) (ended_at s) (tool_calls s + 1)
                             (session_successes s) (failures s + 1))
          (rp_session r) (sessions d).
Proof. reflexivity. Qed.

Lemma run_action_consistent (d : db R) a :
  sessions_consistent d -> sessions_consistent (run_action d a).
Proof.
  intros Hd. destruct a as [sid now|r]; cbn [run_action].
  - unfold start_session. destruct (sessions d !! sid) eqn:Hs; [exact Hd|].
    intros id s. cbn [sessions tool_usage].
    destruct (decide (sid = id)) as [<-|Hne].
    + rewrite lookup_insert_eq. intros [= <-]. cbn. lia.
    + rewrite lookup_insert_ne by assumption. apply Hd.
  - intros id s. rewrite log_report_sessions, log_report_usage, rows_of_session_snoc.
    cbn [usage_of_report usage_session_id]. rewrite length_app.
    destruct (String.eqb_spec (rp_session r) id) as [<-|Hne].
    + rewrite lookup_alter_eq.
      destruct (sessions d !! rp_session r) as [old|] eqn:Hold; [|discriminate].
      cbn [fmap option_fmap option_map]. intros [= <-].
      destruct (Hd _ _ Hold) as (H1 & H2 & H3 & H4).
      destruct (rp_success r); cbn [tool_calls session_successes failures length]; lia.
    + rewrite lookup_alter_ne by assumption. intros Hs.
      destruct (Hd _ _ Hs) as (H1 & H2 & H3 & H4). cbn [length]. lia.
Qed.

(** ** X2.  After any history of [start_session] and [log_tool_use] calls on
    an empty database, every session's [tool_calls] is the sum of its
    [successes] and [failures], and is at most the number of usage rows
    logged under its id; a report for a session id that was never started
    changes no session row, though its usage row is logged. *)
Theorem session_counters_consistent (actions : list action) :
  sessions_consistent (fold_left run_action actions empty_db)
  /\ forall (d : db R) r,
       sessions d !! rp_session r = None ->
       sessions (log_report d r) = sessions d
       /\ tool_usage (log_report d r) = tool_usage d ++ [usage_of_report r].
Proof.
  split.
  - assert (Hgen : forall d : db R, sessions_consistent d ->
                             sessions_consistent (fold_left run_action actions d)).
    { induction actions as [|a actions IH]; intros d Hd; cbn [fold_left]; [exact Hd|].
      apply IH. now apply run_action_consistent. }
    apply Hgen. intros id s Hs. cbn in Hs. now rewrite lookup_empty in Hs.
  - intros d r Hnone. split; [|reflexivity].
    rewrite log_report_sessions. apply map_eq. intros id.
    destruct (decide (rp_session r = id)) as [<-|Hne].
    + rewrite lookup_alter_eq, Hnone. reflexivity.
    + now rewrite lookup_alter_ne.
Qed.

End Log.

Lemma empty_db_aggregates {R : Type} `{Real R} : aggregates_match (empty_db (R := R)).
Proof. intros tool. cbn. now rewrite lookup_empty. Qed.

Lemma usage_log_replays_witness :
  tool_usage (log_reports t1_reports (empty_db (R := Q)))
  = [] ++ map usage_of_report t1_reports
  /\ aggregates_match (log_reports t1_reports (empty_db (R := Q))).
Proof.
  apply (usage_log_replays t1_reports empty_db). exact empty_db_aggregates.
Defined.

(** *** Counters *)

Section Counters.
Context {R : Type} `{Real R}.

Definition counters_ok (row : weight_row R) : Prop :=
  1 <= total_uses row /\ 0 <= successes row /\ successes row <= total_uses row.

Lemma counters_after_reports (rs : list report) : forall d : db R,
  (forall tool_id row, tool_weights d !! tool_id = Some row -> counters_ok row) ->
  forall tool_id row,
    tool_weights (log_reports rs d) !! tool_id = Some row -> counters_ok row.
Proof.
  unfold log_reports.
  induction rs as [|r rs IH]; intros d Hd; cbn [fold_left]; [exact Hd|].
  apply IH. intros tid row.
  destruct (decide (rp_tool r = tid)) as [<-|Hne].
  - destruct (tool_weights d !! rp_tool r) as [old|] eqn:Hold.
    + rewrite (log_report_existing d r old Hold). intros [= <-].
      destruct (Hd _ _ Hold) as (H1 & H2 & H3).
      unfold counters_ok, next_row; cbn [total_uses successes].
      destruct (rp_success r); cbn [int_of_bool]; lia.
    + rewrite (log_report_fresh d r Hold). intros [= <-].
      unfold counters_ok; cbn [total_uses successes].
      destruct (rp_success r); cbn [int_of_bool]; lia.
  - unfold log_report. rewrite log_tool_use_weights.
    rewrite update_tool_weight_other by assumption. apply Hd.
Qed.

(** ** X3.  After any sequence of reports on an empty database, in either
    arithmetic, a tool that has a row has at least one use and between 0 and
    [total_uses] successes, so the ranking gives it the quotient
    [successes / total_uses] (never a division by zero) with its stored
    weight; the neutral entry (weight 1.0, rate 0.5, no uses) is given to
    the ids without a row and to no other. *)
Theorem ranked_rate_is_the_quotient (rs : list report) (tool_id : string) :
  let d := log_reports rs (empty_db (R := R)) in
  match tool_weights d !! tool_id with
  | Some row =>
      1 <= total_uses row /\ 0 <= successes row /\ successes row <= total_uses row
      /\ rank_row d tool_id
         = mk_ranked tool_id (weight row) (total_uses row)
                     (r_div_int (successes row) (total_uses row))
  | None => rank_row d tool_id = mk_ranked tool_id lit_1_0 0 lit_0_5
  end.
Proof.
  intros d. unfold rank_row.
  destruct (tool_weights d !! tool_id) as [row|] eqn:Hrow; [|reflexivity].
  assert (Hc : counters_ok row).
  { apply (counters_after_reports rs empty_db) with (tool_id := tool_id);
      [|exact Hrow].
    intros t r Hr. cbn in Hr. now rewrite lookup_empty in Hr. }
  destruct Hc as (H1 & H2 & H3). do 3 (split; [assumption|]).
  assert (Hpos : (0 <? total_uses row) = true) by (apply Z.ltb_lt; lia).
  now rewrite Hpos.
Qed.

End Counters.

(** *** Steps of the weight, on doubles *)

Lemma reachable_steps (w : float) :
  In w reachable_weights ->
  PrimFloat.leb w (success64 w) = true
  /\ PrimFloat.leb (failure64 w) w = true
  /\ (PrimFloat.ltb w lit_2_0 = true -> PrimFloat.ltb w (success64 w) = true)
  /\ (PrimFloat.ltb lit_0_1 w = true -> PrimFloat.ltb (failure64 w) w = true).
Proof.
  unfold reachable_weights. cbn [In]. intros Hw.
  repeat (destruct Hw as [<-|Hw];
          [split; [vm_compute; reflexivity|];
           split; [vm_compute; reflexivity|];
           split; vm_compute; intros E; first [reflexivity | discriminate E]|]).
  contradiction.
Qed.

(** ** X4.  On doubles, in a table reached by reports, one more report moves
    the weight of an existing row in the direction of its outcome and never
    the other way: a success raises it, strictly unless it is already 2.0; a
    failure lowers it, strictly unless it is already 0.1; and the new weight
    is again within [0.1, 2.0]. *)
Theorem report_moves_weight_its_way (rs : list report) (tool_id now : string)
  (success : bool) (old : weight_row float) :
  let d := log_reports rs (empty_db (R := float)) in
  tool_weights d !! tool_id = Some old ->
  exists row,
    tool_weights (update_tool_weight tool_id success now d) !! tool_id = Some row
    /\ (if success
        then PrimFloat.leb (weight old) (weight row) = true
             /\ (PrimFloat.ltb (weight old) 2%float = true ->
                 PrimFloat.ltb (weight old) (weight row) = true)
        else PrimFloat.leb (weight row) (weight old) = true
             /\ (PrimFloat.ltb 0x1.999999999999ap-4%float (weight old) = true ->
                 PrimFloat.ltb (weight row) (weight old) = true))
    /\ PrimFloat.leb 0x1.999999999999ap-4%float (weight row) = true
    /\ PrimFloat.leb (weight row) 2%float = true.
Proof.
  intros d Hold.
  pose proof (reachable_after_reports rs tool_id old Hold) as Hin.
  rewrite (update_tool_weight_existing tool_id success now d old Hold).
  eexists. split; [reflexivity|]. cbn [weight].
  destruct (reachable_steps (weight old) Hin) as (Hup & Hdown & Hsup & Hsdown).
  destruct (reachable_closed (weight old) Hin) as (Hs & Hf & _ & _).
  destruct success.
  - split; [split; [exact Hup|exact Hsup]|].
    destruct (reachable_closed _ Hs) as (_ & _ & Hlo & Hhi). now split.
  - split; [split; [exact Hdown|exact Hsdown]|].
    destruct (reachable_closed _ Hf) as (_ & _ & Hlo & Hhi). now split.
Qed.

Lemma report_moves_weight_its_way_witness :
  exists row : weight_row float,
    tool_weights (update_tool_weight "T1" true "t4"
                    (log_reports t1_reports (empty_db (R := float)))) !! "T1" = Some row
    /\ (PrimFloat.leb 0x1.199999999999ap+0%float (weight row) = true
        /\ (PrimFloat.ltb 0x1.199999999999ap+0%float 2%float = true ->
            PrimFloat.ltb 0x1.199999999999ap+0%float (weight row) = true))
    /\ PrimFloat.leb 0x1.999999999999ap-4%float (weight row) = true
    /\ PrimFloat.leb (weight row) 2%float = true.
Proof.
  apply (report_moves_weight_its_way t1_reports "T1" "t4" true
           (mk_weight 0x1.199999999999ap+0%float 4 3 "2025-01-01T10:03:00")).
  apply three_successes_one_failure_binary64.
Defined.

Lemma weight_bounded_after_reports_binary64_witness :
  PrimFloat.leb lit_0_1 0x1.199999999999ap+0%float = true
  /\ PrimFloat.leb 0x1.199999999999ap+0%float lit_2_0 = true.
Proof.
  apply (weight_bounded_after_reports_binary64 t1_reports "T1"
           (mk_weight 0x1.199999999999ap+0%float 4 3 "2025-01-01T10:03:00")).
  apply three_successes_one_failure_binary64.
Defined.

End SessionState.

(* ====================================================================== *)
(** ** src/preflight.py: keyword matching and profile detection *)
(* ====================================================================== *)

Module Preflight.

(** *** Strings

    A text is a [string] of ASCII characters, on which [str.lower()] maps
    the letters [A]..[Z] to [a]..[z] and leaves every other character alone.
    [str.lower()] does more on other letters (and is then not compatible
    with concatenation), so the statements that speak of case or of longer
    texts are made for ASCII text ([ascii_text] below); a statement that
    only relates an answer to the counts holds whatever the folding is. *)

Definition lower_ascii (c : ascii) : ascii :=
  let n := nat_of_ascii c in
  if (65 <=? n)%nat && (n <=? 90)%nat then ascii_of_nat (n + 32) else c.

Fixpoint lower (s : string) : string :=
  match s with
  | EmptyString => EmptyString
  | String c s' => String (lower_ascii c) (lower s')
  end.

(** [needle in hay] on strings: [needle] occurs as a contiguous substring.
    The empty string occurs in every string. *)
Fixpoint contains (needle hay : string) : bool :=
  String.prefix needle hay
  || match hay with
     | EmptyString => false
     | String _ hay' => contains needle hay'
     end.

(** [sum(1 for t in words if t in text_lower)] *)
Definition count_in (words : list string) (text_lower : string) : Z :=
  Z.of_nat (length (List.filter (fun t => contains t text_lower) words)).

(** *** Mistral specialist profiles *)

Definition MISTRAL_PROFILE_TRIGGERS : list (string * list string) :=
  [ ("code",
     [ "code"; "coding"; "script"; "python"; "javascript"; "typescript";
       "function"; "refactor"; "implement"; "write a"; "create a";
       "goose"; "mcp"; "infrastructure"; "cli"; "api" ]);
    ("reasoning",
     [ "reason"; "reasoning"; "think"; "strategy"; "evaluate"; "analyze";
       "triage"; "complex"; "multi-step"; "pattern"; "decide"; "compare";
       "tradeoff"; "pros and cons"; "should i"; "which is better" ]);
    ("math",
     [ "math"; "calculate"; "numeric"; "metrics"; "finance"; "ops";
       "table"; "numbers"; "statistics"; "percentage"; "ratio";
       "compound"; "interest"; "roi"; "budget" ]);
    ("general",
     [ "summarize"; "summary"; "draft"; "explain"; "describe" ]) ].

(** The [scores] dictionary, in insertion order: the profiles with a
    positive score. *)
Definition profile_scores (triggers : list (string * list string))
  (text_lower : string) : list (string * Z) :=
  List.filter (fun ps => 0 <? snd ps)
    (map (fun pt => (fst pt, count_in (snd pt) text_lower)) triggers).

(** [<] on the tuples [(int, bool)] of the sort key, lexicographic, with
    [False < True]. *)
Definition key_ltb (a b : Z * bool) : bool :=
  (fst a <? fst b) || ((fst a =? fst b) && (negb (snd a) && snd b)).

(** [lambda x: (-x[1], x[0] != "general")] *)
Definition profile_key (x : string * Z) : Z * bool :=
  (- snd x, negb (String.eqb (fst x) "general")).

(** [detect_mistral_profile], over a table of triggers. *)
Definition detect_profile (triggers : list (string * list string))
  (text : string) : option string :=
  let text_lower := lower text in
  let scores := profile_scores triggers text_lower in
  match scores with
  | [] => None
  | _ =>
      match PySort.sorted key_ltb profile_key scores with
      | [] => None
      | first :: _ => Some (fst first)
      end
  end.

Definition detect_mistral_profile (text : string) : option string :=
  detect_profile MISTRAL_PROFILE_TRIGGERS text.

(** *** Capability map and need extraction *)

(** An entry of [CAPABILITY_MAP["capabilities"]]. *)
Record cap_info := mk_cap {
  keywords : list string;
  description : string;
  tool_id : string
}.

(** A dictionary appended to [needs]. *)
Record need := mk_need {
  need_capability : string;
  need_description : string;
  need_tool_id : string;
  need_score : Z
}.

(** [sum(1 for kw in cap_info["keywords"] if kw.lower() in text_lower)] *)
Definition keyword_score (info : cap_info) (text_lower : string) : Z :=
  Z.of_nat (length (List.filter (fun kw => contains (lower kw) text_lower)
                                (keywords info))).

(** The [for cap_id, cap_info in ...items()] loop: the capabilities with a
    positive score, in the insertion order of the registry. *)
Fixpoint scored_needs (capabilities : list (string * cap_info))
  (text_lower : string) : list need :=
  match capabilities with
  | [] => []
  | (cap_id, info) :: rest =>
      let score := keyword_score info text_lower in
      if 0 <? score
      then mk_need cap_id (description info) (tool_id info) score
           :: scored_needs rest text_lower
      else scored_needs rest text_lower
  end.

(** [extract_needs], with the loaded [CAPABILITY_MAP["capabilities"]] as an
    argument (a map without that key raises [KeyError] before any of this). *)
Definition extract_needs (capabilities : list (string * cap_info))
  (text : string) : list need :=
  let text_lower := lower text in
  let needs := scored_needs capabilities text_lower in
  take 3 (PySort.sorted_reverse Z.ltb need_score needs).

(** *** Evaluation on the requests of the module's own test list *)

Example detect_write_python :
  detect_mistral_profile "write a python function to parse JSON" = Some "code".
Proof. vm_compute. reflexivity. Qed.

Example detect_think_through :
  detect_mistral_profile "think through the tradeoffs of using SQLite vs Postgres"
  = Some "reasoning".
Proof. vm_compute. reflexivity. Qed.

Example detect_weather :
  detect_mistral_profile "what's the weather like" = None.
Proof. vm_compute. reflexivity. Qed.

Example detect_summarize_transcript_scores :
  profile_scores MISTRAL_PROFILE_TRIGGERS (lower "summarize this transcript")
  = [("code", 1); ("general", 1)].
Proof. vm_compute. reflexivity. Qed.

(** *** Need extraction *)




Lemma scored_needs_sound capabilities text_lower :
  Forall (fun n =>
            exists info,
              (need_capability n, info) ∈ capabilities
              /\ need_description n = description info
              /\ need_tool_id n = tool_id info
              /\ need_score n = keyword_score info text_lower
              /\ 0 < need_score n)
         (scored_needs capabilities text_lower).
Proof.
  induction capabilities as [|[cap_id info] rest IH]; [constructor|].
  cbn [scored_needs].
  assert (Hrest : Forall (fun n =>
            exists info0,
              (need_capability n, info0) ∈ (cap_id, info) :: rest
              /\ need_description n = description info0
              /\ need_tool_id n = tool_id info0
              /\ need_score n = keyword_score info0 text_lower
              /\ 0 < need_score n)
         (scored_needs rest text_lower)).
  { eapply Forall_impl; [exact IH|].
    intros n (i & Hin & ?). exists i. split; [|assumption].
    now apply list_elem_of_further. }
  destruct (Z.ltb_spec 0 (keyword_score info text_lower)) as [Hpos|_];
    [|exact Hrest].
  constructor; [|exact Hrest].
  exists info. cbn. split; [apply list_elem_of_here|]. auto.
Qed.

Lemma scored_needs_complete capabilities text_lower cap_id info :
  (cap_id, info) ∈ capabilities ->
  0 < keyword_score info text_lower ->
  mk_need cap_id (description info) (tool_id info) (keyword_score info text_lower)
    ∈ scored_needs capabilities text_lower.
Proof.
  intros Hin Hpos. induction capabilities as [|[c i] rest IH].
  - now apply elem_of_nil in Hin.
  - cbn [scored_needs]. apply elem_of_cons in Hin as [[= -> ->]|Hin].
    + apply Z.ltb_lt in Hpos. rewrite Hpos. apply list_elem_of_here.
    + destruct (0 <? keyword_score i text_lower).
      * apply list_elem_of_further. now apply IH.
      * now apply IH.
Qed.



(** *** Substrings *)

Lemma prefix_iff (needle hay : string) :
  String.prefix needle hay = true <-> exists post, hay = (needle ++ post)%string.
Proof.
  revert hay. induction needle as [|c needle IH]; intros hay.
  - split; [intros _; now exists hay|intros _; now destruct hay].
  - destruct hay as [|d hay]; cbn [String.prefix].
    + split; [discriminate|]. now intros [post [=]].
    + destruct (Ascii.ascii_dec c d) as [->|Hne].
      * rewrite IH. split; intros [post H]; exists post.
        -- cbn. now rewrite H.
        -- now injection H.
      * split; [discriminate|]. intros [post [= H _]]. congruence.
Qed.

(** [contains needle hay] holds exactly when [needle] is a contiguous part
    of [hay]. *)
Lemma contains_iff (needle hay : string) :
  contains needle hay = true
  <-> exists pre post, hay = (pre ++ needle ++ post)%string.
Proof.
  induction hay as [|d hay IH]; cbn [contains]; rewrite orb_true_iff, prefix_iff.
  - split.
    + intros [[post H]|H]; [|discriminate]. now exists ""%string, post.
    + intros (pre & post & H). left.
      destruct pre as [|c pre]; [|discriminate]. now exists post.
  - rewrite IH. split.
    + intros [[post H]|(pre & post & H)].
      * now exists ""%string, post.
      * exists (String d pre), post. cbn. now rewrite H.
    + intros (pre & post & H). destruct pre as [|c pre].
      * left. now exists post.
      * right. injection H as _ H. now exists pre, post.
Qed.

Lemma string_app_assoc (a b c : string) : ((a ++ b) ++ c = a ++ (b ++ c))%string.
Proof.
  induction a as [|x a IH]; [reflexivity|].
  change (String x ((a ++ b) ++ c) = String x (a ++ (b ++ c)))%string. now rewrite IH.
Qed.

Lemma lower_app (a b : string) : lower (a ++ b) = (lower a ++ lower b)%string.
Proof.
  induction a as [|x a IH]; [reflexivity|].
  change (String (lower_ascii x) (lower (a ++ b))
          = String (lower_ascii x) (lower a ++ lower b))%string.
  now rewrite IH.
Qed.

Lemma contains_extend (needle pre hay post : string) :
  contains needle hay = true -> contains needle (pre ++ hay ++ post) = true.
Proof.
  rewrite !contains_iff. intros (p & q & ->).
  exists (pre ++ p)%string, (q ++ post)%string.
  now rewrite !string_app_assoc.
Qed.

(** *** The matcher in the words of its specification

    "Case-insensitive keyword substring hits", said without [lower] and
    without [contains]: a keyword occurs in a text when some contiguous part
    of the text spells it up to the case of the letters [A]..[Z]; the hit
    count of a capability is the number of its keywords that occur.  The
    texts and keywords concerned are ASCII: on them [str.lower()] is the
    function [lower]. *)

Definition ascii_char (c : ascii) : bool := (nat_of_ascii c <? 128)%nat.

Fixpoint ascii_text (s : string) : bool :=
  match s with
  | EmptyString => true
  | String c s' => ascii_char c && ascii_text s'
  end.

Definition ascii_keywords (info : cap_info) : bool :=
  forallb ascii_text (keywords info).

Definition ascii_registry (capabilities : list (string * cap_info)) : bool :=
  forallb (fun ci => ascii_keywords (snd ci)) capabilities.

Definition upper_case (c : ascii) : Prop :=
  (65 <= nat_of_ascii c)%nat /\ (nat_of_ascii c <= 90)%nat.

(** The same letter, in either case. *)
Definition same_letter (a b : ascii) : Prop :=
  a = b
  \/ (upper_case a /\ nat_of_ascii b = (nat_of_ascii a + 32)%nat)
  \/ (upper_case b /\ nat_of_ascii a = (nat_of_ascii b + 32)%nat).

Inductive same_ignoring_case : string -> string -> Prop :=
| sic_nil : same_ignoring_case EmptyString EmptyString
| sic_cons a b s t :
    same_letter a b -> same_ignoring_case s t ->
    same_ignoring_case (String a s) (String b t).

Definition occurs_ignoring_case (kw text : string) : Prop :=
  exists pre mid post,
    text = (pre ++ mid ++ post)%string /\ same_ignoring_case kw mid.

(** [hit_count text kws n]: [n] of the keywords [kws], counted as often as
    they are listed, occur in [text]. *)
Inductive hit_count (text : string) : list string -> Z -> Prop :=
| hc_nil : hit_count text [] 0
| hc_hit kw kws n :
    occurs_ignoring_case kw text -> hit_count text kws n ->
    hit_count text (kw :: kws) (n + 1)
| hc_miss kw kws n :
    ~ occurs_ignoring_case kw text -> hit_count text kws n ->
    hit_count text (kw :: kws) n.






Lemma hit_count_unique text kws n m :
  hit_count text kws n -> hit_count text kws m -> n = m.
Proof.
  intros Hn. revert m.
  induction Hn as [|kw kws n Hocc _ IH|kw kws n Hocc _ IH]; intros m Hm;
    inversion Hm; subst; try contradiction; try reflexivity.
  - f_equal. now apply IH.
  - now apply IH.
Qed.




Definition sample_capabilities : list (string * cap_info) :=
  [ ("export", mk_cap ["export"; "docx"] "Export a document" "T1");
    ("capture", mk_cap ["capture"; "session"] "Capture the session" "T2");
    ("ocr", mk_cap ["OCR"; "scan"] "Read text from an image" "T3");
    ("search", mk_cap ["search"; "find"] "Search knowledge" "T4");
    ("ingest", mk_cap ["ingest"; "transcript"] "Ingest a transcript" "T5") ].

Example extract_needs_export :
  extract_needs sample_capabilities "please export this as docx"
  = [ mk_need "export" "Export a document" "T1" 2 ].
Proof. vm_compute. reflexivity. Qed.

Example extract_needs_ties_keep_registry_order :
  map need_capability
      (extract_needs sample_capabilities "Find and scan the session transcript, then export")
  = ["export"; "capture"; "ocr"].
Proof. vm_compute. reflexivity. Qed.

Example extract_needs_unrelated :
  extract_needs sample_capabilities "unrelated nonsense xyz" = [].
Proof. vm_compute. reflexivity. Qed.


(** *** Profile detection *)

(** The score of one profile of [MISTRAL_PROFILE_TRIGGERS] on a text. *)
Definition profile_score (profile text : string) : Z :=
  match List.find (fun pt => String.eqb (fst pt) profile) MISTRAL_PROFILE_TRIGGERS with
  | Some pt => count_in (snd pt) (lower text)
  | None => 0
  end.

Lemma detect_profile_four (c r m g : Z) :
  0 < g -> c <= g -> r <= g -> m <= g ->
  match PySort.sorted key_ltb profile_key
          (List.filter (fun ps => 0 <? snd ps)
             [("code", c); ("reasoning", r); ("math", m); ("general", g)]) with
  | [] => None
  | first :: _ => Some (fst first)
  end = Some "general".
Proof.
  intros Hg Hc Hr Hm.
  cbn [List.filter snd].
  apply Z.ltb_lt in Hg as Hg'. rewrite Hg'.
  destruct (Z.ltb_spec 0 c), (Z.ltb_spec 0 r), (Z.ltb_spec 0 m);
    cbn [PySort.sorted foldr PySort.insert_stable];
    repeat match goal with
           | |- context [profile_key (?p, ?z)] =>
               let k := eval vm_compute in (negb (String.eqb p "general")) in
               change (profile_key (p, z)) with (- z, k)
           | |- context [key_ltb (?a, ?x) (?b, ?y)] =>
               unfold key_ltb at 1; cbn [fst snd negb andb orb]
           | |- context [?a <? ?b] =>
               destruct (Z.ltb_spec a b); cbn [fst snd] in *; try lia
           | |- context [?a =? ?b] =>
               destruct (Z.eqb_spec a b); cbn [fst snd] in *; try lia
           | _ => progress cbn [PySort.insert_stable fst snd negb andb orb]
           end; reflexivity.
Qed.

Lemma detect_profile_head triggers text :
  detect_profile triggers text
  = match PySort.sorted key_ltb profile_key
            (profile_scores triggers (lower text)) with
    | [] => None
    | first :: _ => Some (fst first)
    end.
Proof.
  unfold detect_profile. now destruct (profile_scores triggers (lower text)).
Qed.

Lemma count_in_nonneg words text_lower : 0 <= count_in words text_lower.
Proof. unfold count_in. lia. Qed.

(** The four scores of a text, by name. *)
Lemma profile_scores_four text :
  profile_scores MISTRAL_PROFILE_TRIGGERS (lower text)
  = List.filter (fun ps => 0 <? snd ps)
      [ ("code", profile_score "code" text);
        ("reasoning", profile_score "reasoning" text);
        ("math", profile_score "math" text);
        ("general", profile_score "general" text) ].
Proof. reflexivity. Qed.

(** A name outside the table scores nothing; a name inside is one of four. *)
Lemma profile_score_cases profile text :
  profile_score profile text = profile_score "code" text
  \/ profile_score profile text = profile_score "reasoning" text
  \/ profile_score profile text = profile_score "math" text
  \/ profile_score profile text = profile_score "general" text
  \/ profile_score profile text = 0.
Proof.
  unfold profile_score at 1 3 5 7 9. cbn [MISTRAL_PROFILE_TRIGGERS List.find fst].
  destruct (String.eqb_spec "code" profile) as [<-|_];
    [left; reflexivity|].
  destruct (String.eqb_spec "reasoning" profile) as [<-|_];
    [right; left; reflexivity|].
  destruct (String.eqb_spec "math" profile) as [<-|_];
    [right; right; left; reflexivity|].
  destruct (String.eqb_spec "general" profile) as [<-|_];
    [right; right; right; left; reflexivity|].
  right; right; right; right; reflexivity.
Qed.

Lemma detect_profile_four_max (c r m g : Z) :
  0 <= c -> 0 <= r -> 0 <= m -> 0 <= g ->
  match
    match PySort.sorted key_ltb profile_key
            (List.filter (fun ps => 0 <? snd ps)
               [("code", c); ("reasoning", r); ("math", m); ("general", g)]) with
    | [] => None
    | first :: _ => Some first
    end
  with
  | None => c = 0 /\ r = 0 /\ m = 0 /\ g = 0
  | Some (p, s) =>
      (p, s) ∈ [("code", c); ("reasoning", r); ("math", m); ("general", g)]
      /\ 0 < s /\ c <= s /\ r <= s /\ m <= s /\ g <= s
  end.
Proof.
  intros Hc Hr Hm Hg.
  cbn [List.filter snd].
  destruct (Z.ltb_spec 0 c), (Z.ltb_spec 0 r), (Z.ltb_spec 0 m), (Z.ltb_spec 0 g);
    cbn [PySort.sorted foldr PySort.insert_stable];
    repeat match goal with
           | |- context [profile_key (?p, ?z)] =>
               let k := eval vm_compute in (negb (String.eqb p "general")) in
               change (profile_key (p, z)) with (- z, k)
           | |- context [key_ltb (?a, ?x) (?b, ?y)] =>
               unfold key_ltb at 1; cbn [fst snd negb andb orb]
           | |- context [?a <? ?b] =>
               destruct (Z.ltb_spec a b); cbn [fst snd] in *; try lia
           | |- context [?a =? ?b] =>
               destruct (Z.eqb_spec a b); cbn [fst snd] in *; try lia
           | _ => progress cbn [PySort.insert_stable fst snd negb andb orb]
           end;
    first [ lia
          | split; [repeat first [apply list_elem_of_here | apply list_elem_of_further]
                   | lia] ].
Qed.

(** The parts of the classifier's contract that hold: no profile is returned
    exactly when no trigger word occurs, and a returned profile has a
    positive score that no other profile exceeds. *)
Lemma detect_returns_a_highest_score text :
  match detect_mistral_profile text with
  | None => forall profile, profile_score profile text = 0
  | Some p =>
      0 < profile_score p text
      /\ forall profile, profile_score profile text <= profile_score p text
  end.
Proof.
  unfold detect_mistral_profile. rewrite detect_profile_head, profile_scores_four.
  pose proof (detect_profile_four_max
                (profile_score "code" text) (profile_score "reasoning" text)
                (profile_score "math" text) (profile_score "general" text)
                (count_in_nonneg _ _) (count_in_nonneg _ _)
                (count_in_nonneg _ _) (count_in_nonneg _ _)) as H.
  destruct (PySort.sorted key_ltb profile_key _) as [|[p s] rest].
  - intros profile. destruct (profile_score_cases profile text) as [E|[E|[E|[E|E]]]];
      rewrite E; lia.
  - destruct H as (Hin & Hpos & Hc & Hr & Hm & Hg). cbn [fst].
    assert (Hs : profile_score p text = s).
    { repeat (apply elem_of_cons in Hin as [[= -> ->]|Hin]; [reflexivity|]).
      now apply elem_of_nil in Hin. }
    rewrite Hs. split; [exact Hpos|].
    intros profile. destruct (profile_score_cases profile text) as [E|[E|[E|[E|E]]]];
      rewrite E; lia.
Qed.

(** ** C5.  On a tie for the highest score between ["general"] and
    specialised profiles, the classifier returns ["general"]: in the sort key
    [(-score, name != "general")] the generic profile carries [False], which
    sorts before the [True] of every specialist. *)
Theorem general_wins_ties (text : string) :
  0 < profile_score "general" text ->
  profile_score "code" text <= profile_score "general" text ->
  profile_score "reasoning" text <= profile_score "general" text ->
  profile_score "math" text <= profile_score "general" text ->
  detect_mistral_profile text = Some "general".
Proof.
  intros Hg Hc Hr Hm.
  unfold detect_mistral_profile. rewrite detect_profile_head, profile_scores_four.
  now apply detect_profile_four.
Qed.

Lemma general_wins_ties_witness :
  profile_score "code" "summarize this code" = 1
  /\ profile_score "general" "summarize this code" = 1
  /\ detect_mistral_profile "summarize this code" = Some "general".
Proof.
  split; [vm_compute; reflexivity|]. split; [vm_compute; reflexivity|].
  apply (general_wins_ties "summarize this code"); vm_compute; congruence.
Defined.

(** *** Internal requests *)

Definition INTERNAL_KEYWORDS : list string :=
  [ "export"; "capture"; "ingest"; "ocr"; "scan"; "transcribe";
    "deep dive"; "analyze"; "search"; "find";
    "docx"; "html"; "pdf"; "markdown";
    "8825"; "hcss"; "tgif"; "joju"; "ral"; "lhl";
    "memory"; "library"; "dli"; "pattern"; "transcript";
    "export console"; "memory hub"; "brain";
    "resilience"; "fallback"; "local"; "offline"; "cost optimization";
    "unified llm"; "openrouter"; "ollama"; "local search"; "telemetry";
    "direct file processing"; "duckduckgo"; "tavily";
    "code"; "script"; "function"; "refactor"; "python"; "javascript";
    "reason"; "strategy"; "think through"; "evaluate";
    "calculate"; "math"; "metrics"; "numbers" ].

(** [is_internal_request]: the loop returns [True] at the first keyword that
    occurs in the lower-cased text. *)
Definition is_internal_request (text : string) : bool :=
  let text_lower := lower text in
  existsb (fun keyword => contains keyword text_lower) INTERNAL_KEYWORDS.

(** ** X20.  A request is internal exactly when its lower-cased text has one
    of the keywords of [INTERNAL_KEYWORDS] as a contiguous part, wherever it
    stands and whatever surrounds it (so ["general"] is internal through
    ["ral"]). *)
Theorem is_internal_request_iff_keyword_inside (text : string) :
  is_internal_request text = true
  <-> exists keyword pre post,
        keyword ∈ INTERNAL_KEYWORDS /\ lower text = (pre ++ keyword ++ post)%string.
Proof.
  unfold is_internal_request. rewrite existsb_exists. split.
  - intros (keyword & Hin & Hc). apply contains_iff in Hc as (pre & post & Hc).
    exists keyword, pre, post. split; [now apply list_elem_of_In|exact Hc].
  - intros (keyword & pre & post & Hin & Hc). exists keyword.
    split; [now apply list_elem_of_In|]. apply contains_iff. now exists pre, post.
Qed.

Example general_is_internal : is_internal_request "In General" = true.
Proof. vm_compute. reflexivity. Qed.

Lemma filter_length_le {A : Type} (f g : A -> bool) (l : list A) :
  (forall x, f x = true -> g x = true) ->
  (length (List.filter f l) <= length (List.filter g l))%nat.
Proof.
  intros Hfg. induction l as [|x l IH]; [reflexivity|]. cbn [List.filter].
  destruct (f x) eqn:Hf.
  - rewrite (Hfg x Hf). cbn [length]. lia.
  - destruct (g x); cbn [length]; lia.
Qed.

Lemma count_in_extend words pre text post :
  count_in words (lower text) <= count_in words (lower (pre ++ text ++ post)).
Proof.
  unfold count_in. apply inj_le, filter_length_le.
  intros t Ht. rewrite !lower_app. now apply contains_extend.
Qed.

Lemma keyword_score_extend info pre text post :
  keyword_score info (lower text) <= keyword_score info (lower (pre ++ text ++ post)).
Proof.
  unfold keyword_score. apply inj_le, filter_length_le.
  intros t Ht. rewrite !lower_app. now apply contains_extend.
Qed.

Lemma scored_needs_nil capabilities text_lower :
  scored_needs capabilities text_lower = []
  <-> forall cap_id info, (cap_id, info) ∈ capabilities ->
                          keyword_score info text_lower = 0.
Proof.
  induction capabilities as [|[c i] rest IH]; cbn [scored_needs].
  - split; [|reflexivity]. intros _ cap_id info Hin. now apply elem_of_nil in Hin.
  - assert (Hle : 0 <= keyword_score i text_lower) by (unfold keyword_score; lia).
    destruct (Z.ltb_spec 0 (keyword_score i text_lower)) as [Hpos|Hzero].
    + split; [discriminate|]. intros H.
      specialize (H c i (list_elem_of_here _ _)). lia.
    + rewrite IH. split.
      * intros H cap_id info Hin.
        apply elem_of_cons in Hin as [[= -> ->]|Hin]; [lia|exact (H _ _ Hin)].
      * intros H cap_id info Hin. apply (H cap_id). now apply list_elem_of_further.
Qed.

Lemma extract_needs_nil capabilities text :
  extract_needs capabilities text = []
  <-> forall cap_id info, (cap_id, info) ∈ capabilities ->
                          keyword_score info (lower text) = 0.
Proof.
  rewrite <- scored_needs_nil. unfold extract_needs.
  pose proof (PySort.sorted_perm (fun a b => b <? a) need_score
                (scored_needs capabilities (lower text))) as Hperm.
  unfold PySort.sorted_reverse.
  destruct (PySort.sorted (fun a b => b <? a) need_score
              (scored_needs capabilities (lower text))) as [|n l].
  - apply Permutation_nil in Hperm. now rewrite Hperm.
  - split; [discriminate|]. intros E. rewrite E in Hperm.
    symmetry in Hperm. now apply Permutation_nil in Hperm.
Qed.

(** ** X21.  For ASCII texts, text around a request never loses a match.
    If a text is an internal request, so is every text that contains it; no
    profile score goes down; no score of a capability with ASCII keywords
    goes down; and over a registry of ASCII keywords a capability is still
    extracted whenever one was. *)
Theorem longer_text_keeps_matches (pre text post : string) :
  ascii_text pre = true -> ascii_text text = true -> ascii_text post = true ->
  let longer := (pre ++ text ++ post)%string in
  (is_internal_request text = true -> is_internal_request longer = true)
  /\ (forall profile, profile_score profile text <= profile_score profile longer)
  /\ (forall info,
         ascii_keywords info = true ->
         keyword_score info (lower text) <= keyword_score info (lower longer))
  /\ (forall capabilities,
         ascii_registry capabilities = true ->
         extract_needs capabilities longer = [] -> extract_needs capabilities text = []).
Proof.
  intros _ _ _ longer. subst longer. split; [|split; [|split]].
  - unfold is_internal_request. rewrite !existsb_exists.
    intros (keyword & Hin & Hc). exists keyword. split; [exact Hin|].
    rewrite !lower_app. now apply contains_extend.
  - intros profile. unfold profile_score.
    destruct (List.find _ MISTRAL_PROFILE_TRIGGERS) as [pt|]; [|lia].
    apply count_in_extend.
  - intros info _. apply keyword_score_extend.
  - intros capabilities _. rewrite !extract_needs_nil. intros H cap_id info Hin.
    specialize (H cap_id info Hin).
    pose proof (keyword_score_extend info pre text post) as Hle.
    assert (0 <= keyword_score info (lower text)) by (unfold keyword_score; lia).
    lia.
Qed.

Lemma longer_text_keeps_matches_witness :
  is_internal_request "Please export this, thanks" = true
  /\ profile_score "code" "a script" <= profile_score "code" "Please run a script now".
Proof.
  destruct (longer_text_keeps_matches "Please " "export" " this, thanks"
              eq_refl eq_refl eq_refl) as (Hint & _).
  destruct (longer_text_keeps_matches "Please run " "a script" " now"
              eq_refl eq_refl eq_refl) as (_ & Hprof & _).
  split; [apply Hint; reflexivity|apply (Hprof "code"%string)].
Defined.

(** *** The whole decision of the profile classifier *)

Lemma detect_profile_four_decision (c r m g : Z) :
  0 <= c -> 0 <= r -> 0 <= m -> 0 <= g ->
  match PySort.sorted key_ltb profile_key
          (List.filter (fun ps => 0 <? snd ps)
             [("code", c); ("reasoning", r); ("math", m); ("general", g)]) with
  | [] => None
  | first :: _ => Some (fst first)
  end
  = let top := Z.max (Z.max c r) (Z.max m g) in
    if top =? 0 then None
    else if g =? top then Some "general"%string
    else if c =? top then Some "code"%string
    else if r =? top then Some "reasoning"%string
    else Some "math"%string.
Proof.
  intros Hc Hr Hm Hg. cbn zeta.
  remember (Z.max (Z.max c r) (Z.max m g)) as top eqn:Htop.
  assert (Hge : c <= top /\ r <= top /\ m <= top /\ g <= top) by lia.
  assert (Hin : top = c \/ top = r \/ top = m \/ top = g) by lia.
  clear Htop.
  cbn [List.filter snd].
  destruct (Z.ltb_spec 0 c), (Z.ltb_spec 0 r), (Z.ltb_spec 0 m), (Z.ltb_spec 0 g);
    cbn [PySort.sorted foldr PySort.insert_stable];
    repeat match goal with
           | |- context [profile_key (?p, ?z)] =>
               let k := eval vm_compute in (negb (String.eqb p "general")) in
               change (profile_key (p, z)) with (- z, k)
           | |- context [key_ltb (?a, ?x) (?b, ?y)] =>
               unfold key_ltb at 1; cbn [fst snd negb andb orb]
           | |- context [?a <? ?b] =>
               destruct (Z.ltb_spec a b); cbn [fst snd] in *; try lia
           | |- context [?a =? ?b] =>
               destruct (Z.eqb_spec a b); cbn [fst snd] in *; try lia
           | _ => progress cbn [PySort.insert_stable fst snd negb andb orb]
           end; first [reflexivity | lia].
Qed.

(** ** X22.  The classifier's answer as a decision table over the four
    scores.  With no trigger word in the text there is no profile; otherwise
    the answer is ["general"] whenever it reaches the highest score, and
    among the specialists only, the first of ["code"], ["reasoning"],
    ["math"] (the order of the trigger table) that reaches it. *)
Theorem detect_mistral_profile_decision (text : string) :
  let c := profile_score "code" text in
  let r := profile_score "reasoning" text in
  let m := profile_score "math" text in
  let g := profile_score "general" text in
  let top := Z.max (Z.max c r) (Z.max m g) in
  detect_mistral_profile text
  = if top =? 0 then None
    else if g =? top then Some "general"%string
    else if c =? top then Some "code"%string
    else if r =? top then Some "reasoning"%string
    else Some "math"%string.
Proof.
  cbn zeta. unfold detect_mistral_profile.
  rewrite detect_profile_head, profile_scores_four.
  apply detect_profile_four_decision; apply count_in_nonneg.
Qed.

End Preflight.

(* ====================================================================== *)
(** ** src/backend_8825/conversation_hub_client.py *)
(* ====================================================================== *)

Module ConversationHub.

(** *** Documents on disk

    One JSON file per conversation and one [index.json].  The clock reads of
    one call are taken as a single instant [now]; storage is reliable (the
    [except] branches that report an I/O failure are not reached). *)

Record message := mk_message {
  msg_id : string;
  msg_role : string;
  msg_content : string;
  msg_surface : string;
  msg_mode : option string;
  msg_timestamp : string;
  msg_meta : list (string * string)
}.

Record artifact := mk_artifact {
  art_type : string;
  art_id : string;
  art_title : option string;
  art_confidence : Q;
  art_linked_at : string
}.

Record conv_meta := mk_meta {
  created_at : string;
  updated_at : string;
  status : string;
  message_count : nat
}.

Record conversation := mk_conversation {
  conv_id : string;
  topic : string;
  owner : string;
  surfaces : list string;
  tags : list string;
  messages : list message;
  artifacts : list artifact;
  meta : conv_meta
}.

(** An entry of [index["conversations"]].  [ie_owner] is the value of
    [entry.get("owner")]: [None] when the dictionary has no such key. *)
Record index_entry := mk_entry {
  ie_id : string;
  ie_topic : string;
  ie_surfaces : list string;
  ie_created_at : string;
  ie_updated_at : string;
  ie_message_count : nat;
  ie_status : string;
  ie_owner : option string
}.

Record index_doc := mk_index {
  conversations : list index_entry;
  last_updated : string
}.

(** The directory: conversation files by id, and the index file if present. *)
Record hub := mk_hub {
  files : gmap string conversation;
  index_file : option index_doc
}.

Definition empty_hub : hub := mk_hub ∅ None.

(** [_load_index] *)
Definition _load_index (now : string) (h : hub) : index_doc :=
  match index_file h with
  | Some index => index
  | None => mk_index [] now
  end.

(** [_save_index] *)
Definition _save_index (index : index_doc) (now : string) (h : hub) : hub :=
  mk_hub (files h) (Some (mk_index (conversations index) now)).

(** The [for conv in index["conversations"]] search of [_update_index],
    together with the in-place update of the entry it finds: the first entry
    with the id gets a new [updated_at] and the union of the surfaces
    ([list(set(...))], whose order Python leaves unspecified: the order
    written here is one of them, and the statements below use the surfaces
    of an index entry through membership only).  [None] when no entry has
    the id. *)
Fixpoint touch_entry (conversation_id : string) (new_surfaces : list string)
  (now : string) (entries : list index_entry) : option (list index_entry) :=
  match entries with
  | [] => None
  | conv :: rest =>
      if String.eqb (ie_id conv) conversation_id
      then Some (mk_entry (ie_id conv) (ie_topic conv)
                          (remove_dups (ie_surfaces conv ++ new_surfaces))
                          (ie_created_at conv) now
                          (ie_message_count conv) (ie_status conv) (ie_owner conv)
                 :: rest)
      else option_map (cons conv) (touch_entry conversation_id new_surfaces now rest)
  end.

(** [_update_index] *)
Definition _update_index (conversation_id topic_ : string)
  (surfaces_ : list string) (now : string) (h : hub) : hub :=
  let index := _load_index now h in
  let entries :=
    match touch_entry conversation_id surfaces_ now (conversations index) with
    | Some entries' => entries'
    | None =>
        conversations index
        ++ [mk_entry conversation_id topic_ surfaces_ now now 0 "active" None]
    end in
  _save_index (mk_index entries (last_updated index)) now h.

(** [create_conversation]; [today] is the formatted date and [uuid8] the
    first eight hex digits of a fresh UUID.  The file is written at
    [root/<id>.json]: when the user id holds a path separator that path is
    in a directory that does not exist and [open] raises, so the call is
    read on the user ids for which the id is flat ([flat_id] below). *)
Definition create_conversation (topic_ user_id surface_id : string)
  (tags_ : option (list string)) (today uuid8 now : string) (h : hub)
  : string * hub :=
  let conversation_id := ("conv_" ++ today ++ "_" ++ user_id ++ "_" ++ uuid8)%string in
  let conv :=
    mk_conversation conversation_id topic_ user_id [surface_id]
                    (default [] tags_) [] [] (mk_meta now now "active" 0) in
  let h1 := mk_hub (<[conversation_id := conv]> (files h)) (index_file h) in
  (conversation_id, _update_index conversation_id topic_ [surface_id] now h1).

(** [get_conversation]: the file at [root/<id>.json], if it exists.  The
    lookup in [files] is that file for a flat id ([flat_id] below); an id
    with a path separator can name another id's file, and ["index"] names
    the index. *)
Definition get_conversation (conversation_id : string) (h : hub)
  : option conversation :=
  files h !! conversation_id.

(** [append_message] *)
Definition append_message (conversation_id role content surface_id : string)
  (mode : option string) (metadata : option (list (string * string)))
  (uuid now : string) (h : hub) : bool * hub :=
  match get_conversation conversation_id h with
  | None => (false, h)
  | Some conv =>
      let msg := mk_message uuid role content surface_id mode now
                            (default [] metadata) in
      let messages' := messages conv ++ [msg] in
      let surfaces' :=
        if bool_decide (surface_id ∈ surfaces conv) then surfaces conv
        else surfaces conv ++ [surface_id] in
      let conv' :=
        mk_conversation (conv_id conv) (topic conv) (owner conv) surfaces'
          (tags conv) messages' (artifacts conv)
          (mk_meta (created_at (meta conv)) now (status (meta conv))
                   (length messages')) in
      let h1 := mk_hub (<[conversation_id := conv']> (files h)) (index_file h) in
      (true, _update_index conversation_id (topic conv') surfaces' now h1)
  end.

(** [link_artifact] *)
Definition link_artifact (conversation_id artifact_type artifact_id : string)
  (title : option string) (confidence : Q) (now : string) (h : hub)
  : bool * hub :=
  match get_conversation conversation_id h with
  | None => (false, h)
  | Some conv =>
      let art := mk_artifact artifact_type artifact_id title confidence now in
      if existsb (fun existing => String.eqb (art_id existing) artifact_id)
                 (artifacts conv)
      then (true, h)
      else
        let conv' :=
          mk_conversation (conv_id conv) (topic conv) (owner conv) (surfaces conv)
            (tags conv) (messages conv) (artifacts conv ++ [art])
            (mk_meta (created_at (meta conv)) now (status (meta conv))
                     (message_count (meta conv))) in
        (true, mk_hub (<[conversation_id := conv']> (files h)) (index_file h))
  end.

(** [close_conversation] *)
Definition close_conversation (conversation_id now : string) (h : hub)
  : bool * hub :=
  match get_conversation conversation_id h with
  | None => (false, h)
  | Some conv =>
      let conv' :=
        mk_conversation (conv_id conv) (topic conv) (owner conv) (surfaces conv)
          (tags conv) (messages conv) (artifacts conv)
          (mk_meta (created_at (meta conv)) now "closed"
                   (message_count (meta conv))) in
      (true, mk_hub (<[conversation_id := conv']> (files h)) (index_file h))
  end.

(** Truth value of an [Optional[str]] argument: [None] and [""] are false. *)
Definition truthy (o : option string) : bool :=
  match o with
  | Some s => negb (String.eqb s "")
  | None => false
  end.

(** The three [continue] tests of [list_conversations], negated. *)
Definition keeps (user_id surface_id : option string) (status_ : string)
  (conv_summary : index_entry) : bool :=
  negb (negb (String.eqb status_ "")
        && negb (String.eqb (ie_status conv_summary) status_))
  && negb (truthy user_id
           && negb (bool_decide (ie_owner conv_summary = user_id)))
  && negb (truthy surface_id
           && negb (match surface_id with
                    | Some s => bool_decide (s ∈ ie_surfaces conv_summary)
                    | None => false
                    end)).

(** [list_conversations]; [status_] defaults to ["active"] at the call. *)
Definition list_conversations (user_id surface_id : option string)
  (status_ : string) (now : string) (h : hub) : list index_entry :=
  let index := _load_index now h in
  let results := List.filter (keeps user_id surface_id status_) (conversations index) in
  PySort.sorted_reverse String.ltb ie_updated_at results.

(** *** Histories of calls *)

(** The state-changing calls of the client, with the values they draw from
    the clock and the UUID generator. *)
Inductive call :=
| Create (topic_ user_id surface_id : string) (tags_ : option (list string))
         (today uuid8 now : string)
| Append (conversation_id role content surface_id : string)
         (mode : option string) (metadata : option (list (string * string)))
         (uuid now : string)
| Link (conversation_id artifact_type artifact_id : string)
       (title : option string) (confidence : Q) (now : string)
| Close (conversation_id now : string).

Definition run_call (h : hub) (c : call) : hub :=
  match c with
  | Create t u s tg today uuid8 now =>
      snd (create_conversation t u s tg today uuid8 now h)
  | Append id role content s mode md uuid now =>
      snd (append_message id role content s mode md uuid now h)
  | Link id ty aid title conf now =>
      snd (link_artifact id ty aid title conf now h)
  | Close id now => snd (close_conversation id now h)
  end.

(** The directory after a history of calls on an empty directory. *)
Definition run_calls (cs : list call) : hub := fold_left run_call cs empty_hub.

(** *** What the index holds *)

Definition indexed (h : hub) : list index_entry :=
  match index_file h with
  | Some index => conversations index
  | None => []
  end.

(** Every entry the client writes is ["active"] and has no ["owner"] key. *)
Definition index_as_written (h : hub) : Prop :=
  Forall (fun e => ie_status e = "active"%string /\ ie_owner e = None) (indexed h).

Lemma conversations_load_index now h : conversations (_load_index now h) = indexed h.
Proof. unfold _load_index, indexed. now destruct (index_file h). Qed.

Lemma touch_entry_as_written id ss now entries entries' :
  Forall (fun e => ie_status e = "active"%string /\ ie_owner e = None) entries ->
  touch_entry id ss now entries = Some entries' ->
  Forall (fun e => ie_status e = "active"%string /\ ie_owner e = None) entries'.
Proof.
  revert entries'. induction entries as [|e rest IH]; intros entries' Hall; [discriminate|].
  apply Forall_cons_1 in Hall as [He Hrest]. cbn [touch_entry].
  destruct (String.eqb (ie_id e) id).
  - intros [= <-]. constructor; [exact He|exact Hrest].
  - destruct (touch_entry id ss now rest) as [rest'|]; [|discriminate].
    intros [= <-]. constructor; [exact He|]. now apply IH.
Qed.

Lemma update_index_as_written id t ss now h :
  index_as_written h -> index_as_written (_update_index id t ss now h).
Proof.
  unfold index_as_written, _update_index, _save_index, indexed at 2.
  cbn [index_file conversations]. rewrite conversations_load_index.
  intros Hall.
  destruct (touch_entry id ss now (indexed h)) as [entries'|] eqn:E.
  - now apply (touch_entry_as_written id ss now (indexed h)).
  - apply Forall_app. split; [exact Hall|]. now repeat constructor.
Qed.

Lemma run_call_as_written h c : index_as_written h -> index_as_written (run_call h c).
Proof.
  intros Hh. destruct c; cbn [run_call].
  - unfold create_conversation; cbn [snd]. now apply update_index_as_written.
  - unfold append_message. destruct (get_conversation conversation_id h); cbn [snd].
    + now apply update_index_as_written.
    + exact Hh.
  - unfold link_artifact. destruct (get_conversation conversation_id h); cbn [snd];
      [|exact Hh].
    destruct (existsb _ _); exact Hh.
  - unfold close_conversation. destruct (get_conversation conversation_id h); exact Hh.
Qed.

Lemma run_calls_as_written cs : index_as_written (run_calls cs).
Proof.
  unfold run_calls.
  assert (H : forall h, index_as_written h -> index_as_written (fold_left run_call cs h)).
  { induction cs as [|c cs IH]; intros h Hh; cbn [fold_left]; [exact Hh|].
    apply IH. now apply run_call_as_written. }
  apply H. constructor.
Qed.

Lemma filter_none {A : Type} (f : A -> bool) (l : list A) :
  Forall (fun x => f x = false) l -> List.filter f l = [].
Proof.
  induction 1 as [|x l Hx _ IH]; [reflexivity|]. cbn. now rewrite Hx.
Qed.

Lemma close_conversation_index id now h :
  index_file (snd (close_conversation id now h)) = index_file h.
Proof.
  unfold close_conversation. now destruct (get_conversation id h).
Qed.

Lemma list_conversations_index u s st now h h' :
  index_file h' = index_file h ->
  list_conversations u s st now h' = list_conversations u s st now h.
Proof.
  intros E. unfold list_conversations, _load_index. now rewrite E.
Qed.

(** *** What a listing returns *)

Lemma keeps_spec u s st e :
  keeps u s st e = true
  <-> (st = ""%string \/ ie_status e = st)
      /\ (truthy u = true -> ie_owner e = u)
      /\ (truthy s = true -> exists x, s = Some x /\ x ∈ ie_surfaces e).
Proof.
  unfold keeps. rewrite !andb_true_iff, !negb_true_iff, !andb_false_iff,
    !negb_false_iff.
  rewrite !String.eqb_eq, bool_decide_eq_true.
  split.
  - intros [[Hst Hu] Hs]. split; [exact Hst|]. split.
    + intros Ht. destruct Hu as [Hu|Hu]; [congruence|exact Hu].
    + intros Ht. destruct Hs as [Hs|Hs]; [congruence|].
      destruct s as [x|]; [|discriminate]. exists x. split; [reflexivity|].
      now apply bool_decide_eq_true in Hs.
  - intros (Hst & Hu & Hs). split; [split|].
    + exact Hst.
    + destruct (truthy u); [right; now apply Hu|now left].
    + destruct (truthy s); [right|now left].
      destruct Hs as (x & -> & Hx); [reflexivity|]. now apply bool_decide_eq_true.
Qed.

(** The listing is the kept entries of the index, every filter applied,
    newest [updated_at] first, entries with the same time in index order. *)
Lemma list_conversations_filters_and_sorts u s st now h :
  let out := list_conversations u s st now h in
  (forall e, e ∈ out <-> e ∈ indexed h /\ keeps u s st e = true)
  /\ Permutation out (List.filter (keeps u s st) (indexed h))
  /\ StronglySorted
       (fun a b => String.ltb (ie_updated_at a) (ie_updated_at b) = false) out
  /\ forall t, List.filter (fun e => String.eqb (ie_updated_at e) t) out
               = List.filter (fun e => String.eqb (ie_updated_at e) t)
                   (List.filter (keeps u s st) (indexed h)).
Proof.
  intros out. subst out. unfold list_conversations.
  rewrite conversations_load_index.
  assert (Hperm : Permutation
            (PySort.sorted_reverse String.ltb ie_updated_at
               (List.filter (keeps u s st) (indexed h)))
            (List.filter (keeps u s st) (indexed h)))
    by apply PySort.sorted_perm.
  split; [|split; [exact Hperm|split]].
  - intros e. rewrite Hperm, list_elem_of_In, filter_In, <- list_elem_of_In.
    reflexivity.
  - apply (PySort.sorted_ascending (fun a b => String.ltb b a) ie_updated_at
             (PySort.strict_weak_flip _ PySort.strict_weak_string)).
  - intros t.
    assert (Heq : forall x y,
               PySort.equiv_key (fun a b => String.ltb b a) x y = String.eqb x y).
    { intros x y. unfold PySort.equiv_key, String.ltb.
      rewrite (String.compare_antisym x y).
      destruct (String.eqb_spec x y) as [->|Hne].
      - assert (E : String.compare y y = Eq).
        { pose proof (String.compare_antisym y y) as E.
          destruct (String.compare y y); [reflexivity|discriminate|discriminate]. }
        now rewrite E.
      - destruct (String.compare y x) eqn:E; [|reflexivity|reflexivity].
        apply String.compare_eq_iff in E. congruence. }
    erewrite (filter_ext (fun e => String.eqb (ie_updated_at e) t));
      [|intros e; symmetry; apply Heq].
    unfold PySort.sorted_reverse.
    rewrite (PySort.sorted_stable _ ie_updated_at
               (PySort.strict_weak_flip _ PySort.strict_weak_string)).
    apply filter_ext. intros e. apply Heq.
Qed.

(** Every conversation file has an entry in the index. *)
Definition files_indexed (h : hub) : Prop :=
  forall id, is_Some (files h !! id) -> id ∈ map ie_id (indexed h).

Lemma touch_entry_ids id ss now entries entries' :
  touch_entry id ss now entries = Some entries' ->
  map ie_id entries' = map ie_id entries.
Proof.
  revert entries'. induction entries as [|e rest IH]; intros entries'; [discriminate|].
  cbn [touch_entry]. destruct (String.eqb (ie_id e) id).
  - now intros [= <-].
  - destruct (touch_entry id ss now rest) as [rest'|]; [|discriminate].
    intros [= <-]. cbn [map]. now rewrite (IH rest').
Qed.

Lemma touch_entry_found id ss now entries :
  id ∈ map ie_id entries -> is_Some (touch_entry id ss now entries).
Proof.
  induction entries as [|e rest IH]; cbn [map touch_entry].
  - intros Hin. now apply elem_of_nil in Hin.
  - intros Hin. destruct (String.eqb_spec (ie_id e) id) as [|Hne]; [eauto|].
    apply elem_of_cons in Hin as [->|Hin]; [congruence|].
    destruct (IH Hin) as [rest' ->]. eauto.
Qed.

Lemma update_index_ids id t ss now h :
  indexed (_update_index id t ss now h)
  = match touch_entry id ss now (indexed h) with
    | Some entries' => entries'
    | None => indexed h ++ [mk_entry id t ss now now 0 "active" None]
    end.
Proof.
  unfold _update_index, _save_index, indexed at 1. cbn [index_file conversations].
  now rewrite conversations_load_index.
Qed.

Lemma update_index_keeps_ids id t ss now h other :
  other ∈ map ie_id (indexed h) ->
  other ∈ map ie_id (indexed (_update_index id t ss now h)).
Proof.
  rewrite update_index_ids. intros Hin.
  destruct (touch_entry id ss now (indexed h)) as [entries'|] eqn:E.
  - now rewrite (touch_entry_ids _ _ _ _ _ E).
  - rewrite map_app. apply elem_of_app. now left.
Qed.

Lemma update_index_has_id id t ss now h :
  id ∈ map ie_id (indexed (_update_index id t ss now h)).
Proof.
  rewrite update_index_ids.
  destruct (touch_entry id ss now (indexed h)) as [entries'|] eqn:E.
  - rewrite (touch_entry_ids _ _ _ _ _ E).
    destruct (decide (id ∈ map ie_id (indexed h))) as [Hin|Hnot]; [exact Hin|].
    exfalso. clear -E Hnot.
    induction (indexed h) as [|e rest IH] in entries', E, Hnot |- *; [discriminate|].
    cbn [touch_entry map] in *. apply not_elem_of_cons in Hnot as [Hne Hrest].
    destruct (String.eqb_spec (ie_id e) id) as [|_]; [congruence|].
    destruct (touch_entry id ss now rest) as [rest'|]; [|discriminate].
    now apply (IH rest').
  - rewrite map_app. apply elem_of_app. right. cbn. apply list_elem_of_here.
Qed.

Lemma run_call_files_indexed h c : files_indexed h -> files_indexed (run_call h c).
Proof.
  intros Hh. destruct c; cbn [run_call].
  - unfold create_conversation; cbn [snd]. intros id.
    match goal with |- context [_update_index ?k _ _ _ _] =>
      destruct (decide (k = id)) as [<-|Hne] end.
    + intros _. apply update_index_has_id.
    + unfold _update_index at 1, _save_index; cbn [files].
      rewrite lookup_insert_ne by assumption. intros Hfile.
      apply update_index_keeps_ids. cbn [indexed index_file]. now apply Hh.
  - unfold append_message, get_conversation.
    destruct (files h !! conversation_id) as [conv|] eqn:Hconv; [|exact Hh].
    cbn [snd]. intros id.
    destruct (decide (conversation_id = id)) as [<-|Hne].
    + intros _. apply update_index_has_id.
    + unfold _update_index at 1, _save_index; cbn [files].
      rewrite lookup_insert_ne by assumption. intros Hfile.
      apply update_index_keeps_ids. cbn [indexed index_file]. now apply Hh.
  - unfold link_artifact, get_conversation.
    destruct (files h !! conversation_id) as [conv|] eqn:Hconv; [|exact Hh].
    destruct (existsb _ _); [exact Hh|]. cbn [snd]. intros id. cbn [files].
    destruct (decide (conversation_id = id)) as [<-|Hne].
    + intros _. apply Hh. now rewrite Hconv.
    + rewrite lookup_insert_ne by assumption. apply Hh.
  - unfold close_conversation, get_conversation.
    destruct (files h !! conversation_id) as [conv|] eqn:Hconv; [|exact Hh].
    cbn [snd]. intros id. cbn [files].
    destruct (decide (conversation_id = id)) as [<-|Hne].
    + intros _. apply Hh. now rewrite Hconv.
    + rewrite lookup_insert_ne by assumption. apply Hh.
Qed.

Lemma run_calls_files_indexed cs : files_indexed (run_calls cs).
Proof.
  unfold run_calls.
  assert (H : forall h, files_indexed h -> files_indexed (fold_left run_call cs h)).
  { induction cs as [|c cs IH]; intros h Hh; cbn [fold_left]; [exact Hh|].
    apply IH. now apply run_call_files_indexed. }
  apply H. intros id [conv Hconv]. cbn in Hconv. now rewrite lookup_empty in Hconv.
Qed.

(** A directory with one conversation, created by ["alice"] from ["windsurf"]. *)
Definition alice_calls : list call :=
  [ Create "Launch plan" "alice" "windsurf" None
           "2025-01-01" "0a1b2c3d" "2025-01-01T10:00:00Z" ].

Definition alice_id : string := "conv_2025-01-01_alice_0a1b2c3d".

Definition alice_entry : index_entry :=
  mk_entry alice_id "Launch plan" ["windsurf"]
           "2025-01-01T10:00:00Z" "2025-01-01T10:00:00Z" 0 "active" None.

Example alice_created :
  exists conv,
    files (run_calls alice_calls) !! alice_id = Some conv
    /\ owner conv = "alice"%string
    /\ status (meta conv) = "active"%string
    /\ indexed (run_calls alice_calls) = [alice_entry].
Proof.
  eexists. split; [|split; [|split]].
  - unfold run_calls, alice_calls; cbn [fold_left run_call create_conversation snd].
    unfold _update_index, _save_index; cbn [files]. apply lookup_insert_eq.
  - reflexivity.
  - reflexivity.
  - reflexivity.
Qed.

(** ** C3.  [close_conversation] rewrites the conversation file only: the
    file says ["closed"], the index still says ["active"].  After any
    history of calls, closing an existing conversation leaves it out of the
    listing for ["closed"] (which is empty) and in the listing for
    ["active"], and every listing is what it was before the call. *)
Theorem close_not_reflected_in_listing (cs : list call) (id now now' : string)
  (h' : hub) :
  close_conversation id now (run_calls cs) = (true, h') ->
  (exists conv, files h' !! id = Some conv /\ status (meta conv) = "closed"%string)
  /\ list_conversations None None "closed" now' h' = []
  /\ id ∈ map ie_id (list_conversations None None "active" now' h')
  /\ forall u s st,
       list_conversations u s st now' h' = list_conversations u s st now' (run_calls cs).
Proof.
  intros Hclose.
  assert (Hidx : index_file h' = index_file (run_calls cs)).
  { rewrite <- (close_conversation_index id now (run_calls cs)). now rewrite Hclose. }
  assert (Hfile : is_Some (files (run_calls cs) !! id)).
  { unfold close_conversation, get_conversation in Hclose.
    destruct (files (run_calls cs) !! id); [eauto|discriminate]. }
  split; [|split; [|split]].
  - unfold close_conversation in Hclose.
    destruct (get_conversation id (run_calls cs)) as [conv|]; [|discriminate].
    injection Hclose as <-. eexists. cbn [files].
    split; [apply lookup_insert_eq|reflexivity].
  - rewrite (list_conversations_index _ _ _ _ _ _ Hidx).
    unfold list_conversations. rewrite conversations_load_index.
    rewrite filter_none; [reflexivity|].
    eapply Forall_impl; [apply run_calls_as_written|].
    intros e [Hst _]. unfold keeps. now rewrite Hst.
  - rewrite (list_conversations_index _ _ _ _ _ _ Hidx).
    apply run_calls_files_indexed in Hfile.
    apply list_elem_of_In, in_map_iff in Hfile as (e & He & Hin).
    apply list_elem_of_In, in_map_iff. exists e. split; [exact He|].
    apply list_elem_of_In.
    apply (list_conversations_filters_and_sorts None None "active" now' (run_calls cs)).
    apply list_elem_of_In in Hin. split; [exact Hin|].
    pose proof (run_calls_as_written cs) as Hall. unfold index_as_written in Hall.
    rewrite Forall_forall in Hall. destruct (Hall e Hin) as [Hst _].
    unfold keeps. now rewrite Hst.
  - intros u s st. now apply list_conversations_index.
Qed.

Lemma close_not_reflected_in_listing_witness :
  (exists conv,
      files (snd (close_conversation alice_id "2025-01-02T09:00:00Z" (run_calls alice_calls)))
        !! alice_id = Some conv
      /\ status (meta conv) = "closed"%string)
  /\ list_conversations None None "closed" "2025-01-03T00:00:00Z"
       (snd (close_conversation alice_id "2025-01-02T09:00:00Z" (run_calls alice_calls)))
     = []
  /\ list_conversations None None "active" "2025-01-03T00:00:00Z"
       (snd (close_conversation alice_id "2025-01-02T09:00:00Z" (run_calls alice_calls)))
     = [alice_entry].
Proof.
  assert (Hclose :
    close_conversation alice_id "2025-01-02T09:00:00Z" (run_calls alice_calls)
    = (true, snd (close_conversation alice_id "2025-01-02T09:00:00Z"
                    (run_calls alice_calls)))).
  { unfold close_conversation, get_conversation.
    destruct alice_created as (conv & -> & _). reflexivity. }
  destruct (close_not_reflected_in_listing alice_calls alice_id
              "2025-01-02T09:00:00Z" "2025-01-03T00:00:00Z" _ Hclose)
    as (Hfile & Hclosed & _ & Hsame).
  split; [exact Hfile|]. split; [exact Hclosed|].
  rewrite Hsame. reflexivity.
Defined.

(** ** C4.  The index entries carry no owner, so a listing with an owner
    filter keeps nothing, whoever owns the indexed conversations. *)
Theorem owner_filter_keeps_nothing (cs : list call) (user_id surface_id : option string)
  (status_ now : string) :
  truthy user_id = true ->
  list_conversations user_id surface_id status_ now (run_calls cs) = [].
Proof.
  intros Hu. unfold list_conversations. rewrite conversations_load_index.
  rewrite filter_none; [reflexivity|].
  eapply Forall_impl; [apply run_calls_as_written|].
  intros e [_ Hown]. unfold keeps. rewrite Hu, Hown.
  rewrite bool_decide_eq_false_2.
  - cbn. now rewrite andb_false_r.
  - destruct user_id; [discriminate|discriminate Hu].
Qed.

Lemma owner_filter_keeps_nothing_witness :
  list_conversations None None "active" "2025-01-03T00:00:00Z" (run_calls alice_calls)
  = [alice_entry]
  /\ list_conversations (Some "alice"%string) None "active" "2025-01-03T00:00:00Z"
       (run_calls alice_calls)
     = [].
Proof.
  split; [reflexivity|].
  apply (owner_filter_keeps_nothing alice_calls (Some "alice"%string) None
           "active" "2025-01-03T00:00:00Z").
  reflexivity.
Defined.

(** *** Linked artifacts *)

(** The artifacts of a conversation with a given id. *)
Definition linked_with (artifact_id : string) (conv : conversation) : list artifact :=
  List.filter (fun a => String.eqb (art_id a) artifact_id) (artifacts conv).

(** No conversation file lists an artifact id twice. *)
Definition artifacts_deduplicated (h : hub) : Prop :=
  forall id conv, files h !! id = Some conv -> NoDup (map art_id (artifacts conv)).

Lemma existsb_false_filter {A : Type} (f : A -> bool) (l : list A) :
  existsb f l = false -> List.filter f l = [].
Proof.
  induction l as [|x l IH]; [reflexivity|]. cbn.
  destruct (f x); [discriminate|]. exact IH.
Qed.

Lemma existsb_false_not_in artifact_id (l : list artifact) :
  existsb (fun a => String.eqb (art_id a) artifact_id) l = false ->
  artifact_id ∉ map art_id l.
Proof.
  induction l as [|x l IH]; cbn; [intros _; apply not_elem_of_nil|].
  destruct (String.eqb_spec (art_id x) artifact_id) as [|Hne]; [discriminate|].
  intros H. apply not_elem_of_cons. split; [congruence|]. now apply IH.
Qed.

Lemma not_in_filter artifact_id (l : list artifact) :
  artifact_id ∉ map art_id l ->
  List.filter (fun a => String.eqb (art_id a) artifact_id) l = [].
Proof.
  induction l as [|x l IH]; [reflexivity|]. cbn [map List.filter].
  intros H. apply not_elem_of_cons in H as [Hne Hl].
  destruct (String.eqb_spec (art_id x) artifact_id); [congruence|]. now apply IH.
Qed.

Lemma existsb_true_once artifact_id (l : list artifact) :
  NoDup (map art_id l) ->
  existsb (fun a => String.eqb (art_id a) artifact_id) l = true ->
  length (List.filter (fun a => String.eqb (art_id a) artifact_id) l) = 1%nat.
Proof.
  induction l as [|x l IH]; [discriminate|]. cbn [map existsb List.filter].
  intros Hnd. apply NoDup_cons in Hnd as [Hx Hl].
  destruct (String.eqb_spec (art_id x) artifact_id) as [<-|Hne].
  - intros _. now rewrite not_in_filter.
  - cbn [orb]. now apply IH.
Qed.

Lemma link_artifact_deduplicated id ty aid title conf now h :
  artifacts_deduplicated h ->
  artifacts_deduplicated (snd (link_artifact id ty aid title conf now h)).
Proof.
  intros Hh. unfold link_artifact, get_conversation.
  destruct (files h !! id) as [conv|] eqn:Hconv; [|exact Hh].
  destruct (existsb _ (artifacts conv)) eqn:Hex; [exact Hh|].
  cbn [snd]. intros id' conv'. cbn [files].
  destruct (decide (id = id')) as [<-|Hne].
  - rewrite lookup_insert_eq. intros [= <-]. cbn [artifacts].
    rewrite map_app. cbn [map art_id]. apply NoDup_app. split; [now apply (Hh id)|].
    split; [|apply NoDup_singleton].
    intros x Hx Hx'. apply list_elem_of_singleton in Hx' as ->.
    now apply (existsb_false_not_in aid (artifacts conv)).
  - rewrite lookup_insert_ne by assumption. apply Hh.
Qed.

Lemma update_index_files id t ss now h : files (_update_index id t ss now h) = files h.
Proof. reflexivity. Qed.

Lemma run_call_deduplicated h c :
  artifacts_deduplicated h -> artifacts_deduplicated (run_call h c).
Proof.
  intros Hh. destruct c; cbn [run_call].
  - unfold create_conversation; cbn [snd]. intros id' conv'.
    rewrite update_index_files; cbn [files].
    match goal with |- <[?k := _]> _ !! _ = _ -> _ =>
      destruct (decide (k = id')) as [<-|Hne] end.
    + rewrite lookup_insert_eq. intros [= <-]. constructor.
    + rewrite lookup_insert_ne by assumption. apply Hh.
  - unfold append_message, get_conversation.
    destruct (files h !! conversation_id) as [conv|] eqn:Hconv; [|exact Hh].
    cbn [snd]. intros id' conv'. rewrite update_index_files; cbn [files].
    destruct (decide (conversation_id = id')) as [<-|Hne].
    + rewrite lookup_insert_eq. intros [= <-]. cbn [artifacts].
      now apply (Hh conversation_id).
    + rewrite lookup_insert_ne by assumption. apply Hh.
  - now apply link_artifact_deduplicated.
  - unfold close_conversation, get_conversation.
    destruct (files h !! conversation_id) as [conv|] eqn:Hconv; [|exact Hh].
    cbn [snd]. intros id' conv'. cbn [files].
    destruct (decide (conversation_id = id')) as [<-|Hne].
    + rewrite lookup_insert_eq. intros [= <-]. cbn [artifacts].
      now apply (Hh conversation_id).
    + rewrite lookup_insert_ne by assumption. apply Hh.
Qed.

Lemma run_calls_deduplicated cs : artifacts_deduplicated (run_calls cs).
Proof.
  unfold run_calls.
  assert (H : forall h, artifacts_deduplicated h ->
                        artifacts_deduplicated (fold_left run_call cs h)).
  { induction cs as [|c cs IH]; intros h Hh; cbn [fold_left]; [exact Hh|].
    apply IH. now apply run_call_deduplicated. }
  apply H. intros id conv Hl. cbn in Hl. now rewrite lookup_empty in Hl.
Qed.

Lemma link_artifact_present h id conv ty aid title conf now :
  files h !! id = Some conv ->
  existsb (fun a => String.eqb (art_id a) aid) (artifacts conv) = true ->
  link_artifact id ty aid title conf now h = (true, h).
Proof.
  intros Hconv Hex. unfold link_artifact, get_conversation. now rewrite Hconv, Hex.
Qed.

(** The conversation with one more artifact, as [link_artifact] writes it. *)
Definition with_artifact (conv : conversation) (art : artifact) (now : string)
  : conversation :=
  mk_conversation (conv_id conv) (topic conv) (owner conv) (surfaces conv)
    (tags conv) (messages conv) (artifacts conv ++ [art])
    (mk_meta (created_at (meta conv)) now (status (meta conv))
             (message_count (meta conv))).

Lemma link_artifact_absent h id conv ty aid title conf now :
  files h !! id = Some conv ->
  existsb (fun a => String.eqb (art_id a) aid) (artifacts conv) = false ->
  link_artifact id ty aid title conf now h
  = (true,
     mk_hub (<[id := with_artifact conv (mk_artifact ty aid title conf now) now]>
               (files h))
            (index_file h)).
Proof.
  intros Hconv Hex. unfold link_artifact, get_conversation. now rewrite Hconv, Hex.
Qed.

(** Linking twice, on any directory whose files list no artifact id twice. *)
Lemma link_artifact_twice h id conv ty1 aid title1 conf1 now1 ty2 title2 conf2 now2 :
  files h !! id = Some conv ->
  NoDup (map art_id (artifacts conv)) ->
  let r1 := link_artifact id ty1 aid title1 conf1 now1 h in
  let r2 := link_artifact id ty2 aid title2 conf2 now2 (snd r1) in
  fst r1 = true /\ fst r2 = true /\ snd r2 = snd r1
  /\ exists conv',
       get_conversation id (snd r2) = Some conv'
       /\ length (linked_with aid conv') = 1%nat.
Proof.
  intros Hconv Hnd r1 r2. subst r2 r1.
  destruct (existsb (fun a => String.eqb (art_id a) aid) (artifacts conv)) eqn:Hex.
  - rewrite (link_artifact_present h id conv ty1) by assumption. cbn [fst snd].
    rewrite (link_artifact_present h id conv ty2) by assumption. cbn [fst snd].
    do 3 (split; [reflexivity|]). exists conv. split; [exact Hconv|].
    now apply existsb_true_once.
  - rewrite (link_artifact_absent h id conv ty1) by assumption. cbn [fst snd].
    set (conv1 := with_artifact conv (mk_artifact ty1 aid title1 conf1 now1) now1).
    set (h1 := mk_hub (<[id := conv1]> (files h)) (index_file h)).
    assert (Hconv1 : files h1 !! id = Some conv1) by apply lookup_insert_eq.
    assert (Hex1 : existsb (fun a => String.eqb (art_id a) aid) (artifacts conv1) = true).
    { cbn [conv1 with_artifact artifacts]. rewrite existsb_app.
      cbn [existsb art_id]. rewrite String.eqb_refl. apply orb_true_r. }
    rewrite (link_artifact_present h1 id conv1 ty2) by assumption. cbn [fst snd].
    do 3 (split; [reflexivity|]). exists conv1. split; [exact Hconv1|].
    unfold linked_with. cbn [conv1 with_artifact artifacts].
    rewrite List.filter_app, (existsb_false_filter _ _ Hex).
    cbn [List.filter art_id]. now rewrite String.eqb_refl.
Qed.

(** ** C8.  After any history of calls, linking the same artifact id twice
    to an existing conversation succeeds both times, the second call leaves
    the directory as the first left it, and the conversation then holds
    exactly one artifact with that id. *)
Theorem link_artifact_idempotent (cs : list call)
  (id aid ty1 ty2 now1 now2 : string) (title1 title2 : option string)
  (conf1 conf2 : Q) :
  is_Some (get_conversation id (run_calls cs)) ->
  let r1 := link_artifact id ty1 aid title1 conf1 now1 (run_calls cs) in
  let r2 := link_artifact id ty2 aid title2 conf2 now2 (snd r1) in
  fst r1 = true /\ fst r2 = true /\ snd r2 = snd r1
  /\ exists conv',
       get_conversation id (snd r2) = Some conv'
       /\ length (linked_with aid conv') = 1%nat.
Proof.
  intros [conv Hconv].
  apply (link_artifact_twice (run_calls cs) id conv); [exact Hconv|].
  now apply (run_calls_deduplicated cs id).
Qed.

Lemma link_artifact_idempotent_witness :
  let r1 := link_artifact alice_id "decision" "lib-42" (Some "Pricing"%string) 1.0
              "2025-01-01T11:00:00Z" (run_calls alice_calls) in
  let r2 := link_artifact alice_id "knowledge" "lib-42" None 0.5
              "2025-01-01T12:00:00Z" (snd r1) in
  fst r1 = true /\ fst r2 = true /\ snd r2 = snd r1
  /\ exists conv',
       get_conversation alice_id (snd r2) = Some conv'
       /\ length (linked_with "lib-42" conv') = 1%nat.
Proof.
  apply (link_artifact_idempotent alice_calls alice_id "lib-42" "decision" "knowledge"
           "2025-01-01T11:00:00Z" "2025-01-01T12:00:00Z"
           (Some "Pricing"%string) None 1.0 0.5).
  destruct alice_created as (conv & Hconv & _). now exists conv.
Defined.

(** *** Reading messages back *)

(** The Python slice [l[start:]]. *)
Definition slice_from {A : Type} (start : Z) (l : list A) : list A :=
  let len := Z.of_nat (length l) in
  if start <? 0 then drop (Z.to_nat (Z.max (len + start) 0)) l
  else drop (Z.to_nat (Z.min start len)) l.

(** [get_messages]; [limit] is [None] or an integer, and [if limit:] is
    false for [None] and for [0]. *)
Definition get_messages (conversation_id : string) (limit : option Z) (h : hub)
  : list message :=
  match get_conversation conversation_id h with
  | None => []
  | Some conv =>
      let messages_ := messages conv in
      match limit with
      | Some n => if n =? 0 then messages_ else slice_from (- n) messages_
      | None => messages_
      end
  end.

(** ** X10.  [get_messages] on an existing conversation: without a limit, or
    with limit 0, every message; with a positive limit [n] the last [n]
    messages in order (all of them when there are fewer); with a negative
    limit [n] the messages without the oldest [-n]. *)
Theorem get_messages_window (id : string) (limit : option Z) (h : hub)
  (conv : conversation) :
  get_conversation id h = Some conv ->
  let out := get_messages id limit h in
  let count := length (messages conv) in
  match limit with
  | None => out = messages conv
  | Some n =>
      (n = 0 -> out = messages conv)
      /\ (0 < n -> out = drop (count - Z.to_nat n) (messages conv)
                   /\ length out = Nat.min (Z.to_nat n) count)
      /\ (n < 0 -> out = drop (Z.to_nat (- n)) (messages conv))
  end.
Proof.
  intros Hconv out count. subst out. unfold get_messages. rewrite Hconv.
  destruct limit as [n|]; [|reflexivity]. cbn zeta.
  split; [|split].
  - intros ->. reflexivity.
  - intros Hn. destruct (Z.eqb_spec n 0) as [|_]; [lia|].
    unfold slice_from. destruct (Z.ltb_spec (- n) 0) as [_|]; [|lia].
    fold count.
    replace (Z.to_nat (Z.max (Z.of_nat count + - n) 0)) with (count - Z.to_nat n)%nat
      by lia.
    split; [reflexivity|]. rewrite length_drop. fold count. lia.
  - intros Hn. destruct (Z.eqb_spec n 0) as [|_]; [lia|].
    unfold slice_from. destruct (Z.ltb_spec (- n) 0) as [|_]; [lia|].
    fold count.
    destruct (Z.min_spec (- n) (Z.of_nat count)) as [[_ ->]|[Hle ->]]; [reflexivity|].
    rewrite Nat2Z.id. rewrite !drop_ge; [reflexivity|lia|unfold count; lia].
Qed.

(** A directory with two conversations and three messages in the first. *)
Definition bob_id : string := "conv_2025-01-01_bob_11223344".

Definition chat_calls : list call :=
  alice_calls
  ++ [ Create "Budget" "bob" "goose" (Some ["finance"]) "2025-01-01" "11223344"
              "2025-01-01T10:00:30Z";
       Append alice_id "user" "hi" "windsurf" None None "m1" "2025-01-01T10:01:00Z";
       Append alice_id "assistant" "hello" "windsurf" (Some "advisor") None "m2"
              "2025-01-01T10:02:00Z";
       Append alice_id "user" "thanks" "browser_ext" None None "m3"
              "2025-01-01T10:03:00Z" ].

Lemma chat_alice :
  exists conv,
    get_conversation alice_id (run_calls chat_calls) = Some conv
    /\ map msg_id (messages conv) = ["m1"; "m2"; "m3"].
Proof.
  eexists. split; [vm_compute; reflexivity|reflexivity].
Qed.

Lemma get_messages_window_witness :
  map msg_id (get_messages alice_id (Some 2) (run_calls chat_calls)) = ["m2"; "m3"].
Proof.
  destruct chat_alice as (conv & Hconv & Hids).
  pose proof (get_messages_window alice_id (Some 2) (run_calls chat_calls) conv Hconv)
    as (_ & Hpos & _).
  destruct (Hpos ltac:(lia)) as [-> _].
  rewrite <- skipn_map.
  rewrite <- (length_map msg_id), Hids. reflexivity.
Defined.

(** *** Appending and reading *)

(** The conversation with one more message, as [append_message] writes it. *)
Definition with_message (conv : conversation) (msg : message) : conversation :=
  mk_conversation (conv_id conv) (topic conv) (owner conv)
    (if bool_decide (msg_surface msg ∈ surfaces conv) then surfaces conv
     else surfaces conv ++ [msg_surface msg])
    (tags conv) (messages conv ++ [msg]) (artifacts conv)
    (mk_meta (created_at (meta conv)) (msg_timestamp msg) (status (meta conv))
             (length (messages conv ++ [msg]))).





(** *** What a call does to the files and to the index *)

Lemma run_calls_snoc cs c : run_calls (cs ++ [c]) = run_call (run_calls cs) c.
Proof. unfold run_calls. now rewrite fold_left_app. Qed.

Lemma run_calls_ind (P : hub -> Prop) :
  P empty_hub -> (forall h c, P h -> P (run_call h c)) -> forall cs, P (run_calls cs).
Proof.
  intros H0 Hstep cs. induction cs as [|c cs IH] using rev_ind; [exact H0|].
  rewrite run_calls_snoc. now apply Hstep.
Qed.

(** The id [create_conversation] builds, and the file it writes. *)
Definition new_id (today user_id uuid8 : string) : string :=
  ("conv_" ++ today ++ "_" ++ user_id ++ "_" ++ uuid8)%string.

Definition new_conversation (topic_ user_id surface_id : string)
  (tags_ : option (list string)) (today uuid8 now : string) : conversation :=
  mk_conversation (new_id today user_id uuid8) topic_ user_id [surface_id]
                  (default [] tags_) [] [] (mk_meta now now "active" 0).

(** The conversation as [close_conversation] writes it. *)
Definition closed (conv : conversation) (now : string) : conversation :=
  mk_conversation (conv_id conv) (topic conv) (owner conv) (surfaces conv)
    (tags conv) (messages conv) (artifacts conv)
    (mk_meta (created_at (meta conv)) now "closed" (message_count (meta conv))).

(** The id a call creates, if it is a creation. *)
Definition created_id (c : call) : option string :=
  match c with
  | Create _ user_id _ _ today uuid8 _ => Some (new_id today user_id uuid8)
  | _ => None
  end.

(** *** Ids that name a file of their own

    [_get_conversation_path] turns an id into the path [root/<id>.json], and
    the finite map [files] stands for the directory as long as different ids
    are different files.  That holds for the ids without a path separator
    (and without the NUL character, which no path may hold) other than
    ["index"]: with a separator the path leaves the directory or reaches
    another id's file (["./" ++ id] is the file of [id]), and [open] fails
    when the directory in front of the separator does not exist; the id
    ["index"] is the path of [index.json].  The histories below are read on
    the calls whose ids are of this kind. *)
Definition file_name_char (c : ascii) : bool :=
  negb (Ascii.eqb c "/") && negb (Ascii.eqb c "000").

Fixpoint file_name_chars (s : string) : bool :=
  match s with
  | EmptyString => true
  | String c s' => file_name_char c && file_name_chars s'
  end.

Definition flat_id (id : string) : bool :=
  file_name_chars id && negb (String.eqb id "index").

(** The id a call passes to [_get_conversation_path] is flat. *)
Definition flat_call (c : call) : bool :=
  match c with
  | Create _ user_id _ _ today uuid8 _ => flat_id (new_id today user_id uuid8)
  | Append conversation_id _ _ _ _ _ _ _ => flat_id conversation_id
  | Link conversation_id _ _ _ _ _ => flat_id conversation_id
  | Close conversation_id _ => flat_id conversation_id
  end.

Lemma create_conversation_id t u s tg today uuid8 now h :
  fst (create_conversation t u s tg today uuid8 now h) = new_id today u uuid8.
Proof. reflexivity. Qed.

(** Each call leaves the files alone or rewrites one of them. *)
Lemma run_call_files h c :
  match c with
  | Create t u s tg today uuid8 now =>
      files (run_call h c)
      = <[new_id today u uuid8 := new_conversation t u s tg today uuid8 now]> (files h)
  | Append id role content s mode md uuid now =>
      match files h !! id with
      | Some conv =>
          files (run_call h c)
          = <[id := with_message conv
                      (mk_message uuid role content s mode now (default [] md))]>
              (files h)
      | None => run_call h c = h
      end
  | Link id ty aid title conf now =>
      match files h !! id with
      | Some conv =>
          if existsb (fun a => String.eqb (art_id a) aid) (artifacts conv)
          then run_call h c = h
          else files (run_call h c)
               = <[id := with_artifact conv (mk_artifact ty aid title conf now) now]>
                   (files h)
      | None => run_call h c = h
      end
  | Close id now =>
      match files h !! id with
      | Some conv => files (run_call h c) = <[id := closed conv now]> (files h)
      | None => run_call h c = h
      end
  end.
Proof.
  destruct c; cbn [run_call].
  - reflexivity.
  - unfold append_message, get_conversation.
    destruct (files h !! conversation_id); reflexivity.
  - unfold link_artifact, get_conversation.
    destruct (files h !! conversation_id) as [conv|]; [|reflexivity].
    destruct (existsb _ _); reflexivity.
  - unfold close_conversation, get_conversation.
    destruct (files h !! conversation_id); reflexivity.
Qed.

(** A property of single files that every rewrite keeps holds of every file
    after the call. *)
Lemma run_call_file_inv (P : string -> conversation -> Prop) h c :
  (forall id conv msg, P id conv -> P id (with_message conv msg)) ->
  (forall id conv art now, P id conv -> P id (with_artifact conv art now)) ->
  (forall id conv now, P id conv -> P id (closed conv now)) ->
  (forall t u s tg today uuid8 now,
      c = Create t u s tg today uuid8 now ->
      P (new_id today u uuid8) (new_conversation t u s tg today uuid8 now)) ->
  (forall id conv, files h !! id = Some conv -> P id conv) ->
  forall id conv, files (run_call h c) !! id = Some conv -> P id conv.
Proof.
  intros Hmsg Hart Hclose Hnew Hh id conv.
  pose proof (run_call_files h c) as Hfiles.
  destruct c.
  - rewrite Hfiles.
    destruct (decide (new_id today user_id uuid8 = id)) as [<-|Hne].
    + rewrite lookup_insert_eq. intros [= <-]. now apply (Hnew _ _ _ _ _ _ _ eq_refl).
    + rewrite lookup_insert_ne by assumption. apply Hh.
  - destruct (files h !! conversation_id) as [conv0|] eqn:E;
      [rewrite Hfiles|rewrite Hfiles; apply Hh].
    destruct (decide (conversation_id = id)) as [<-|Hne].
    + rewrite lookup_insert_eq. intros [= <-]. apply Hmsg. now apply Hh.
    + rewrite lookup_insert_ne by assumption. apply Hh.
  - destruct (files h !! conversation_id) as [conv0|] eqn:E;
      [|rewrite Hfiles; apply Hh].
    destruct (existsb _ _); rewrite Hfiles; [apply Hh|].
    destruct (decide (conversation_id = id)) as [<-|Hne].
    + rewrite lookup_insert_eq. intros [= <-]. apply Hart. now apply Hh.
    + rewrite lookup_insert_ne by assumption. apply Hh.
  - destruct (files h !! conversation_id) as [conv0|] eqn:E;
      [rewrite Hfiles|rewrite Hfiles; apply Hh].
    destruct (decide (conversation_id = id)) as [<-|Hne].
    + rewrite lookup_insert_eq. intros [= <-]. apply Hclose. now apply Hh.
    + rewrite lookup_insert_ne by assumption. apply Hh.
Qed.

(** A file exists after a call exactly when it existed before or the call
    created it. *)
Lemma run_call_file_exists h c id :
  is_Some (files (run_call h c) !! id)
  <-> is_Some (files h !! id) \/ created_id c = Some id.
Proof.
  pose proof (run_call_files h c) as Hfiles.
  assert (Hsame : forall k (v : conversation),
             is_Some (files h !! k) ->
             (is_Some (<[k := v]> (files h) !! id) <-> is_Some (files h !! id))).
  { intros k v Hk. destruct (decide (k = id)) as [<-|Hne].
    - rewrite lookup_insert_eq. split; [intros _; exact Hk|eauto].
    - now rewrite lookup_insert_ne by assumption. }
  destruct c; cbn [created_id].
  - rewrite Hfiles. destruct (decide (new_id today user_id uuid8 = id)) as [<-|Hne].
    + rewrite lookup_insert_eq. split; [now right|eauto].
    + rewrite lookup_insert_ne by assumption.
      split; [now left|]. intros [H|[= H]]; [exact H|contradiction].
  - destruct (files h !! conversation_id) as [conv0|] eqn:E; rewrite Hfiles.
    + rewrite (Hsame conversation_id) by (rewrite E; eauto).
      split; [now left|]. now intros [H|[=]].
    + split; [now left|]. now intros [H|[=]].
  - destruct (files h !! conversation_id) as [conv0|] eqn:E;
      [destruct (existsb _ _)|]; rewrite Hfiles.
    + split; [now left|]. now intros [H|[=]].
    + rewrite (Hsame conversation_id) by (rewrite E; eauto).
      split; [now left|]. now intros [H|[=]].
    + split; [now left|]. now intros [H|[=]].
  - destruct (files h !! conversation_id) as [conv0|] eqn:E; rewrite Hfiles.
    + rewrite (Hsame conversation_id) by (rewrite E; eauto).
      split; [now left|]. now intros [H|[=]].
    + split; [now left|]. now intros [H|[=]].
Qed.

(** Each call leaves the index alone or runs [_update_index] for a
    conversation whose file exists after the call. *)
Lemma run_call_index h c :
  indexed (run_call h c) = indexed h
  \/ exists id t ss now,
       is_Some (files (run_call h c) !! id)
       /\ indexed (run_call h c)
          = match touch_entry id ss now (indexed h) with
            | Some entries' => entries'
            | None => indexed h ++ [mk_entry id t ss now now 0 "active" None]
            end.
Proof.
  destruct c; cbn [run_call].
  - right. unfold create_conversation; cbn [snd].
    eexists _, _, _, _. split; [|rewrite update_index_ids; reflexivity].
    rewrite update_index_files. cbn [files]. rewrite lookup_insert_eq. eauto.
  - unfold append_message, get_conversation.
    destruct (files h !! conversation_id) as [conv|]; [|now left].
    right. cbn [snd]. eexists _, _, _, _. split; [|rewrite update_index_ids; reflexivity].
    rewrite update_index_files. cbn [files]. rewrite lookup_insert_eq. eauto.
  - left. unfold link_artifact.
    destruct (get_conversation conversation_id h); [|reflexivity].
    destruct (existsb _ _); reflexivity.
  - left. unfold close_conversation.
    destruct (get_conversation conversation_id h); reflexivity.
Qed.

(** The first entry with the id is the one [touch_entry] rewrites. *)
Definition touched (e : index_entry) (new_surfaces : list string) (now : string)
  : index_entry :=
  mk_entry (ie_id e) (ie_topic e) (remove_dups (ie_surfaces e ++ new_surfaces))
           (ie_created_at e) now (ie_message_count e) (ie_status e) (ie_owner e).

Lemma touch_entry_Some id ss now entries entries' :
  touch_entry id ss now entries = Some entries' ->
  exists pre e post,
    entries = pre ++ e :: post /\ ie_id e = id /\ (id ∉ map ie_id pre)
    /\ entries' = pre ++ touched e ss now :: post.
Proof.
  revert entries'. induction entries as [|x rest IH]; intros entries'; [discriminate|].
  cbn [touch_entry]. destruct (String.eqb_spec (ie_id x) id) as [Hx|Hx].
  - intros [= <-]. exists [], x, rest. cbn [map app].
    split; [reflexivity|]. split; [exact Hx|]. split; [apply not_elem_of_nil|reflexivity].
  - destruct (touch_entry id ss now rest) as [rest'|]; [|discriminate].
    intros [= <-]. destruct (IH rest' eq_refl) as (pre & e & post & -> & He & Hpre & ->).
    exists (x :: pre), e, post. cbn [map app].
    split; [reflexivity|]. split; [exact He|]. split; [|reflexivity].
    apply not_elem_of_cons. split; [congruence|exact Hpre].
Qed.

Lemma touch_entry_None id ss now entries :
  touch_entry id ss now entries = None -> id ∉ map ie_id entries.
Proof.
  intros E Hin. destruct (touch_entry_found id ss now entries Hin) as [x Hx]. congruence.
Qed.

(** *** Invariants of the stored documents *)

(** ** X12.  After any history of calls every conversation file is stored
    under its own id and its [message_count] is the number of its messages,
    while every entry of the index still reports [message_count] 0:
    [_update_index] writes 0 when it adds an entry and never changes it. *)
Theorem stored_message_counts (cs : list call) :
  (forall id conv,
      files (run_calls cs) !! id = Some conv ->
      conv_id conv = id /\ message_count (meta conv) = length (messages conv))
  /\ Forall (fun e => ie_message_count e = 0%nat) (indexed (run_calls cs)).
Proof.
  split.
  - induction cs as [|c cs IH] using rev_ind.
    + intros id conv H. cbn in H. now rewrite lookup_empty in H.
    + rewrite run_calls_snoc.
      apply (run_call_file_inv
               (fun id conv => conv_id conv = id
                               /\ message_count (meta conv) = length (messages conv)));
        [| | | |exact IH].
      * intros id conv msg [Hid _]. split; [exact Hid|reflexivity].
      * intros id conv art now [Hid Hcount]. split; [exact Hid|exact Hcount].
      * intros id conv now [Hid Hcount]. split; [exact Hid|exact Hcount].
      * intros. split; reflexivity.
  - apply (run_calls_ind
             (fun h => Forall (fun e => ie_message_count e = 0%nat) (indexed h)));
      [constructor|].
    intros h c Hh. destruct (run_call_index h c) as [->|(id & t & ss & now & _ & ->)];
      [exact Hh|].
    destruct (touch_entry id ss now (indexed h)) as [entries'|] eqn:E.
    + apply touch_entry_Some in E as (pre & e & post & Hsplit & _ & _ & ->).
      rewrite Hsplit in Hh. apply Forall_app in Hh as [Hpre Hpost].
      apply Forall_cons_1 in Hpost as [He Hpost].
      apply Forall_app. split; [exact Hpre|]. constructor; [exact He|exact Hpost].
    + apply Forall_app. split; [exact Hh|]. now repeat constructor.
Qed.

Lemma run_calls_index_nodup cs : NoDup (map ie_id (indexed (run_calls cs))).
Proof.
  apply (run_calls_ind (fun h => NoDup (map ie_id (indexed h)))); [constructor|].
  intros h c Hh. destruct (run_call_index h c) as [->|(id & t & ss & now & _ & ->)];
    [exact Hh|].
  destruct (touch_entry id ss now (indexed h)) as [entries'|] eqn:E.
  - now rewrite (touch_entry_ids _ _ _ _ _ E).
  - rewrite map_app. cbn [map ie_id]. apply NoDup_app. split; [exact Hh|].
    split; [|apply NoDup_singleton].
    intros x Hx Hx'. apply list_elem_of_singleton in Hx' as ->.
    now apply (touch_entry_None _ _ _ _ E).
Qed.

Lemma run_calls_indexed_files cs id :
  id ∈ map ie_id (indexed (run_calls cs)) -> is_Some (files (run_calls cs) !! id).
Proof.
  revert id.
  apply (run_calls_ind
           (fun h => forall id, id ∈ map ie_id (indexed h) -> is_Some (files h !! id))).
  - intros id Hin. now apply elem_of_nil in Hin.
  - intros h c Hh id.
    destruct (run_call_index h c) as [->|(id0 & t & ss & now & Hfile & ->)].
    + intros Hin. apply run_call_file_exists. left. now apply Hh.
    + destruct (touch_entry id0 ss now (indexed h)) as [entries'|] eqn:E.
      * rewrite (touch_entry_ids _ _ _ _ _ E). intros Hin.
        apply run_call_file_exists. left. now apply Hh.
      * rewrite map_app. cbn [map ie_id]. intros Hin.
        apply elem_of_app in Hin as [Hin|Hin].
        -- apply run_call_file_exists. left. now apply Hh.
        -- apply list_elem_of_singleton in Hin as ->. exact Hfile.
Qed.

(** ** X13.  After any history of calls on flat ids (no path separator,
    not ["index"]) the index lists the conversation files one to one: no id
    occurs twice in it, and an id occurs in it exactly when the conversation
    file exists. *)
Theorem index_lists_each_file_once (cs : list call) :
  forallb flat_call cs = true ->
  NoDup (map ie_id (indexed (run_calls cs)))
  /\ forall id,
       id ∈ map ie_id (indexed (run_calls cs)) <-> is_Some (files (run_calls cs) !! id).
Proof.
  intros _. split; [apply run_calls_index_nodup|].
  intros id. split; [apply run_calls_indexed_files|apply run_calls_files_indexed].
Qed.

Lemma index_lists_each_file_once_witness :
  forallb flat_call chat_calls = true
  /\ map ie_id (indexed (run_calls chat_calls)) = [alice_id; bob_id]
  /\ NoDup (map ie_id (indexed (run_calls chat_calls)))
  /\ is_Some (files (run_calls chat_calls) !! bob_id).
Proof.
  split; [reflexivity|]. split; [reflexivity|].
  destruct (index_lists_each_file_once chat_calls eq_refl) as [Hnodup Hiff].
  split; [exact Hnodup|].
  apply Hiff. apply list_elem_of_further, list_elem_of_here.
Defined.

(** *** Ids that were never created *)




(** *** What later calls keep of a conversation *)

(** [conv'] is [conv] after some rewrites: same identity, nothing removed,
    and not reopened. *)
Definition evolves (conv conv' : conversation) : Prop :=
  conv_id conv' = conv_id conv
  /\ topic conv' = topic conv
  /\ owner conv' = owner conv
  /\ tags conv' = tags conv
  /\ created_at (meta conv') = created_at (meta conv)
  /\ surfaces conv `prefix_of` surfaces conv'
  /\ messages conv `prefix_of` messages conv'
  /\ artifacts conv `prefix_of` artifacts conv'
  /\ (status (meta conv) = "closed"%string -> status (meta conv') = "closed"%string).

Lemma evolves_refl conv : evolves conv conv.
Proof. unfold evolves. now repeat split. Qed.

Lemma evolves_trans a b c : evolves a b -> evolves b c -> evolves a c.
Proof.
  unfold evolves.
  intros (H1 & H2 & H3 & H4 & H5 & H6 & H7 & H8 & H9)
         (K1 & K2 & K3 & K4 & K5 & K6 & K7 & K8 & K9).
  split; [congruence|]. split; [congruence|]. split; [congruence|].
  split; [congruence|]. split; [congruence|].
  split; [now transitivity (surfaces b)|].
  split; [now transitivity (messages b)|].
  split; [now transitivity (artifacts b)|].
  intros Hs. now apply K9, H9.
Qed.

Lemma run_call_evolves h c id conv :
  files h !! id = Some conv ->
  created_id c <> Some id ->
  exists conv', files (run_call h c) !! id = Some conv' /\ evolves conv conv'.
Proof.
  intros Hconv Hnew. pose proof (run_call_files h c) as Hfiles.
  assert (Hother : forall k (v : conversation),
             k <> id -> <[k := v]> (files h) !! id = Some conv).
  { intros k v Hne. now rewrite lookup_insert_ne by assumption. }
  destruct c; cbn [created_id] in Hnew.
  - rewrite Hfiles. exists conv. split; [|apply evolves_refl].
    apply Hother. congruence.
  - destruct (decide (conversation_id = id)) as [->|Hne].
    + rewrite Hconv in Hfiles. rewrite Hfiles, lookup_insert_eq. eexists.
      split; [reflexivity|]. unfold evolves, with_message; cbn.
      do 5 (split; [reflexivity|]).
      split; [case_bool_decide; [reflexivity|now apply prefix_app_r]|].
      split; [now apply prefix_app_r|]. split; [reflexivity|]. trivial.
    + exists conv. split; [|apply evolves_refl].
      destruct (files h !! conversation_id); rewrite Hfiles; [now apply Hother|exact Hconv].
  - destruct (decide (conversation_id = id)) as [->|Hne].
    + rewrite Hconv in Hfiles.
      destruct (existsb _ _).
      * rewrite Hfiles. exists conv. split; [exact Hconv|apply evolves_refl].
      * rewrite Hfiles, lookup_insert_eq. eexists.
        split; [reflexivity|]. unfold evolves, with_artifact; cbn.
        do 7 (split; [reflexivity|]). split; [now apply prefix_app_r|]. trivial.
    + exists conv. split; [|apply evolves_refl].
      destruct (files h !! conversation_id) as [conv0|]; [|now rewrite Hfiles].
      destruct (existsb _ _); rewrite Hfiles; [exact Hconv|now apply Hother].
  - destruct (decide (conversation_id = id)) as [->|Hne].
    + rewrite Hconv in Hfiles. rewrite Hfiles, lookup_insert_eq. eexists.
      split; [reflexivity|]. unfold evolves, closed; cbn.
      do 8 (split; [reflexivity|]). trivial.
    + exists conv. split; [|apply evolves_refl].
      destruct (files h !! conversation_id); rewrite Hfiles; [now apply Hother|exact Hconv].
Qed.

(** ** X15.  No call takes anything back.  Through any later calls that do
    not create the same id again, a conversation keeps its id, topic, owner,
    tags and creation time; its surfaces, messages and artifacts only grow
    at the end; and once its status is ["closed"] it stays ["closed"], since
    no call writes another status. *)
Theorem conversation_only_grows (h : hub) (id : string) (conv : conversation)
  (cs : list call) :
  files h !! id = Some conv ->
  Forall (fun c => created_id c <> Some id) cs ->
  exists conv',
    files (fold_left run_call cs h) !! id = Some conv' /\ evolves conv conv'.
Proof.
  revert h conv. induction cs as [|c cs IH]; intros h conv Hconv Hcs.
  - exists conv. split; [exact Hconv|apply evolves_refl].
  - apply Forall_cons_1 in Hcs as [Hc Hcs]. cbn [fold_left].
    destruct (run_call_evolves h c id conv Hconv Hc) as (conv1 & Hconv1 & Hev1).
    destruct (IH _ _ Hconv1 Hcs) as (conv' & Hconv' & Hev').
    exists conv'. split; [exact Hconv'|]. now apply (evolves_trans conv conv1).
Qed.

(** Closing the first conversation of [chat_calls], then more traffic. *)
Definition after_close_calls : list call :=
  [ Append alice_id "user" "still there?" "mobile" None None "m4" "2025-01-02T10:00:00Z";
    Link alice_id "decision" "lib-42" None 1.0 "2025-01-02T10:01:00Z";
    Create "Other" "bob" "goose" None "2025-01-02" "55667788" "2025-01-02T10:02:00Z" ].

Lemma conversation_only_grows_witness :
  exists conv',
    files (fold_left run_call after_close_calls
             (snd (close_conversation alice_id "2025-01-02T09:00:00Z"
                     (run_calls chat_calls)))) !! alice_id = Some conv'
    /\ status (meta conv') = "closed"%string
    /\ map msg_id (messages conv') = ["m1"; "m2"; "m3"; "m4"].
Proof.
  assert (Hclosed :
    exists conv,
      files (snd (close_conversation alice_id "2025-01-02T09:00:00Z"
                    (run_calls chat_calls))) !! alice_id = Some conv
      /\ status (meta conv) = "closed"%string).
  { eexists. split; [vm_compute; reflexivity|reflexivity]. }
  destruct Hclosed as (conv & Hconv & Hst).
  destruct (conversation_only_grows _ alice_id conv after_close_calls Hconv)
    as (conv' & Hconv' & Hev).
  { repeat constructor; cbn [created_id]; intros [= H]; vm_compute in H; discriminate. }
  exists conv'. split; [exact Hconv'|].
  split; [now apply Hev|].
  vm_compute in Hconv'. injection Hconv' as <-. reflexivity.
Defined.

(** *** Listings after an append *)

(** What [_update_index] leaves in the index: an entry for the id, stamped
    with the time of the call and holding every surface passed, and apart
    from it only entries that were there before. *)
Lemma update_index_entry id t ss now h :
  exists e,
    e ∈ indexed (_update_index id t ss now h)
    /\ ie_id e = id /\ ie_updated_at e = now
    /\ (forall s, s ∈ ss -> s ∈ ie_surfaces e)
    /\ forall e', e' ∈ indexed (_update_index id t ss now h) ->
                  e' = e \/ e' ∈ indexed h.
Proof.
  rewrite update_index_ids.
  destruct (touch_entry id ss now (indexed h)) as [entries'|] eqn:E.
  - apply touch_entry_Some in E as (pre & e & post & Hsplit & He & _ & ->).
    exists (touched e ss now).
    split; [apply elem_of_app; right; apply list_elem_of_here|].
    split; [exact He|]. split; [reflexivity|]. split.
    + intros s Hs. cbn [touched ie_surfaces]. apply elem_of_remove_dups, elem_of_app.
      now right.
    + intros e' Hin. rewrite Hsplit.
      apply elem_of_app in Hin as [Hin|Hin]; [right; apply elem_of_app; now left|].
      apply elem_of_cons in Hin as [->|Hin]; [now left|].
      right. apply elem_of_app. right. now apply list_elem_of_further.
  - exists (mk_entry id t ss now now 0 "active" None).
    split; [apply elem_of_app; right; apply list_elem_of_here|].
    do 2 (split; [reflexivity|]). split; [intros s Hs; exact Hs|].
    intros e' Hin. apply elem_of_app in Hin as [Hin|Hin]; [now right|].
    apply list_elem_of_singleton in Hin. now left.
Qed.

(** The index after a successful [append_message]. *)
Lemma append_message_index h id role content s mode md uuid now h' :
  append_message id role content s mode md uuid now h = (true, h') ->
  exists e,
    e ∈ indexed h' /\ ie_id e = id /\ ie_updated_at e = now /\ s ∈ ie_surfaces e
    /\ forall e', e' ∈ indexed h' -> e' = e \/ e' ∈ indexed h.
Proof.
  unfold append_message.
  destruct (get_conversation id h) as [conv|]; [|discriminate].
  intros [= <-].
  match goal with |- context [_update_index id ?t ?ss now ?h1] =>
    destruct (update_index_entry id t ss now h1) as (e & Hin & Hid & Hat & Hss & Hrest)
  end.
  exists e. split; [exact Hin|]. split; [exact Hid|]. split; [exact Hat|].
  split; [|exact Hrest].
  apply Hss. case_bool_decide; [assumption|].
  apply elem_of_app. right. apply list_elem_of_here.
Qed.

Lemma append_message_is_call h id role content s mode md uuid now :
  snd (append_message id role content s mode md uuid now h)
  = run_call h (Append id role content s mode md uuid now).
Proof. reflexivity. Qed.

Lemma keeps_as_written s e :
  ie_status e = "active"%string ->
  (forall x, s = Some x -> x ∈ ie_surfaces e) ->
  keeps None s "active" e = true.
Proof.
  intros Hst Hs. unfold keeps. rewrite Hst. cbn.
  destruct s as [x|]; [|reflexivity]. cbn.
  rewrite bool_decide_eq_true_2 by now apply Hs.
  now rewrite andb_false_r.
Qed.

(** ** X16.  After any history of calls, a successful [append_message] from
    a surface puts the conversation in the listing for that surface (and in
    the unfiltered listing of active conversations), with the time of the
    append as its [updated_at]. *)
Theorem appended_conversation_listed_for_surface (cs : list call)
  (id role content s : string) (mode : option string)
  (md : option (list (string * string))) (uuid now now' : string) (h' : hub) :
  append_message id role content s mode md uuid now (run_calls cs) = (true, h') ->
  exists e,
    ie_id e = id /\ ie_updated_at e = now
    /\ e ∈ list_conversations None (Some s) "active" now' h'
    /\ e ∈ list_conversations None None "active" now' h'.
Proof.
  intros Happ.
  destruct (append_message_index _ _ _ _ _ _ _ _ _ _ Happ)
    as (e & Hin & Hid & Hat & Hs & _).
  assert (Hh' : h' = run_calls (cs ++ [Append id role content s mode md uuid now])).
  { rewrite run_calls_snoc, <- append_message_is_call. now rewrite Happ. }
  assert (Hst : ie_status e = "active"%string).
  { pose proof (run_calls_as_written
                  (cs ++ [Append id role content s mode md uuid now])) as Hall.
    rewrite <- Hh' in Hall. unfold index_as_written in Hall.
    rewrite Forall_forall in Hall. now apply Hall. }
  exists e. split; [exact Hid|]. split; [exact Hat|]. split.
  - apply (list_conversations_filters_and_sorts None (Some s) "active" now' h').
    split; [exact Hin|]. apply keeps_as_written; [exact Hst|].
    now intros x [= <-].
  - apply (list_conversations_filters_and_sorts None None "active" now' h').
    split; [exact Hin|]. apply keeps_as_written; [exact Hst|discriminate].
Qed.

Lemma appended_conversation_listed_for_surface_witness :
  alice_id ∈ map ie_id
    (list_conversations None (Some "mobile"%string) "active" "2025-01-03T00:00:00Z"
       (snd (append_message alice_id "user" "one more" "mobile" None None
               "m4" "2025-01-01T10:04:00Z" (run_calls chat_calls)))).
Proof.
  destruct (appended_conversation_listed_for_surface chat_calls alice_id "user"
              "one more" "mobile" None None "m4" "2025-01-01T10:04:00Z"
              "2025-01-03T00:00:00Z"
              (snd (append_message alice_id "user" "one more" "mobile" None None
                      "m4" "2025-01-01T10:04:00Z" (run_calls chat_calls))))
    as (e & Hid & _ & Hin & _).
  - destruct chat_alice as (conv & Hconv & _).
    unfold append_message. rewrite Hconv. reflexivity.
  - apply list_elem_of_In, in_map_iff. exists e.
    split; [exact Hid|apply list_elem_of_In, Hin].
Defined.

Lemma NoDup_map_eq {A B : Type} (f : A -> B) (l : list A) (x y : A) :
  NoDup (map f l) -> x ∈ l -> y ∈ l -> f x = f y -> x = y.
Proof.
  induction l as [|a l IH]; cbn [map]; intros Hnd Hx Hy Hf.
  - now apply elem_of_nil in Hx.
  - apply NoDup_cons in Hnd as [Ha Hnd].
    apply elem_of_cons in Hx as [->|Hx]; apply elem_of_cons in Hy as [->|Hy].
    + reflexivity.
    + exfalso. apply Ha. rewrite Hf. apply list_elem_of_In, in_map, list_elem_of_In, Hy.
    + exfalso. apply Ha. rewrite <- Hf. apply list_elem_of_In, in_map, list_elem_of_In, Hx.
    + now apply IH.
Qed.

(** ** X17.  After any history of calls, when a message is appended at a
    time later than the [updated_at] of every other indexed conversation,
    the listing of active conversations starts with the conversation just
    written to. *)
Theorem latest_append_listed_first (cs : list call)
  (id role content s : string) (mode : option string)
  (md : option (list (string * string))) (uuid now now' : string) (h' : hub) :
  append_message id role content s mode md uuid now (run_calls cs) = (true, h') ->
  (forall e, e ∈ indexed (run_calls cs) -> ie_id e <> id ->
             String.ltb (ie_updated_at e) now = true) ->
  exists e rest,
    list_conversations None None "active" now' h' = e :: rest
    /\ ie_id e = id /\ ie_updated_at e = now.
Proof.
  intros Happ Hlater.
  destruct (append_message_index _ _ _ _ _ _ _ _ _ _ Happ)
    as (e0 & Hin0 & Hid0 & Hat0 & _ & Hrest).
  assert (Hh' : h' = run_calls (cs ++ [Append id role content s mode md uuid now])).
  { rewrite run_calls_snoc, <- append_message_is_call. now rewrite Happ. }
  assert (Hall : index_as_written h') by (rewrite Hh'; apply run_calls_as_written).
  assert (Hnd : NoDup (map ie_id (indexed h'))) by (rewrite Hh'; apply run_calls_index_nodup).
  unfold index_as_written in Hall. rewrite Forall_forall in Hall.
  destruct (list_conversations_filters_and_sorts None None "active" now' h')
    as (Hmem & _ & Hsorted & _).
  assert (Hout0 : e0 ∈ list_conversations None None "active" now' h').
  { apply Hmem. split; [exact Hin0|].
    apply keeps_as_written; [now apply Hall|discriminate]. }
  destruct (list_conversations None None "active" now' h') as [|x rest] eqn:Hout.
  { now apply elem_of_nil in Hout0. }
  exists x, rest. split; [reflexivity|].
  assert (Hx : x ∈ indexed h') by (apply Hmem, list_elem_of_here).
  assert (Hxe : x = e0).
  { destruct (decide (ie_id x = id)) as [Hidx|Hidx].
    - apply (NoDup_map_eq ie_id (indexed h')); [assumption..|congruence].
    - exfalso. destruct (Hrest x Hx) as [->|Hold]; [congruence|].
      specialize (Hlater x Hold Hidx).
      apply elem_of_cons in Hout0 as [->|Hrest0]; [congruence|].
      apply StronglySorted_inv in Hsorted as [_ Hhead].
      rewrite Forall_forall in Hhead. specialize (Hhead e0 Hrest0). cbn beta in Hhead.
      rewrite Hat0 in Hhead. congruence. }
  rewrite Hxe. split; [exact Hid0|exact Hat0].
Qed.

Lemma latest_append_listed_first_witness :
  exists e rest,
    list_conversations None None "active" "2025-01-03T00:00:00Z"
      (snd (append_message bob_id "user" "numbers?" "goose" None None
              "m5" "2025-01-01T10:05:00Z" (run_calls chat_calls)))
    = e :: rest
    /\ ie_id e = bob_id /\ ie_updated_at e = "2025-01-01T10:05:00Z"%string.
Proof.
  apply (latest_append_listed_first chat_calls bob_id "user" "numbers?" "goose"
           None None "m5" "2025-01-01T10:05:00Z").
  - vm_compute. reflexivity.
  - intros e Hin Hne. apply list_elem_of_In in Hin. vm_compute in Hin.
    destruct Hin as [<-|[<-|[]]];
      first [reflexivity | exfalso; apply Hne; reflexivity].
Defined.

End ConversationHub.

(* ====================================================================== *)
(** ** src/jh_brain_sse_server.py: the [event_stream] generator *)
(* ====================================================================== *)

Module SseServer.

Section EventStream.

(** The JSON values put on a queue, and [json.dumps] on them ([None]: the
    value is not serialisable and [json.dumps] raises). *)
Variable message : Type.
Variable json_dumps : message -> option string.

(** The two notifications built from [build_context_injection()]. *)
Variable initialized_notification : message.
Variable context_notification : message.

Definition newline : string := String (ascii_of_nat 10) EmptyString.

(** [create_sse_message(data, event_type)]: the lines joined by newlines,
    ending in a blank line. *)
Definition create_sse_message (data : message) (event_type : option string)
  : option string :=
  match json_dumps data with
  | None => None
  | Some body =>
      let event_line :=
        match event_type with
        | Some t => if String.eqb t "" then "" else "event: " ++ t ++ newline
        | None => ""
        end in
      Some (event_line ++ "data: " ++ body ++ newline ++ newline)
  end%string.

Definition keepalive : string := (": keepalive" ++ newline ++ newline)%string.

(** The process state the generator shares with the request handlers: the
    queue objects, by address, and the module-level dictionary
    [connections], from connection id to queue. *)
Record server := mk_server {
  queues : gmap nat (list message);
  connections : gmap string nat
}.

(** Where a generator is suspended. *)
Inductive position :=
| NotStarted        (* created, body not entered *)
| AtInitYield       (* at the first [yield], before the [try] *)
| AtContextYield    (* at the second [yield], before the [try] *)
| AtLoopYield       (* at a [yield] inside [while True], inside the [try] *)
| Finished.

(** A generator object: its position and its locals. *)
Record generator := mk_generator {
  pos : position;
  connection_id : string;
  message_queue : nat
}.

Definition new_generator : generator := mk_generator NotStarted "" 0.

(** What the consumer of the response does with the generator:
    [next(gen)], with the values the environment supplies during the run
    (the UUID drawn at the start; a message put by another thread while
    [get] waits on an empty queue, [None] when the thirty seconds pass), or
    [gen.close()], which raises [GeneratorExit] at the suspended [yield]
    (the client went away). *)
Inductive resumption :=
| Next (uuid : string) (arrival : option message)
| Close.

Inductive outcome :=
| Yield (chunk : string)
| StopIteration
| Raised.

Definition at_position (p : position) (g : generator) : generator :=
  mk_generator p (connection_id g) (message_queue g).

(** [finally: connections.pop(connection_id, None)] *)
Definition finally_pop (g : generator) (s : server) : server :=
  mk_server (queues s) (delete (connection_id g) (connections s)).

(** One turn of [while True]: [message_queue.get(timeout=30)], then the
    payload, or the keep-alive comment on [queue.Empty].  An exception of
    [create_sse_message] leaves through the [finally]. *)
Definition loop_turn (g : generator) (s : server) (arrival : option message)
  : generator * server * outcome :=
  let waiting := default [] (queues s !! message_queue g) in
  let got :=
    match waiting with
    | m :: rest => Some (m, mk_server (<[message_queue g := rest]> (queues s))
                                      (connections s))
    | [] =>
        match arrival with
        | Some m => Some (m, s)
        | None => None
        end
    end in
  match got with
  | Some (m, s') =>
      match create_sse_message m (Some "message"%string) with
      | Some chunk => (at_position AtLoopYield g, s', Yield chunk)
      | None => (at_position Finished g, finally_pop g s', Raised)
      end
  | None => (at_position AtLoopYield g, s, Yield keepalive)
  end.

(** Resuming the generator once. *)
Definition resume (g : generator) (s : server) (r : resumption)
  : generator * server * outcome :=
  match pos g, r with
  | NotStarted, Next uuid _ =>
      let q := fresh (dom (queues s)) in
      let g' := mk_generator NotStarted uuid q in
      let s' := mk_server (<[q := []]> (queues s)) (<[uuid := q]> (connections s)) in
      match create_sse_message initialized_notification (Some "message"%string) with
      | Some chunk => (at_position AtInitYield g', s', Yield chunk)
      | None => (at_position Finished g', s', Raised)
      end
  | NotStarted, Close => (at_position Finished g, s, StopIteration)
  | AtInitYield, Next _ _ =>
      match create_sse_message context_notification (Some "message"%string) with
      | Some chunk => (at_position AtContextYield g, s, Yield chunk)
      | None => (at_position Finished g, s, Raised)
      end
  | AtInitYield, Close => (at_position Finished g, s, StopIteration)
  | AtContextYield, Next _ arrival => loop_turn g s arrival
  | AtContextYield, Close => (at_position Finished g, s, StopIteration)
  | AtLoopYield, Next _ arrival => loop_turn g s arrival
  | AtLoopYield, Close => (at_position Finished g, finally_pop g s, StopIteration)
  | Finished, _ => (g, s, StopIteration)
  end.

(** [handle_message]: [if connection_id and connection_id in connections:
    connections[connection_id].put(response)] *)
Definition push (cid : string) (response : message) (s : server) : server :=
  if String.eqb cid "" then s
  else match connections s !! cid with
       | Some q =>
           mk_server (<[q := default [] (queues s !! q) ++ [response]]> (queues s))
                     (connections s)
       | None => s
       end.

(** What happens around one connection: its generator is resumed, or a
    request handler pushes a response for some connection id. *)
Inductive event :=
| Resume (r : resumption)
| Push (cid : string) (response : message).

Definition step (gs : generator * server) (e : event) : generator * server :=
  match e with
  | Resume r => let '(g', s', _) := resume (fst gs) (snd gs) r in (g', s')
  | Push cid response => (fst gs, push cid response (snd gs))
  end.

Definition run (es : list event) (gs : generator * server) : generator * server :=
  fold_left step es gs.

(** *** The delivery loop *)

(** The generator is in the loop when it is suspended at one of the loop's
    [yield]s, or about to enter the [try] from the second [yield]. *)
Definition in_loop (g : generator) (r : resumption) : Prop :=
  pos g = AtLoopYield \/ (pos g = AtContextYield /\ r <> Close).

Lemma at_position_same g : at_position (pos g) g = g.
Proof. now destruct g. Qed.

Lemma loop_turn_cases g s arrival g' s' out :
  loop_turn g s arrival = (g', s', out) ->
  connection_id g' = connection_id g
  /\ ((pos g' = AtLoopYield /\ connections s' = connections s
       /\ exists chunk, out = Yield chunk)
      \/ (pos g' = Finished /\ connections s' !! connection_id g = None
          /\ out = Raised)).
Proof.
  unfold loop_turn.
  destruct (default [] (queues s !! message_queue g)) as [|m rest].
  - destruct arrival as [m|].
    + destruct (create_sse_message m _) as [chunk|]; intros [= <- <- <-];
        (split; [reflexivity|]).
      * left. eauto.
      * right. cbn. now rewrite lookup_delete_eq.
    + intros [= <- <- <-]. split; [reflexivity|]. left. eauto.
  - destruct (create_sse_message m _) as [chunk|]; intros [= <- <- <-];
      (split; [reflexivity|]).
    + left. eauto.
    + right. cbn. now rewrite lookup_delete_eq.
Qed.

Lemma resume_in_loop g s r g' s' out :
  in_loop g r ->
  resume g s r = (g', s', out) ->
  connection_id g' = connection_id g
  /\ ((pos g' = AtLoopYield /\ connections s' = connections s
       /\ exists chunk, out = Yield chunk)
      \/ (pos g' = Finished /\ connections s' !! connection_id g = None
          /\ (r = Close \/ out = Raised))).
Proof.
  intros [Hpos|[Hpos Hr]]; unfold resume; rewrite Hpos; destruct r as [uuid arrival|];
    try congruence.
  - intros H. apply loop_turn_cases in H as [Hid [H|(H1 & H2 & H3)]]; auto 6.
  - intros [= <- <- <-]. split; [reflexivity|]. right.
    cbn. rewrite lookup_delete_eq. auto.
  - intros H. apply loop_turn_cases in H as [Hid [H|(H1 & H2 & H3)]]; auto 6.
Qed.

Lemma push_connections cid response s : connections (push cid response s) = connections s.
Proof.
  unfold push. destruct (String.eqb cid ""); [reflexivity|].
  now destruct (connections s !! cid).
Qed.

Lemma run_from_loop es : forall g s cid,
  connection_id g = cid ->
  pos g = AtLoopYield \/ (pos g = Finished /\ connections s !! cid = None) ->
  connection_id (fst (run es (g, s))) = cid
  /\ (pos (fst (run es (g, s))) = AtLoopYield
      \/ (pos (fst (run es (g, s))) = Finished
          /\ connections (snd (run es (g, s))) !! cid = None)).
Proof.
  unfold run. induction es as [|e es IH]; intros g s cid Hcid Hinv; cbn [fold_left].
  - auto.
  - destruct e as [r|c response]; cbn [step fst snd].
    + destruct (resume g s r) as [[g' s'] out] eqn:Hres.
      destruct Hinv as [Hpos|[Hpos Hgone]].
      * apply resume_in_loop in Hres as [Hid H]; [|now left].
        apply IH; [congruence|]. rewrite Hcid in H.
        destruct H as [(H1 & _)|(H1 & H2 & _)]; auto.
      * unfold resume in Hres. rewrite Hpos in Hres.
        assert (E : (g', s') = (g, s)) by (destruct r; congruence).
        injection E as -> ->. apply IH; auto.
    + apply IH; [exact Hcid|]. rewrite push_connections. exact Hinv.
Qed.

(** ** C9.  The delivery loop keeps its half of the contract, and the
    clean-up does not cover the connection.  Inside the loop: a wait that
    times out on an empty queue yields the keep-alive comment and changes
    nothing; a waiting message is taken from the queue and yielded as a
    [message] event; no [next] ends the loop normally; [close()] and an
    exception both end the generator through the [finally], which removes
    the connection id from [connections]; and so along any run that starts
    in the loop.  But the queue is registered, and two events are yielded,
    before the [try]: when the client goes away at the first [yield] the
    generator ends with the connection id still registered, and nothing it
    does afterwards removes it. *)
Theorem cleanup_covers_the_loop_only :
  (forall g s uuid,
      pos g = AtLoopYield \/ pos g = AtContextYield ->
      default [] (queues s !! message_queue g) = [] ->
      resume g s (Next uuid None) = (at_position AtLoopYield g, s, Yield keepalive))
  /\ (forall g s uuid arrival m rest chunk,
        pos g = AtLoopYield \/ pos g = AtContextYield ->
        default [] (queues s !! message_queue g) = m :: rest ->
        create_sse_message m (Some "message"%string) = Some chunk ->
        resume g s (Next uuid arrival)
        = (at_position AtLoopYield g,
           mk_server (<[message_queue g := rest]> (queues s)) (connections s),
           Yield chunk))
  /\ (forall g s uuid arrival,
        pos g = AtLoopYield \/ pos g = AtContextYield ->
        snd (resume g s (Next uuid arrival)) <> StopIteration)
  /\ (forall g s,
        pos g = AtLoopYield ->
        resume g s Close = (at_position Finished g, finally_pop g s, StopIteration)
        /\ connections (finally_pop g s) !! connection_id g = None)
  /\ (forall g s uuid arrival g' s',
        pos g = AtLoopYield \/ pos g = AtContextYield ->
        resume g s (Next uuid arrival) = (g', s', Raised) ->
        pos g' = Finished /\ connections s' !! connection_id g = None)
  /\ (forall es g s,
        pos g = AtLoopYield ->
        pos (fst (run es (g, s))) = AtLoopYield
        \/ (pos (fst (run es (g, s))) = Finished
            /\ connections (snd (run es (g, s))) !! connection_id g = None))
  /\ (forall s uuid arrival,
        let g1 := fst (fst (resume new_generator s (Next uuid arrival))) in
        let s1 := snd (fst (resume new_generator s (Next uuid arrival))) in
        connection_id g1 = uuid
        /\ connections s1 !! uuid = Some (fresh (dom (queues s)))
        /\ resume g1 s1 Close = (at_position Finished g1, s1, StopIteration)
        /\ forall r, resume (at_position Finished g1) s1 r
                     = (at_position Finished g1, s1, StopIteration)).
Proof.
  split; [|split; [|split; [|split; [|split; [|split]]]]].
  - intros g s uuid Hpos Hempty. unfold resume, loop_turn.
    destruct Hpos as [-> | ->]; now rewrite Hempty.
  - intros g s uuid arrival m rest chunk Hpos Hq Hchunk. unfold resume, loop_turn.
    destruct Hpos as [-> | ->]; now rewrite Hq, Hchunk.
  - intros g s uuid arrival Hpos.
    destruct (resume g s (Next uuid arrival)) as [[g' s'] out] eqn:Hres. cbn [snd].
    apply resume_in_loop in Hres as [_ [(_ & _ & chunk & ->)|(_ & _ & [E| ->])]];
      [discriminate|discriminate E|discriminate|].
    destruct Hpos as [Hpos|Hpos]; [now left|right]. split; [exact Hpos|discriminate].
  - intros g s Hpos. unfold resume. rewrite Hpos. split; [reflexivity|].
    cbn. apply lookup_delete_eq.
  - intros g s uuid arrival g' s' Hpos Hres.
    apply resume_in_loop in Hres as [_ [(_ & _ & chunk & E)|(Hfin & Hgone & _)]];
      [discriminate E|now split|].
    destruct Hpos as [Hpos|Hpos]; [now left|right]. split; [exact Hpos|discriminate].
  - intros es g s Hpos.
    now apply (run_from_loop es g s (connection_id g) eq_refl (or_introl Hpos)).
  - intros s uuid arrival. cbn zeta.
    assert (Hres : exists p out,
               (p = AtInitYield \/ p = Finished)
               /\ resume new_generator s (Next uuid arrival)
                  = (mk_generator p uuid (fresh (dom (queues s))),
                     mk_server (<[fresh (dom (queues s)) := []]> (queues s))
                               (<[uuid := fresh (dom (queues s))]> (connections s)),
                     out)).
    { unfold resume; cbn [new_generator pos].
      destruct (create_sse_message initialized_notification _); eauto. }
    destruct Hres as (p & out & Hp & ->). cbn [fst snd connection_id connections].
    split; [reflexivity|]. split; [apply lookup_insert_eq|]. split.
    + unfold resume. cbn [pos]. destruct Hp as [-> | ->]; reflexivity.
    + intros r. unfold resume. cbn [at_position pos]. now destruct r.
Qed.

(** Before the loop the [finally] does not apply: a client that goes away
    while the generator is suspended at one of the first two [yield]s leaves
    the registry as it is, with the queue still registered. *)
Lemma close_before_loop_keeps_registration g s :
  pos g = AtInitYield \/ pos g = AtContextYield ->
  resume g s Close = (at_position Finished g, s, StopIteration).
Proof. intros [H|H]; unfold resume; now rewrite H. Qed.

(** *** Responses pushed by [handle_message] *)

(** The responses a sequence of events pushes for one connection id. *)
Definition pushed_for (cid : string) (es : list event) : list message :=
  flat_map (fun e => match e with
                     | Push c response => if String.eqb c cid then [response] else []
                     | Resume _ => []
                     end) es.

(** The generator resumed along a list of resumptions, with what each one
    gives the consumer. *)
Fixpoint resume_all (rs : list resumption) (g : generator) (s : server)
  : list outcome * generator * server :=
  match rs with
  | [] => ([], g, s)
  | r :: rest =>
      let '(g1, s1, out) := resume g s r in
      let '(outs, g2, s2) := resume_all rest g1 s1 in
      (out :: outs, g2, s2)
  end.

(** Every registered queue exists. *)
Definition queues_exist (s : server) : Prop :=
  forall cid q, connections s !! cid = Some q -> is_Some (queues s !! q).

(** No queue is registered under two connection ids. *)
Definition queues_private (s : server) : Prop :=
  forall c1 c2 q, connections s !! c1 = Some q -> connections s !! c2 = Some q -> c1 = c2.

Lemma push_registered cid response s q :
  cid <> ""%string ->
  connections s !! cid = Some q ->
  push cid response s
  = mk_server (<[q := default [] (queues s !! q) ++ [response]]> (queues s))
              (connections s).
Proof.
  intros Hcid Hq. unfold push.
  destruct (String.eqb_spec cid "") as [|_]; [contradiction|]. now rewrite Hq.
Qed.

Lemma push_other_queue cid response s q :
  (forall q', connections s !! cid = Some q' -> q' <> q) ->
  queues (push cid response s) !! q = queues s !! q.
Proof.
  intros Hq. unfold push. destruct (String.eqb cid ""); [reflexivity|].
  destruct (connections s !! cid) as [q'|] eqn:E; [|reflexivity].
  cbn [queues]. rewrite lookup_insert_ne; [reflexivity|]. now apply Hq.
Qed.

Lemma push_queues_private cid response s :
  queues_private s -> queues_private (push cid response s).
Proof. unfold queues_private. now rewrite push_connections. Qed.

Lemma resume_finished g s r : pos g = Finished -> resume g s r = (g, s, StopIteration).
Proof. intros Hpos. unfold resume. rewrite Hpos. now destruct r. Qed.

(** ** X18.  A client that goes away before the delivery loop is never
    deregistered.  From a new generator, one [next] (which registers the
    queue under the connection id), possibly a second, and then [close()]
    end the generator outside the [try]; whatever happens afterwards, the id
    stays in [connections], and the responses [handle_message] pushes for it
    pile up in its queue, in order, and are never taken out. *)
Theorem early_disconnect_leaves_queue_registered (s : server)
  (uuid : string) (arrival : option message) (second : option resumption)
  (es : list event) :
  uuid <> ""%string ->
  queues_exist s ->
  queues_private s ->
  second <> Some Close ->
  let early := Resume (Next uuid arrival)
               :: match second with
                  | Some r => [Resume r; Resume Close]
                  | None => [Resume Close]
                  end in
  let gs := run (early ++ es) (new_generator, s) in
  let q := fresh (dom (queues s)) in
  pos (fst gs) = Finished
  /\ connections (snd gs) !! uuid = Some q
  /\ queues (snd gs) !! q = Some (pushed_for uuid es).
Proof.
  intros Huuid Hexist Hprivate Hsecond early gs q. subst gs early.
  set (s1 := mk_server (<[q := []]> (queues s)) (<[uuid := q]> (connections s))).
  assert (Hfresh : queues s !! q = None).
  { apply not_elem_of_dom. apply is_fresh. }
  assert (Hearly : exists g1,
             run (Resume (Next uuid arrival)
                  :: match second with
                     | Some r => [Resume r; Resume Close]
                     | None => [Resume Close]
                     end) (new_generator, s) = (g1, s1)
             /\ pos g1 = Finished).
  { unfold run. cbn [fold_left step fst snd resume new_generator pos].
    fold q. fold s1.
    destruct (create_sse_message initialized_notification _) as [chunk|].
    - destruct second as [[u a|]|]; [|congruence|].
      + cbn [fold_left step fst snd resume at_position pos].
        destruct (create_sse_message context_notification _) as [chunk'|];
          cbn [fold_left step fst snd resume at_position pos]; eauto.
      + cbn [fold_left step fst snd resume at_position pos]. eauto.
    - destruct second as [[u a|]|]; [|congruence|];
        cbn [fold_left step fst snd resume at_position pos]; eauto. }
  destruct Hearly as (g1 & Hrun & Hpos1).
  unfold run in *. rewrite fold_left_app, Hrun.
  assert (Hinv : forall es g s',
             pos g = Finished ->
             connections s' = connections s1 ->
             queues_private s' ->
             forall ms, queues s' !! q = Some ms ->
             pos (fst (fold_left step es (g, s'))) = Finished
             /\ connections (snd (fold_left step es (g, s'))) !! uuid = Some q
             /\ queues (snd (fold_left step es (g, s'))) !! q
                = Some (ms ++ pushed_for uuid es)).
  { clear -Huuid. intros es.
    induction es as [|e es IH]; intros g s' Hpos Hconn Hpriv ms Hq.
    - cbn. rewrite app_nil_r, Hconn. cbn. rewrite lookup_insert_eq. auto.
    - cbn [fold_left pushed_for flat_map]. destruct e as [r|c response].
      + cbn [step fst snd]. rewrite resume_finished by exact Hpos.
        cbn [app]. now apply IH.
      + cbn [step fst snd].
        assert (Huq : connections s' !! uuid = Some q).
        { rewrite Hconn. cbn. apply lookup_insert_eq. }
        destruct (String.eqb_spec c uuid) as [->|Hne].
        * rewrite (push_registered uuid response s' q) by assumption.
          rewrite Hq. cbn [default].
          rewrite (app_assoc ms [response]).
          apply IH; [exact Hpos|exact Hconn|exact Hpriv|].
          cbn [queues]. apply lookup_insert_eq.
        * cbn [app]. apply IH; [exact Hpos| | |].
          -- now rewrite push_connections.
          -- now apply push_queues_private.
          -- rewrite push_other_queue; [exact Hq|].
             intros q' Hq' ->. apply Hne. now apply (Hpriv c uuid q). }
  apply (Hinv es g1 s1 Hpos1 eq_refl) with (ms := []); [|cbn; apply lookup_insert_eq].
  intros c1 c2 q0. cbn [s1 connections].
  destruct (decide (c1 = uuid)) as [->|H1]; destruct (decide (c2 = uuid)) as [->|H2];
    try reflexivity.
  - rewrite lookup_insert_eq, lookup_insert_ne by congruence.
    intros [= <-] H. apply Hexist in H as [x Hx]. congruence.
  - rewrite lookup_insert_eq, lookup_insert_ne by congruence.
    intros H [= <-]. apply Hexist in H as [x Hx]. congruence.
  - rewrite !lookup_insert_ne by congruence. apply Hprivate.
Qed.

Lemma resume_all_app rs1 rs2 g s :
  resume_all (rs1 ++ rs2) g s
  = let '(outs1, g1, s1) := resume_all rs1 g s in
    let '(outs2, g2, s2) := resume_all rs2 g1 s1 in
    (outs1 ++ outs2, g2, s2).
Proof.
  revert g s. induction rs1 as [|r rs1 IH]; intros g s; cbn [resume_all app].
  - now destruct (resume_all rs2 g s) as [[outs2 g2] s2].
  - destruct (resume g s r) as [[g1 s1] out]. rewrite IH.
    destruct (resume_all rs1 g1 s1) as [[outs1 g1'] s1'].
    now destruct (resume_all rs2 g1' s1') as [[outs2 g2] s2].
Qed.

Lemma pushes_queue cid ms s q :
  cid <> ""%string ->
  connections s !! cid = Some q ->
  connections (fold_left (fun s m => push cid m s) ms s) = connections s
  /\ default [] (queues (fold_left (fun s m => push cid m s) ms s) !! q)
     = default [] (queues s !! q) ++ ms.
Proof.
  intros Hcid. revert s. induction ms as [|m ms IH]; intros s Hq; cbn [fold_left].
  - now rewrite app_nil_r.
  - destruct (IH (push cid m s)) as [Hconn Hqueue].
    { now rewrite push_connections. }
    rewrite Hconn, Hqueue, push_connections. split; [reflexivity|].
    rewrite (push_registered cid m s q) by assumption. cbn [queues].
    rewrite lookup_insert_eq. cbn [default from_option id]. now rewrite <- app_assoc.
Qed.

(** Draining a queue: one payload per [next], oldest first. *)
Lemma drain_queue ms : forall chunks g s uuid,
  pos g = AtLoopYield ->
  default [] (queues s !! message_queue g) = ms ->
  Forall2 (fun m chunk => create_sse_message m (Some "message"%string) = Some chunk)
          ms chunks ->
  exists s',
    resume_all (replicate (length ms) (Next uuid None)) g s = (map Yield chunks, g, s')
    /\ connections s' = connections s
    /\ default [] (queues s' !! message_queue g) = [].
Proof.
  induction ms as [|m ms IH]; intros chunks g s uuid Hpos Hq Hall.
  - apply Forall2_nil_inv_l in Hall as ->. exists s. cbn. auto.
  - apply Forall2_cons_inv_l in Hall as (chunk & chunks' & Hm & Hall & ->).
    cbn [length replicate resume_all map].
    assert (Hres : resume g s (Next uuid None)
                   = (g, mk_server (<[message_queue g := ms]> (queues s)) (connections s),
                      Yield chunk)).
    { unfold resume, loop_turn. rewrite Hpos, Hq, Hm, <- Hpos. now rewrite at_position_same. }
    rewrite Hres.
    destruct (IH chunks' g
                 (mk_server (<[message_queue g := ms]> (queues s)) (connections s)) uuid)
      as (s' & -> & Hconn & Hempty); [exact Hpos| |exact Hall|].
    { cbn [queues]. now rewrite lookup_insert_eq. }
    exists s'. auto.
Qed.

(** ** X19.  Responses are delivered first in, first out.  With the
    generator in the delivery loop and its queue empty, the responses that
    [handle_message] pushes for the connection id come out of the following
    [next] calls one by one in the order pushed, each as an SSE [message]
    event, and the [next] after the last one times out into a keep-alive;
    the registry is unchanged throughout. *)
Theorem pushed_responses_delivered_in_order (g : generator) (s : server)
  (cid uuid : string) (ms : list message) (chunks : list string) :
  pos g = AtLoopYield ->
  cid <> ""%string ->
  connections s !! cid = Some (message_queue g) ->
  default [] (queues s !! message_queue g) = [] ->
  Forall2 (fun m chunk => create_sse_message m (Some "message"%string) = Some chunk)
          ms chunks ->
  let s1 := fold_left (fun s m => push cid m s) ms s in
  exists s2,
    resume_all (replicate (length ms) (Next uuid None) ++ [Next uuid None]) g s1
    = (map Yield chunks ++ [Yield keepalive], g, s2)
    /\ connections s2 = connections s.
Proof.
  intros Hpos Hcid Hreg Hempty Hall s1.
  destruct (pushes_queue cid ms s (message_queue g) Hcid Hreg) as [Hconn Hqueue].
  fold s1 in Hconn, Hqueue. rewrite Hempty in Hqueue. cbn [app] in Hqueue.
  destruct (drain_queue ms chunks g s1 uuid Hpos Hqueue Hall) as (s2 & Hdrain & Hconn2 & Hq2).
  exists s2. split; [|congruence].
  rewrite resume_all_app, Hdrain. cbn [resume_all].
  unfold resume, loop_turn. rewrite Hpos, Hq2, <- Hpos. now rewrite at_position_same.
Qed.

End EventStream.

(** *** A connection, step by step *)

Definition text_dumps (m : string) : option string := Some m.

Definition sample_run : list (event string) :=
  [ Resume string (Next string "c-1" None);
    Resume string (Next string "" None);
    Resume string (Next string "" None);
    Push string "c-1" "{}";
    Resume string (Next string "" None);
    Resume string (Close string) ].

Example sample_run_ends_deregistered :
  let '(g, s) := run string text_dumps "init" "context" sample_run
                     (new_generator, mk_server string ∅ ∅) in
  pos g = Finished /\ connection_id g = "c-1"%string /\ connections string s = ∅.
Proof. vm_compute. repeat split; reflexivity. Qed.

Example sample_timeout_yields_keepalive :
  let gs := run string text_dumps "init" "context"
                [ Resume string (Next string "c-1" None);
                  Resume string (Next string "" None) ]
                (new_generator, mk_server string ∅ ∅) in
  snd (resume string text_dumps "init" "context" (fst gs) (snd gs) (Next string "" None))
  = Yield keepalive.
Proof. vm_compute. reflexivity. Qed.

(** A client that goes away after the first event. *)
Lemma cleanup_covers_the_loop_only_witness :
  let gs := run string text_dumps "init" "context"
              [ Resume string (Next string "c-1" None); Resume string (Close string) ]
              (new_generator, mk_server string ∅ ∅) in
  pos (fst gs) = Finished
  /\ connections string (snd gs) !! "c-1"%string
     = Some (fresh (dom (∅ : gmap nat (list string)))).
Proof.
  destruct cleanup_covers_the_loop_only
    with (message := string) (json_dumps := text_dumps)
         (initialized_notification := "init"%string)
         (context_notification := "context"%string)
    as (_ & _ & _ & _ & _ & _ & Hearly).
  destruct (Hearly (mk_server string ∅ ∅) "c-1"%string None) as (_ & Hreg & _).
  split; [reflexivity|exact Hreg].
Defined.

(** A client that leaves after the first two chunks, and later traffic. *)
Lemma early_disconnect_leaves_queue_registered_witness :
  let gs := run string text_dumps "init" "context"
              ([ Resume string (Next string "c-1" None);
                 Resume string (Next string "" None);
                 Resume string (Close string) ]
               ++ [ Push string "c-1" "{1}";
                    Resume string (Next string "" None);
                    Push string "c-2" "{x}";
                    Push string "c-1" "{2}" ])
              (new_generator, mk_server string ∅ ∅) in
  pos (fst gs) = Finished
  /\ connections string (snd gs) !! "c-1"%string = Some (fresh (dom (∅ : gmap nat (list string))))
  /\ queues string (snd gs) !! fresh (dom (∅ : gmap nat (list string)))
     = Some ["{1}"; "{2}"]%string.
Proof.
  apply (early_disconnect_leaves_queue_registered string text_dumps "init" "context"
           (mk_server string ∅ ∅) "c-1" None (Some (Next string "" None))
           [ Push string "c-1" "{1}"; Resume string (Next string "" None);
             Push string "c-2" "{x}"; Push string "c-1" "{2}" ]).
  - discriminate.
  - intros cid q H. cbn in H. now rewrite lookup_empty in H.
  - intros c1 c2 q H. cbn in H. now rewrite lookup_empty in H.
  - discriminate.
Defined.

Definition sse_chunk (body : string) : string :=
  ("event: message" ++ newline ++ "data: " ++ body ++ newline ++ newline)%string.

Lemma pushed_responses_delivered_in_order_witness :
  let g := mk_generator AtLoopYield "c-1" 0 in
  let s := mk_server string {[ 0%nat := [] ]} {[ "c-1"%string := 0%nat ]} in
  exists s2,
    resume_all string text_dumps "init" "context"
      (replicate 2 (Next string "" None) ++ [Next string "" None]) g
      (fold_left (fun s m => push string "c-1" m s) ["{1}"; "{2}"]%string s)
    = (map Yield [sse_chunk "{1}"; sse_chunk "{2}"] ++ [Yield keepalive], g, s2)
    /\ connections string s2 = connections string s.
Proof.
  intros g s.
  apply (pushed_responses_delivered_in_order string text_dumps "init" "context"
           g s "c-1" "" ["{1}"; "{2}"]%string [sse_chunk "{1}"; sse_chunk "{2}"]).
  - reflexivity.
  - discriminate.
  - reflexivity.
  - reflexivity.
  - repeat constructor.
Defined.

End SseServer.

(* ====================================================================== *)
(** ** src/server.py: the [/query] endpoint *)
(* ====================================================================== *)

Module Server.

Import Preflight.

Section Query.

(** The entries of [CAPABILITY_MAP['tools']]. *)
Variable tool : Type.

(** The responses of [query_system]: 400, 200, 404, and the [KeyError] of
    [CAPABILITY_MAP['tools'][...]] for a capability that names no tool. *)
Inductive response :=
| BadRequest
| Found (capability description_ tool_id_ : string) (tool_info : tool)
        (confidence : string)
| NotFound
| KeyError.

(** The [for cap_id, cap_info in ...items()] loop, with its two variables
    [best_score] and [best_match]. *)
Fixpoint best_loop (capabilities : list (string * cap_info)) (need_lower : string)
  (best_score : Z) (best_match : option (string * string * string))
  : Z * option (string * string * string) :=
  match capabilities with
  | [] => (best_score, best_match)
  | (cap_id, info) :: rest =>
      let score := keyword_score info need_lower in
      if best_score <? score
      then best_loop rest need_lower score
                     (Some (cap_id, description info, tool_id info))
      else best_loop rest need_lower best_score best_match
  end.

(** [query_system], on the request's [need] (the empty string when absent). *)
Definition query_system (capabilities : list (string * cap_info))
  (tools : gmap string tool) (need_param : string) : response :=
  let need_lower := lower need_param in
  if String.eqb need_lower "" then BadRequest
  else
    match best_loop capabilities need_lower 0 None with
    | (best_score, Some (cap_id, descr, tid)) =>
        match tools !! tid with
        | Some tool_info =>
            Found cap_id descr tid tool_info
                  (if 2 <=? best_score then "high" else "medium")
        | None => KeyError
        end
    | (_, None) => NotFound
    end.

(** *** Agreement with [extract_needs] *)

Definition as_match (n : need) : string * string * string :=
  (need_capability n, need_description n, need_tool_id n).

(** The better of two candidates, the earlier one on a tie. *)
Definition better (earlier later : option need) : option need :=
  match earlier, later with
  | None, _ => later
  | Some c, None => Some c
  | Some c, Some y => if need_score c <? need_score y then Some y else Some c
  end.

Lemma head_ranking_cons (n : need) (l : list need) :
  head (PySort.sorted_reverse Z.ltb need_score (n :: l))
  = better (Some n) (head (PySort.sorted_reverse Z.ltb need_score l)).
Proof.
  unfold PySort.sorted_reverse. cbn [PySort.sorted foldr].
  destruct (PySort.sorted (fun a b => b <? a) need_score l) as [|y l'] eqn:E.
  - unfold PySort.sorted in E. rewrite E. reflexivity.
  - unfold PySort.sorted in E. rewrite E. cbn [PySort.insert_stable head better].
    now destruct (need_score n <? need_score y).
Qed.

Lemma best_loop_ranking capabilities need_lower : forall cur : option need,
  match cur with Some c => 0 < need_score c | None => True end ->
  best_loop capabilities need_lower
            (match cur with Some c => need_score c | None => 0 end)
            (as_match <$> cur)
  = let best :=
      better cur (head (PySort.sorted_reverse Z.ltb need_score
                          (scored_needs capabilities need_lower))) in
    (match best with Some c => need_score c | None => 0 end, as_match <$> best).
Proof.
  induction capabilities as [|[cap_id info] rest IH]; intros cur Hcur.
  - cbn. now destruct cur.
  - cbn [best_loop scored_needs].
    set (score := keyword_score info need_lower).
    set (n := mk_need cap_id (description info) (tool_id info) score).
    destruct (Z.ltb_spec 0 score) as [Hpos|Hzero].
    + rewrite head_ranking_cons.
      destruct cur as [c|]; cbn [fmap option_fmap option_map].
      * destruct (Z.ltb_spec (need_score c) score) as [Hlt|Hge].
        -- etransitivity; [exact (IH (Some n) Hpos)|]. cbn zeta.
           subst n. clear IH.
           destruct (head _) as [y|]; cbn [better need_score];
             repeat match goal with
                    | |- context [?a <? ?b] =>
                        destruct (Z.ltb_spec a b); cbn [need_score] in *; try lia
                    end; reflexivity.
        -- etransitivity; [exact (IH (Some c) Hcur)|]. cbn zeta.
           subst n. clear IH.
           destruct (head _) as [y|]; cbn [better need_score];
             repeat match goal with
                    | |- context [?a <? ?b] =>
                        destruct (Z.ltb_spec a b); cbn [need_score] in *; try lia
                    end; reflexivity.
      * apply Z.ltb_lt in Hpos as Hpos'. rewrite Hpos'.
        etransitivity; [exact (IH (Some n) Hpos)|]. reflexivity.
    + destruct cur as [c|]; cbn [fmap option_fmap option_map].
      * destruct (Z.ltb_spec (need_score c) score) as [Hlt|Hge]; [lia|].
        etransitivity; [exact (IH (Some c) Hcur)|]. reflexivity.
      * destruct (Z.ltb_spec 0 score) as [Hlt|Hge]; [lia|].
        etransitivity; [exact (IH None I)|]. reflexivity.
Qed.

(** The endpoint answers with the first entry of [extract_needs], or 404
    when [extract_needs] finds nothing; an empty need is rejected before
    any matching. *)
Lemma query_system_first_need capabilities tools need_param :
  lower need_param <> ""%string ->
  query_system capabilities tools need_param
  = match head (extract_needs capabilities need_param) with
    | Some n =>
        match tools !! need_tool_id n with
        | Some tool_info =>
            Found (need_capability n) (need_description n) (need_tool_id n)
                  tool_info (if 2 <=? need_score n then "high" else "medium")
        | None => KeyError
        end
    | None => NotFound
    end.
Proof.
  intros Hne. unfold query_system, extract_needs.
  destruct (String.eqb_spec (lower need_param) "") as [|_]; [contradiction|].
  pose proof (best_loop_ranking capabilities (lower need_param) None I) as Hloop.
  cbn [fmap option_fmap option_map better] in Hloop. cbn zeta in Hloop.
  rewrite Hloop.
  destruct (PySort.sorted_reverse Z.ltb need_score _) as [|n l]; reflexivity.
Qed.

Lemma query_system_empty capabilities tools :
  query_system capabilities tools "" = BadRequest.
Proof. reflexivity. Qed.

(** *** What the loop of [query_system] settles on *)

(** The state of the loop after the capabilities [done]: nothing matched so
    far, or the first capability of [done] with the highest score. *)
Definition loop_state (need_lower : string) (done : list (string * cap_info))
  (best_score : Z) (best_match : option (string * string * string)) : Prop :=
  match best_match with
  | None =>
      best_score = 0
      /\ forall cap_id info, (cap_id, info) ∈ done -> keyword_score info need_lower = 0
  | Some (cap_id, descr, tid) =>
      exists before info after,
        done = before ++ (cap_id, info) :: after
        /\ descr = description info /\ tid = tool_id info
        /\ best_score = keyword_score info need_lower
        /\ 0 < best_score
        /\ (forall c i, (c, i) ∈ before -> keyword_score i need_lower < best_score)
        /\ (forall c i, (c, i) ∈ after -> keyword_score i need_lower <= best_score)
  end.

Lemma keyword_score_nonneg info need_lower : 0 <= keyword_score info need_lower.
Proof. unfold keyword_score. lia. Qed.

Lemma best_loop_state need_lower rest : forall done best_score best_match,
  loop_state need_lower done best_score best_match ->
  loop_state need_lower (done ++ rest)
    (fst (best_loop rest need_lower best_score best_match))
    (snd (best_loop rest need_lower best_score best_match)).
Proof.
  induction rest as [|[cap_id info] rest IH]; intros done best_score best_match Hstate.
  - cbn [best_loop fst snd]. now rewrite app_nil_r.
  - cbn [best_loop]. rewrite (cons_middle (cap_id, info) done rest), app_assoc.
    pose proof (keyword_score_nonneg info need_lower) as Hnn.
    destruct (Z.ltb_spec best_score (keyword_score info need_lower)) as [Hlt|Hge];
      apply IH.
    + exists done, info, []. split; [reflexivity|].
      do 3 (split; [reflexivity|]).
      destruct best_match as [[[c d] t]|]; cbn [loop_state] in Hstate.
      * destruct Hstate as (before & i0 & after & -> & _ & _ & Hs & Hpos & Hb & Ha).
        split; [lia|]. split; [|intros c' i' Hin; now apply elem_of_nil in Hin].
        intros c' i' Hin. apply elem_of_app in Hin as [Hin|Hin].
        -- specialize (Hb c' i' Hin). lia.
        -- apply elem_of_cons in Hin as [[= -> ->]|Hin]; [lia|].
           specialize (Ha c' i' Hin). lia.
      * destruct Hstate as [-> Hzero]. split; [lia|].
        split; [|intros c' i' Hin; now apply elem_of_nil in Hin].
        intros c' i' Hin. rewrite (Hzero c' i' Hin). lia.
    + destruct best_match as [[[c d] t]|]; cbn [loop_state] in Hstate |- *.
      * destruct Hstate as (before & i0 & after & -> & Hd & Ht & Hs & Hpos & Hb & Ha).
        exists before, i0, (after ++ [(cap_id, info)]).
        split; [now rewrite <- app_assoc|].
        do 4 (split; [assumption|]). split; [exact Hb|].
        intros c' i' Hin. apply elem_of_app in Hin as [Hin|Hin]; [now apply (Ha c')|].
        apply list_elem_of_singleton in Hin as [= -> ->]. exact Hge.
      * destruct Hstate as [-> Hzero]. split; [reflexivity|].
        intros c' i' Hin. apply elem_of_app in Hin as [Hin|Hin]; [now apply (Hzero c')|].
        apply list_elem_of_singleton in Hin as [= -> ->]. lia.
Qed.

Lemma lower_empty s : lower s = ""%string <-> s = ""%string.
Proof. destruct s; cbn; split; congruence. Qed.

(** ** X23.  What [query_system] answers.  400 exactly for an empty need.
    Otherwise 404 exactly when no capability has a keyword in the need; and
    when it answers with a match, that capability is the first one of the
    registry with the highest keyword score: every capability before it
    scores strictly less, every one after it at most as much; the confidence
    is ["high"] exactly from a score of 2; and the tool returned is the
    registry's entry for the capability's tool id (a capability naming no
    tool raises [KeyError]). *)
Theorem query_system_answers_first_best (capabilities : list (string * cap_info))
  (tools : gmap string tool) (need_param : string) :
  let score := fun info => keyword_score info (lower need_param) in
  match query_system capabilities tools need_param with
  | BadRequest => need_param = ""%string
  | NotFound =>
      need_param <> ""%string
      /\ forall cap_id info, (cap_id, info) ∈ capabilities -> score info = 0
  | Found cap_id descr tid tool_info confidence =>
      need_param <> ""%string
      /\ exists before info after,
           capabilities = before ++ (cap_id, info) :: after
           /\ descr = description info /\ tid = tool_id info
           /\ tools !! tid = Some tool_info
           /\ 0 < score info
           /\ (forall c i, (c, i) ∈ before -> score i < score info)
           /\ (forall c i, (c, i) ∈ after -> score i <= score info)
           /\ confidence = if 2 <=? score info then "high"%string else "medium"%string
  | KeyError =>
      need_param <> ""%string
      /\ exists cap_id info,
           (cap_id, info) ∈ capabilities /\ 0 < score info
           /\ tools !! tool_id info = None
  end.
Proof.
  intros score. unfold query_system.
  destruct (String.eqb_spec (lower need_param) "") as [Hempty|Hne].
  { now apply lower_empty. }
  assert (Hneed : need_param <> ""%string) by (intros E; apply Hne; now rewrite E).
  pose proof (best_loop_state (lower need_param) capabilities [] 0 None) as Hstate.
  cbn [app] in Hstate.
  destruct (best_loop capabilities (lower need_param) 0 None) as [best_score best_match].
  cbn [fst snd] in Hstate.
  assert (H0 : loop_state (lower need_param) [] 0 None).
  { split; [reflexivity|]. intros c i Hin. now apply elem_of_nil in Hin. }
  specialize (Hstate H0). clear H0.
  destruct best_match as [[[cap_id descr] tid]|]; cbn [loop_state] in Hstate.
  - destruct Hstate as (before & info & after & Hsplit & Hd & Ht & Hs & Hpos & Hb & Ha).
    fold (score info) in Hs. subst best_score.
    destruct (tools !! tid) as [tool_info|] eqn:Htool.
    + split; [exact Hneed|]. exists before, info, after.
      do 4 (split; [assumption|]). split; [exact Hpos|].
      split; [exact Hb|]. split; [exact Ha|reflexivity].
    + split; [exact Hneed|]. exists cap_id, info. split.
      * rewrite Hsplit. apply elem_of_app. right. apply list_elem_of_here.
      * split; [exact Hpos|]. now rewrite <- Ht.
  - destruct Hstate as [_ Hzero]. split; [exact Hneed|exact Hzero].
Qed.

End Query.

(** *** The [/log_use], [/stats] and [/health] endpoints *)

(** An entry of the module-level dictionary [USAGE_STATS]. *)
Record stats := mk_stats {
  st_success : Z;
  st_failure : Z;
  st_total : Z
}.

(** The JSON body of a [/log_use] request: each key may be absent; when
    present, the ids and texts are strings and [success] is a boolean. *)
Record log_use_request := mk_log_use_request {
  lu_tool_id : option string;
  lu_need : option string;
  lu_success : option bool;
  lu_source : option string;
  lu_notes : option string
}.

(** A line of the JSONL usage log. *)
Record usage_entry := mk_usage_entry {
  ue_ts : string;
  ue_tool_id : string;
  ue_need : string;
  ue_success : bool;
  ue_source : string;
  ue_notes : string
}.

(** The process state behind the endpoints: the dictionary and the log
    file. *)
Record usage_state := mk_usage_state {
  USAGE_STATS : gmap string stats;
  usage_log : list usage_entry
}.

Definition no_usage : usage_state := mk_usage_state ∅ [].

(** The tool id a request is counted under. *)
Definition counted_tool (data : log_use_request) : string :=
  default "unknown"%string (lu_tool_id data).

(** The truth value a request is counted with. *)
Definition counted_success (data : log_use_request) : bool :=
  default true (lu_success data).

(** [log_use]: [now] is the clock, [writable] tells whether appending to the
    log file succeeds (an exception there is swallowed by [except: pass]).
    The answer is the triple [status], [tool_id], [source]. *)
Definition log_use (data : log_use_request) (now : string) (writable : bool)
  (s : usage_state) : (string * string * string) * usage_state :=
  let tool_id := default "unknown"%string (lu_tool_id data) in
  let need := default ""%string (lu_need data) in
  let success := default true (lu_success data) in
  let source := default "unknown"%string (lu_source data) in
  let notes := default ""%string (lu_notes data) in
  let stats0 := default (mk_stats 0 0 0) (USAGE_STATS s !! tool_id) in
  let stats1 := mk_stats (st_success stats0) (st_failure stats0) (st_total stats0 + 1) in
  let stats2 :=
    if success
    then mk_stats (st_success stats1 + 1) (st_failure stats1) (st_total stats1)
    else mk_stats (st_success stats1) (st_failure stats1 + 1) (st_total stats1) in
  let entry := mk_usage_entry now tool_id need success source notes in
  let log' := if writable then usage_log s ++ [entry] else usage_log s in
  (("logged"%string, tool_id, source),
   mk_usage_state (<[tool_id := stats2]> (USAGE_STATS s)) log').

(** [get_stats] *)
Definition get_stats (s : usage_state) : gmap string stats := USAGE_STATS s.

(** [health]: the status and [len(USAGE_STATS)]. *)
Definition health (s : usage_state) : string * nat := ("ok"%string, size (USAGE_STATS s)).

(** A history of [/log_use] requests, each with its clock reading and the
    state of the log file. *)
Definition log_use_all (requests : list (log_use_request * string * bool))
  (s : usage_state) : usage_state :=
  fold_left (fun s '(data, now, writable) => snd (log_use data now writable s))
            requests s.

(** The requests counted under a tool id, with a given outcome. *)
Definition requests_for (tool_id : string)
  (requests : list (log_use_request * string * bool)) : list log_use_request :=
  List.filter (fun data => String.eqb (counted_tool data) tool_id)
              (map (fun r => fst (fst r)) requests).

Definition count_where (f : log_use_request -> bool) (l : list log_use_request) : Z :=
  Z.of_nat (length (List.filter f l)).

(** The statistics agree with the requests seen so far. *)
Definition stats_agree (requests : list (log_use_request * string * bool))
  (s : usage_state) : Prop :=
  forall tool_id,
    match USAGE_STATS s !! tool_id with
    | None => requests_for tool_id requests = []
    | Some st =>
        requests_for tool_id requests <> []
        /\ st_total st = Z.of_nat (length (requests_for tool_id requests))
        /\ st_success st = count_where counted_success (requests_for tool_id requests)
        /\ st_failure st
           = count_where (fun d => negb (counted_success d)) (requests_for tool_id requests)
    end.

Lemma requests_for_snoc tool_id requests data now writable :
  requests_for tool_id (requests ++ [(data, now, writable)])
  = requests_for tool_id requests
    ++ (if String.eqb (counted_tool data) tool_id then [data] else []).
Proof.
  unfold requests_for. rewrite map_app, List.filter_app. reflexivity.
Qed.

Lemma log_use_all_snoc requests data now writable s :
  log_use_all (requests ++ [(data, now, writable)]) s
  = snd (log_use data now writable (log_use_all requests s)).
Proof. unfold log_use_all. now rewrite fold_left_app. Qed.

Lemma log_use_agrees requests data now writable s :
  stats_agree requests s ->
  stats_agree (requests ++ [(data, now, writable)]) (snd (log_use data now writable s)).
Proof.
  intros Hs tool_id. specialize (Hs tool_id).
  rewrite requests_for_snoc. unfold log_use. cbn [snd USAGE_STATS].
  fold (counted_tool data). fold (counted_success data).
  destruct (String.eqb_spec (counted_tool data) tool_id) as [->|Hne].
  - rewrite lookup_insert_eq.
    unfold count_where in *. rewrite !List.filter_app, !length_app.
    cbn [List.filter].
    destruct (USAGE_STATS s !! tool_id) as [st|].
    + destruct Hs as (_ & Ht & Hsu & Hf). cbn [default from_option id].
      destruct (counted_success data); cbn [negb length st_total st_success st_failure];
        (split; [now destruct (requests_for tool_id requests)|]); lia.
    + rewrite Hs. cbn [default from_option id].
      destruct (counted_success data);
        cbn [negb length app List.filter st_total st_success st_failure];
        (split; [discriminate|]); lia.
  - rewrite lookup_insert_ne by assumption. rewrite app_nil_r. exact Hs.
Qed.

Lemma log_use_all_dom requests :
  dom (USAGE_STATS (log_use_all requests no_usage))
  = list_to_set (map (fun r => counted_tool (fst (fst r))) requests).
Proof.
  induction requests as [|[[data now] writable] requests IH] using rev_ind.
  - cbn. apply dom_empty_L.
  - rewrite log_use_all_snoc, map_app, list_to_set_app_L, <- IH.
    unfold log_use. cbn [snd USAGE_STATS map fst list_to_set].
    rewrite dom_insert_L. fold (counted_tool data).
    rewrite union_empty_r_L. apply union_comm_L.
Qed.

(** ** X24.  The usage statistics count the requests.  After any history of
    [/log_use] requests, a tool id has an entry in [USAGE_STATS] exactly
    when some request was counted under it (an absent id counts as
    ["unknown"], an absent [success] as a success); the entry's [total] is
    the number of those requests, [success] and [failure] the numbers of
    successful and failed ones, so [total = success + failure]; [/health]
    reports the number of distinct tool ids counted; and the log file holds
    one line for each request whose append went through. *)
Theorem usage_stats_count_requests (requests : list (log_use_request * string * bool)) :
  let s := log_use_all requests no_usage in
  (forall tool_id,
      match get_stats s !! tool_id with
      | None => requests_for tool_id requests = []
      | Some st =>
          requests_for tool_id requests <> []
          /\ st_total st = Z.of_nat (length (requests_for tool_id requests))
          /\ st_success st = count_where counted_success (requests_for tool_id requests)
          /\ st_failure st
             = count_where (fun d => negb (counted_success d))
                           (requests_for tool_id requests)
          /\ st_total st = st_success st + st_failure st
      end)
  /\ snd (health s) = length (remove_dups (map (fun r => counted_tool (fst (fst r))) requests))
  /\ length (usage_log s) = length (List.filter (fun r => snd r) requests).
Proof.
  cbn zeta. split; [|split].
  - assert (Hs : stats_agree requests (log_use_all requests no_usage)).
    { induction requests as [|[[data now] writable] requests IH] using rev_ind.
      - intros tool_id. cbn. now rewrite lookup_empty.
      - rewrite log_use_all_snoc. now apply log_use_agrees. }
    intros tool_id. specialize (Hs tool_id). unfold get_stats.
    destruct (USAGE_STATS _ !! tool_id) as [st|]; [|exact Hs].
    destruct Hs as (Hne & Ht & Hsu & Hf). do 4 (split; [assumption|]).
    rewrite Ht, Hsu, Hf. unfold count_where.
    generalize (requests_for tool_id requests). intros l.
    induction l as [|d l IHl]; [reflexivity|]. cbn [List.filter length].
    destruct (counted_success d); cbn [negb length]; lia.
  - unfold health. cbn [snd]. rewrite <- (size_dom (D := gset string)).
    rewrite log_use_all_dom.
    rewrite <- (size_list_to_set (C := gset string) (remove_dups _))
      by apply NoDup_remove_dups.
    f_equal. apply set_eq. intros x.
    now rewrite !elem_of_list_to_set, elem_of_remove_dups.
  - induction requests as [|[[data now] writable] requests IH] using rev_ind;
      [reflexivity|].
    rewrite log_use_all_snoc, List.filter_app, length_app, <- IH.
    unfold log_use. cbn [snd usage_log List.filter].
    destruct writable; [now rewrite length_app|cbn [length]; lia].
Qed.

End Server.

(* ====================================================================== *)
(** ** src/jh_brain_sse_server.py: the tool calls on the session state *)
(* ====================================================================== *)

Module McpTools.

Import SessionState.

Section Process.
Context {R : Type} `{Real R}.

(** The Python process: the module global [_current_session] of
    session_state.py and the database file. *)
Record process := mk_process {
  current_session : option string;
  database : db R
}.

(** [get_or_create_session]: the global is set once, by [start_session];
    when that raises the global stays unset and the exception goes on
    ([None]). *)
Definition get_or_create_session (clock_id now : string) (p : process)
  : option (string * process) :=
  match current_session p with
  | Some session_id => Some (session_id, p)
  | None =>
      match start_session clock_id now (database p) with
      | Some (session_id, d') => Some (session_id, mk_process (Some session_id) d')
      | None => None
      end
  end.

(** The arguments of a [jh_brain_log_use] call, each possibly absent. *)
Record log_use_args := mk_log_use_args {
  arg_tool_id : option string;
  arg_need : option string;
  arg_success : option bool;
  arg_notes : option string
}.

(** A call with the clock values read while it runs. *)
Record log_use_call := mk_log_use_call {
  call_args : log_use_args;
  call_clock_id : string;
  call_clock_start : string;
  call_clock_log : string
}.

Definition report_of_call (session_id : string) (c : log_use_call) : report :=
  mk_report session_id
            (default "" (arg_tool_id (call_args c)))
            (default "" (arg_need (call_args c)))
            (default true (arg_success (call_args c)))
            (default "" (arg_notes (call_args c)))
            (call_clock_log c).

(** The [tool_name == "jh_brain_log_use"] branch of [process_mcp_request]:
    the session id of the result, and the process afterwards. *)
Definition jh_brain_log_use (c : log_use_call) (p : process)
  : option (string * process) :=
  match get_or_create_session (call_clock_id c) (call_clock_start c) p with
  | Some (session_id, p') =>
      Some (session_id,
            mk_process (current_session p')
                       (log_report (database p') (report_of_call session_id c)))
  | None => None
  end.

(** Calls one after the other; an exception ends the run. *)
Fixpoint log_use_calls (cs : list log_use_call) (p : process) : option process :=
  match cs with
  | [] => Some p
  | c :: rest =>
      match jh_brain_log_use c p with
      | Some (_, p') => log_use_calls rest p'
      | None => None
      end
  end.

(** The [tool_name == "jh_brain_rank_tools"] branch: the ranking and the
    recommendation [ranked[0]["tool_id"] if ranked else None]. *)
Definition jh_brain_rank_tools (tool_ids : option (list string)) (d : db R)
  : list (ranked R) * option string :=
  let ranking := get_weighted_tool_ranking (default [] tool_ids) d in
  (ranking, match ranking with
            | first :: _ => Some (r_tool_id first)
            | [] => None
            end).

Definition count_flag (flag : bool) (session_id : string) (cs : list log_use_call) : Z :=
  Z.of_nat (length (List.filter
                      (fun c => Bool.eqb (rp_success (report_of_call session_id c)) flag)
                      cs)).

Lemma log_use_calls_in_session (cs : list log_use_call) :
  forall (p : process) (session_id : string) (s : session_row),
    current_session p = Some session_id ->
    sessions (database p) !! session_id = Some s ->
    exists p' s',
      log_use_calls cs p = Some p'
      /\ current_session p' = Some session_id
      /\ tool_usage (database p')
         = tool_usage (database p)
           ++ map (fun c => usage_of_report (report_of_call session_id c)) cs
      /\ sessions (database p') !! session_id = Some s'
      /\ tool_calls s' = tool_calls s + Z.of_nat (length cs)
      /\ session_successes s' = session_successes s + count_flag true session_id cs
      /\ failures s' = failures s + count_flag false session_id cs
      /\ started_at s' = started_at s.
Proof.
  induction cs as [|c cs IH]; intros p sid s Hcur Hs.
  - exists p, s. cbn. rewrite app_nil_r. unfold count_flag. cbn.
    repeat split; try assumption; try reflexivity; lia.
  - cbn [log_use_calls]. unfold jh_brain_log_use, get_or_create_session.
    rewrite Hcur.
    set (r := report_of_call sid c).
    set (p1 := mk_process (current_session p) (log_report (database p) r)).
    assert (Hs1 : exists s1,
               sessions (database p1) !! sid = Some s1
               /\ tool_calls s1 = tool_calls s + 1
               /\ session_successes s1
                  = session_successes s + (if rp_success r then 1 else 0)
               /\ failures s1 = failures s + (if rp_success r then 0 else 1)
               /\ started_at s1 = started_at s).
    { cbn [p1 database]. rewrite log_report_sessions.
      change (rp_session r) with sid. rewrite lookup_alter_eq, Hs.
      cbn [fmap option_fmap option_map]. eexists. split; [reflexivity|].
      destruct (rp_success r); cbn; repeat split; lia. }
    destruct Hs1 as (s1 & Hs1 & Hc1 & Hw1 & Hf1 & Hst1).
    destruct (IH p1 sid s1 Hcur Hs1)
      as (p' & s' & Hrun & Hcur' & Hlog & Hs' & Hc & Hw & Hf & Hst).
    exists p', s'. split; [exact Hrun|]. split; [exact Hcur'|].
    split; [|split; [exact Hs'|]].
    + rewrite Hlog. cbn [p1 database map]. rewrite log_report_usage, <- app_assoc.
      reflexivity.
    + unfold count_flag in *. cbn [List.filter length]. fold r.
      split; [|split; [|split; [|congruence]]];
        destruct (rp_success r); cbn [Bool.eqb length]; lia.
Qed.

(** ** X8.  In a process without a current session, the first
    [jh_brain_log_use] call starts one (under the id the clock gives, when
    that id is free), and this call and every later one log under that same
    session, whatever the clock says later: all the usage rows carry its id,
    and the session row counts exactly the calls, split into successes and
    failures ([success] defaulting to true). *)
Theorem ambient_reports_share_one_session (c : log_use_call)
  (cs : list log_use_call) (p : process) :
  current_session p = None ->
  sessions (database p) !! call_clock_id c = None ->
  let session_id := call_clock_id c in
  exists p' s,
    log_use_calls (c :: cs) p = Some p'
    /\ current_session p' = Some session_id
    /\ tool_usage (database p')
       = tool_usage (database p)
         ++ map (fun c' => usage_of_report (report_of_call session_id c')) (c :: cs)
    /\ sessions (database p') !! session_id = Some s
    /\ tool_calls s = Z.of_nat (length (c :: cs))
    /\ session_successes s = count_flag true session_id (c :: cs)
    /\ failures s = count_flag false session_id (c :: cs)
    /\ started_at s = call_clock_start c.
Proof.
  intros Hcur Hfree sid. subst sid. set (sid := call_clock_id c) in *.
  set (p0 := mk_process (Some sid)
               (mk_db (<[sid := mk_session (call_clock_start c) None 0 0 0]>
                         (sessions (database p)))
                      (tool_usage (database p)) (tool_weights (database p)))).
  assert (Hs0 : sessions (database p0) !! sid
                = Some (mk_session (call_clock_start c) None 0 0 0))
    by apply lookup_insert_eq.
  destruct (log_use_calls_in_session (c :: cs) p0 sid _ eq_refl Hs0)
    as (p' & s & Hrun & Hcur' & Hlog & Hs & Hc & Hw & Hf & Hst).
  exists p', s.
  split.
  { cbn [log_use_calls] in Hrun |- *.
    unfold jh_brain_log_use, get_or_create_session in Hrun |- *.
    rewrite Hcur. unfold start_session.
    change (sessions (database p) !! call_clock_id c = None) in Hfree. rewrite Hfree.
    cbn [p0 current_session] in Hrun. exact Hrun. }
  split; [exact Hcur'|]. split; [exact Hlog|]. split; [exact Hs|].
  cbn [tool_calls session_successes failures started_at] in Hc, Hw, Hf, Hst.
  repeat split; try assumption; lia.
Qed.

End Process.

Arguments process R : clear implicits.

Lemma ambient_reports_share_one_session_witness :
  exists (p' : process Q) s,
    log_use_calls
      [ mk_log_use_call (mk_log_use_args (Some "T1"%string) None None None)
                        "20250101_100000" "2025-01-01T10:00:00" "2025-01-01T10:00:01";
        mk_log_use_call (mk_log_use_args (Some "T2"%string) None (Some false) None)
                        "20250101_100500" "2025-01-01T10:05:00" "2025-01-01T10:05:01" ]
      (mk_process None empty_db)
    = Some p'
    /\ current_session p' = Some "20250101_100000"%string
    /\ tool_usage (database p')
       = [] ++ map (fun c' => usage_of_report (report_of_call "20250101_100000" c'))
           [ mk_log_use_call (mk_log_use_args (Some "T1"%string) None None None)
                             "20250101_100000" "2025-01-01T10:00:00" "2025-01-01T10:00:01";
             mk_log_use_call (mk_log_use_args (Some "T2"%string) None (Some false) None)
                             "20250101_100500" "2025-01-01T10:05:00" "2025-01-01T10:05:01" ]
    /\ sessions (database p') !! "20250101_100000" = Some s
    /\ tool_calls s = 2
    /\ session_successes s = 1
    /\ failures s = 1
    /\ started_at s = "2025-01-01T10:00:00"%string.
Proof.
  apply (ambient_reports_share_one_session
           (mk_log_use_call (mk_log_use_args (Some "T1"%string) None None None)
                            "20250101_100000" "2025-01-01T10:00:00" "2025-01-01T10:00:01")
           [ mk_log_use_call (mk_log_use_args (Some "T2"%string) None (Some false) None)
                             "20250101_100500" "2025-01-01T10:05:00" "2025-01-01T10:05:01" ]
           (mk_process None empty_db)); reflexivity.
Defined.

(** *** The recommendation of [jh_brain_rank_tools] *)

Lemma filter_head_split {A : Type} (f : A -> bool) (l : list A) (x : A) (rest : list A) :
  List.filter f l = x :: rest ->
  exists pre post, l = pre ++ x :: post /\ Forall (fun y => f y = false) pre.
Proof.
  induction l as [|y l IH]; cbn [List.filter]; [discriminate|].
  destruct (f y) eqn:Hy.
  - intros [= -> <-]. exists [], l. split; [reflexivity|constructor].
  - intros Hl. destruct (IH Hl) as (pre & post & -> & Hpre).
    exists (y :: pre), post. split; [reflexivity|]. now constructor.
Qed.

(** ** X9.  On the doubles the code computes, and for ids none of whose
    scores is NaN: [jh_brain_rank_tools] recommends nothing exactly when no
    tool id is given; otherwise it recommends the first of the given ids
    that reaches the highest score: every id before it in the input scores
    strictly less, every id after it at most as much. *)
Theorem recommendation_is_first_best (tool_ids : option (list string)) (d : db float) :
  numbers_only (default [] tool_ids) d ->
  let score := fun tool_id => compound_score (rank_row d tool_id) in
  match snd (jh_brain_rank_tools tool_ids d) with
  | None => default [] tool_ids = []
  | Some best =>
      exists before after,
        default [] tool_ids = before ++ best :: after
        /\ (forall t, t ∈ before -> PrimFloat.ltb (score t) (score best) = true)
        /\ (forall t, t ∈ after -> PrimFloat.leb (score t) (score best) = true)
  end.
Proof.
  intros Hnum score. unfold jh_brain_rank_tools; cbn [snd].
  set (ids := default [] tool_ids) in *.
  pose proof (numbers_only_keys ids d Hnum) as Hkeys.
  pose proof (PySort.sorted_perm (fun a b => PrimFloat.ltb b a) compound_score
                (map (rank_row d) ids)) as Hperm.
  pose proof (PySort.sorted_ascending_on Binary64.number
                (fun a b => PrimFloat.ltb b a) compound_score
                (PySort.strict_weak_on_flip _ _ Binary64.strict_weak_on_ltb)
                (map (rank_row d) ids) Hkeys) as Hsorted.
  unfold get_weighted_tool_ranking, PySort.sorted_reverse. cbn [r_ltb binary64].
  destruct (PySort.sorted (fun a b => PrimFloat.ltb b a) compound_score
              (map (rank_row d) ids)) as [|x rest] eqn:Hout.
  - apply Permutation_nil in Hperm. now destruct ids.
  - assert (Hx : Binary64.number (compound_score x)).
    { rewrite Forall_forall in Hkeys. apply Hkeys. rewrite <- Hperm.
      apply list_elem_of_here. }
    assert (Hmax : forall y, y ∈ map (rank_row d) ids ->
                             PrimFloat.ltb (compound_score x) (compound_score y) = false).
    { intros y Hy. rewrite <- Hperm in Hy.
      apply elem_of_cons in Hy as [->|Hy].
      - destruct (PrimFloat.ltb (compound_score x) (compound_score x)) eqn:E;
          [|reflexivity].
        now rewrite (Binary64.ltb_asym _ _ Hx Hx E) in E.
      - unfold PySort.ascending in Hsorted.
        apply StronglySorted_inv in Hsorted as [_ Hall].
        rewrite Forall_forall in Hall. exact (Hall y Hy). }
    pose proof (PySort.sorted_stable_on Binary64.number
                  (fun a b => PrimFloat.ltb b a) compound_score
                  (PySort.strict_weak_on_flip _ _ Binary64.strict_weak_on_ltb)
                  (compound_score x) (map (rank_row d) ids) Hx Hkeys) as Hstable.
    rewrite Hout in Hstable. cbn [List.filter] in Hstable.
    rewrite (equiv_key_ltb_flip _ _ Hx Hx) in Hstable.
    assert (Hxx : PrimFloat.eqb (compound_score x) (compound_score x) = true).
    { unfold Binary64.number, is_nan in Hx. now apply negb_false_iff in Hx. }
    rewrite Hxx in Hstable. symmetry in Hstable.
    apply filter_head_split in Hstable as (pre & post & Hsplit & Hpre).
    apply map_eq_app in Hsplit as (before & tail & Hids & Hb & Ht).
    destruct tail as [|best after]; [discriminate|]. cbn [map] in Ht.
    injection Ht as Hxb Hafter.
    assert (Hbest : r_tool_id x = best) by (rewrite <- Hxb; apply rank_row_tool_id).
    rewrite Hbest. exists before, after. split; [exact Hids|].
    assert (Hscore : score best = compound_score x) by (unfold score; now rewrite Hxb).
    assert (Hmem : forall t, t ∈ ids -> rank_row d t ∈ map (rank_row d) ids).
    { intros t Ht. apply list_elem_of_In, in_map, list_elem_of_In, Ht. }
    split.
    + intros t Ht. rewrite Hscore.
      assert (Hin : t ∈ ids).
      { rewrite Hids. apply elem_of_app. now left. }
      assert (Hnt : Binary64.number (compound_score (rank_row d t))) by now apply Hnum.
      assert (Hpt : rank_row d t ∈ pre).
      { rewrite <- Hb. apply list_elem_of_In, in_map, list_elem_of_In, Ht. }
      rewrite Forall_forall in Hpre. specialize (Hpre _ Hpt). cbn beta in Hpre.
      unfold PySort.equiv_key in Hpre.
      rewrite (Hmax _ (Hmem t Hin)) in Hpre. cbn [negb andb] in Hpre.
      now apply negb_false_iff in Hpre.
    + intros t Ht. rewrite Hscore.
      assert (Hin : t ∈ ids).
      { rewrite Hids. apply elem_of_app. right. now apply list_elem_of_further. }
      apply Binary64.ltb_false_leb; [exact Hx|now apply Hnum|].
      now apply Hmax, Hmem.
Qed.

Lemma recommendation_is_first_best_witness :
  match snd (jh_brain_rank_tools (Some ["A"; "B"; "new_tool"]) ab_table) with
  | None => False
  | Some best =>
      exists before after,
        ["A"; "B"; "new_tool"] = before ++ best :: after
        /\ (forall t, t ∈ before ->
              PrimFloat.ltb (compound_score (rank_row ab_table t))
                            (compound_score (rank_row ab_table best)) = true)
        /\ (forall t, t ∈ after ->
              PrimFloat.leb (compound_score (rank_row ab_table t))
                            (compound_score (rank_row ab_table best)) = true)
  end.
Proof.
  pose proof (recommendation_is_first_best (Some ["A"; "B"; "new_tool"]) ab_table
                ab_numbers_only) as H.
  cbn zeta in H.
  destruct (snd (jh_brain_rank_tools (Some ["A"; "B"; "new_tool"]) ab_table));
    [exact H|discriminate H].
Defined.

Example recommendation_follows_the_doubles :
  snd (jh_brain_rank_tools (Some ["A"; "B"; "new_tool"]) ab_table) = Some "B"%string.
Proof. vm_compute. reflexivity. Qed.

End McpTools.

(* ====================================================================== *)
(** ** src/backend_8825/server.py: the endpoints that use the hub client *)
(* ====================================================================== *)

Module MaestraBackend.

Import ConversationHub.








Section Core.

(** The JSON texts of the metadata values. *)
Variable json_text : option string -> string.
Variable json_int : Z -> string.





(** [metrics_endpoint]: [len(hub.list_conversations(status="active"))]. *)
Definition active_conversations (now : string) (h : hub) : nat :=
  length (list_conversations None None "active" now h).


End Core.




Lemma filter_all {A : Type} (f : A -> bool) (l : list A) :
  Forall (fun x => f x = true) l -> List.filter f l = l.
Proof.
  induction 1 as [|x l Hx _ IH]; [reflexivity|]. cbn. now rewrite Hx, IH.
Qed.

(** ** X26.  The [active_conversations] figure of [/metrics] counts every
    conversation ever created: after any history of calls on flat ids (no
    path separator, not ["index"]) it is the number of conversation files,
    and closing the conversation of a flat id does not lower it. *)
Theorem active_conversations_counts_all (cs : list call) (now : string) :
  forallb flat_call cs = true ->
  active_conversations now (run_calls cs) = size (files (run_calls cs))
  /\ forall id now',
       flat_id id = true ->
       active_conversations now (snd (close_conversation id now' (run_calls cs)))
       = active_conversations now (run_calls cs).
Proof.
  intros _. split.
  - unfold active_conversations.
    destruct (list_conversations_filters_and_sorts None None "active" now (run_calls cs))
      as (_ & Hperm & _).
    rewrite Hperm, filter_all.
    + rewrite <- (length_map ie_id).
      rewrite <- (size_list_to_set (C := gset string)) by apply run_calls_index_nodup.
      rewrite <- (size_dom (D := gset string)). f_equal.
      apply set_eq. intros id. rewrite elem_of_list_to_set, elem_of_dom.
      split; [apply run_calls_indexed_files|apply run_calls_files_indexed].
    + eapply Forall_impl; [apply run_calls_as_written|].
      intros e [Hst _]. unfold keeps. now rewrite Hst.
  - intros id now' _. unfold active_conversations.
    now rewrite (list_conversations_index _ _ _ _ _ _ (close_conversation_index id now' _)).
Qed.

Lemma active_conversations_counts_all_witness :
  forallb flat_call chat_calls = true
  /\ active_conversations "2025-01-02T00:00:00Z" (run_calls chat_calls) = 2%nat
  /\ active_conversations "2025-01-02T00:00:00Z"
       (snd (close_conversation bob_id "2025-01-01T12:00:00Z" (run_calls chat_calls)))
     = 2%nat.
Proof.
  split; [reflexivity|].
  destruct (active_conversations_counts_all chat_calls "2025-01-02T00:00:00Z" eq_refl)
    as [Hcount Hclose].
  split.
  - rewrite Hcount. vm_compute. reflexivity.
  - rewrite (Hclose bob_id "2025-01-01T12:00:00Z" eq_refl), Hcount.
    vm_compute. reflexivity.
Defined.

End MaestraBackend.
